(** * Stock-Simulator: the shared price buffer, its producer and its consumers

    A shallow embedding of [PriceData.h], [SharedBuffer.h],
    [PriceGenerator.h], [SMACalculator.h], [VolatilityCalculator.h],
    [PerformanceMonitor.h], [DisplayThread.h] and the argument parsing of
    [main.cpp], followed by the properties of the specification proved on it
    and by further properties of the code.

    Conventions of the embedding:
    - [double] is IEEE binary64, i.e. Rocq's primitive [float];
    - a [std::deque] is a [list], oldest element first ([push_back] appends,
      [pop_front] is [tail]);
    - [std::map<std::string, _>] is a [gmap string _];
    - the [size_t] counters are [Z] with the wrap-around modulo [2^64] of
      unsigned arithmetic written out; container sizes are [nat];
    - a [time_point] is a tick count in [Z];
    - an access the C++ standard leaves undefined ([back()] of an empty
      deque, [operator[]] out of range) makes an operation return [None];
      every operation is proved to return [Some]. *)

From Stdlib Require Import ZArith List Lia Floats.
From Stdlib Require DecimalString DecimalNat.
From stdpp Require Import gmap strings list sorting.

(** ** PriceData.h *)

Record PriceData : Type := mkPriceData {
  symbol : string;
  price : float;
  change : float;
  timestamp : Z
}.

(** [PriceData()] : price and change are [0.0], the symbol is empty and the
    time point is the clock's epoch. *)
Definition PriceData_default : PriceData :=
  mkPriceData "" 0%float 0%float 0.

(** [PriceData(sym, p, c)] stamps the record with [now()], the reading of the
    high-resolution clock at construction. *)
Definition PriceData_make (sym : string) (p c : float) (now : Z) : PriceData :=
  mkPriceData sym p c now.

(** ** SharedBuffer.h *)

Module SharedBuffer.

(** [size_t] arithmetic: [++x] wraps around at [2^64]. *)
Definition SIZE_MODULUS : Z := 2 ^ 64.

Definition size_incr (x : Z) : Z := (x + 1) mod SIZE_MODULUS.

Record t : Type := mk {
  price_history_ : gmap string (list PriceData);
  max_history_size_ : nat;
  shutdown_ : bool;
  total_writes_ : Z;
  total_reads_ : Z
}.

(** [explicit SharedBuffer(size_t max_size = 100)] *)
Definition init (max_size : nat) : t :=
  mk ∅ max_size false 0 0.

Definition DEFAULT_MAX_SIZE : nat := 100.

(** [push]: the critical section. [price_history_[data.symbol]] creates an
    empty deque when the key is new.  The [notify_all()] that follows it is
    in [CondVar] below. *)
Definition push (data : PriceData) (b : t) : t :=
  let history := default [] (price_history_ b !! symbol data) in
  let history := history ++ [data] in
  let history :=
    if decide (max_history_size_ b < length history)
    then tail history
    else history in
  mk (<[symbol data := history]> (price_history_ b))
     (max_history_size_ b)
     (shutdown_ b)
     (size_incr (total_writes_ b))
     (total_reads_ b).

(** [getLatest(symbol, data)]: the returned triple is the result, the value
    of the output parameter [data] after the call, and the buffer. *)
Definition getLatest (sym : string) (data : PriceData) (b : t)
  : option (bool * PriceData * t) :=
  match price_history_ b !! sym with
  | Some history =>
      if negb (bool_decide (history = []))
      then
        back ← last history;
        Some (true, back,
              mk (price_history_ b) (max_history_size_ b) (shutdown_ b)
                 (total_writes_ b) (size_incr (total_reads_ b)))
      else Some (false, data, b)
  | None => Some (false, data, b)
  end.

(** The copy loop of [getHistory]:
    [for (i = start; i < history.size(); ++i) result.push_back(history[i])],
    with [n] the number of iterations left. *)
Fixpoint copy_loop (history : list PriceData) (i n : nat)
  (result : list PriceData) : option (list PriceData) :=
  match n with
  | O => Some result
  | S n' =>
      x ← history !! i;
      copy_loop history (S i) n' (result ++ [x])
  end.

(** [getHistory(symbol, count)] *)
Definition getHistory (sym : string) (count : nat) (b : t)
  : option (list PriceData * t) :=
  match price_history_ b !! sym with
  | Some history =>
      let start :=
        if decide (count < length history)
        then length history - count
        else 0%nat in
      result ← copy_loop history start (length history - start) [];
      Some (result,
            mk (price_history_ b) (max_history_size_ b) (shutdown_ b)
               (total_writes_ b) (size_incr (total_reads_ b)))
  | None => Some ([], b)
  end.

(** The predicate handed to [cv_data_ready_.wait_for] in [waitForData]. *)
Definition wake_predicate (b : t) : bool :=
  shutdown_ b || bool_decide (total_writes_ b > 0)%Z.

(** [std::map] iterates in ascending key order; [std::string] is ordered
    lexicographically by character code. *)
Definition symbol_le (x y : string) : Prop := String.leb x y = true.

#[global] Instance symbol_le_dec (x y : string) : Decision (symbol_le x y).
Proof. unfold symbol_le. apply _. Defined.

(** [getSymbols()] *)
Definition getSymbols (b : t) : list string * t :=
  (merge_sort symbol_le (fst <$> map_to_list (price_history_ b)), b).

(** [shutdown()]: the critical section.  The [notify_all()] that follows it
    is in [CondVar] below. *)
Definition shutdown (b : t) : t :=
  mk (price_history_ b) (max_history_size_ b) true
     (total_writes_ b) (total_reads_ b).

(** [isShutdown()] *)
Definition isShutdown (b : t) : bool * t := (shutdown_ b, b).

(** [getStats(writes, reads)]: the values of the two output parameters. *)
Definition getStats (b : t) : Z * Z * t :=
  (total_writes_ b, total_reads_ b, b).

(** Every member function holds [mutex_] for its whole critical section, so
    the buffer goes through a sequence of complete calls; [Op] names one
    call with its arguments. *)
Inductive Op : Type :=
  | OPush (data : PriceData)
  | OGetLatest (sym : string) (data : PriceData)
  | OGetHistory (sym : string) (count : nat)
  | OGetSymbols
  | OShutdown
  | OIsShutdown
  | OGetStats.

(** The effect of one call on the buffer. *)
Definition exec (o : Op) (b : t) : option t :=
  match o with
  | OPush data => Some (push data b)
  | OGetLatest sym data => r ← getLatest sym data b; Some (snd r)
  | OGetHistory sym count => r ← getHistory sym count b; Some (snd r)
  | OGetSymbols => Some (snd (getSymbols b))
  | OShutdown => Some (shutdown b)
  | OIsShutdown => Some (snd (isShutdown b))
  | OGetStats => Some (snd (getStats b))
  end.

Fixpoint run (ops : list Op) (b : t) : option t :=
  match ops with
  | [] => Some b
  | o :: ops' => b' ← exec o b; run ops' b'
  end.

(** One wake-up of a thread blocked on [cv_data_ready_]: the time since the
    call at which it re-acquires the mutex, and the calls other threads
    completed on the buffer while the mutex was released. *)
Record wake : Type := mkWake {
  at_ms : Z;
  others : list Op
}.

(** [cv.wait_for(lock, timeout, pred)] is
    [while (!pred()) if (wait_until(lock, deadline) == timeout) return pred();
     return true;].
    [waits] counts how often the thread blocked.  When no more activity is
    scheduled the deadline passes with the buffer unchanged. *)
Fixpoint wait_loop (timeout_ms : Z) (env : list wake) (waits : nat) (b : t)
  : option (bool * nat * t) :=
  if wake_predicate b then Some (true, waits, b)
  else
    match env with
    | [] => Some (wake_predicate b, S waits, b)
    | w :: env' =>
        b' ← run (others w) b;
        if decide (timeout_ms <= at_ms w)%Z
        then Some (wake_predicate b', S waits, b')
        else wait_loop timeout_ms env' (S waits) b'
    end.

(** [waitForData(timeout_ms)]: the result, the number of times the caller
    blocked, and the buffer when the call returns. *)
Definition waitForData (timeout_ms : Z) (env : list wake) (b : t)
  : option (bool * nat * t) :=
  wait_loop timeout_ms env 0 b.

End SharedBuffer.

(** ** The condition variable [cv_data_ready_]

    [push] and [shutdown] leave their critical section and then call
    [cv_data_ready_.notify_all()]; [waitForData] blocks in [wait_for].  A
    thread inside [waitForData] is blocked in the wait with the mutex
    released, or it is unblocked and about to re-acquire the mutex, or it
    has returned.  The threads move one step at a time; the clock counts
    milliseconds. *)

Module CondVar.

Inductive waiter : Type :=
  | Blocked (deadline : Z)
  | Woken (deadline : Z)
  | Returned (result : bool).

Record config : Type := mkConfig {
  buffer : SharedBuffer.t;
  clock : Z;
  waiters : list waiter
}.

(** [notify_all()] unblocks every thread that is blocked on the condition
    variable, and no other. *)
Definition notify_all (ws : list waiter) : list waiter :=
  (fun w => match w with Blocked deadline => Woken deadline | _ => w end)
    <$> ws.

Inductive event : Type :=
  | Locked (o : SharedBuffer.Op)
  | NotifyAll
  | Enter (timeout_ms : Z)
  | Unblock (w : nat)
  | Reacquire (w : nat)
  | Tick (ms : Z).

(** One step:
    - [Locked o]: a thread runs the critical section of a call;
    - [NotifyAll]: a thread executes [cv_data_ready_.notify_all()];
    - [Enter timeout_ms]: a thread calls [waitForData(timeout_ms)], takes
      the mutex and starts [wait_for], which is
      [while (!pred()) if (wait_until(lock, now + timeout) == timeout)
       return pred(); return true;]: it returns [true] at once or blocks;
    - [Unblock w]: the wait of a blocked thread ends without a
      notification, because the deadline is reached or spuriously;
    - [Reacquire w]: an unblocked thread gets the mutex back; [wait_until]
      reports a timeout when the deadline has passed, and the loop goes on:
      the thread returns or blocks again;
    - [Tick ms]: time passes.
    A step that cannot be taken gives [None]. *)
Definition step (e : event) (c : config) : option config :=
  match e with
  | Locked o =>
      b ← SharedBuffer.exec o (buffer c);
      Some (mkConfig b (clock c) (waiters c))
  | NotifyAll =>
      Some (mkConfig (buffer c) (clock c) (notify_all (waiters c)))
  | Enter timeout_ms =>
      let w :=
        if SharedBuffer.wake_predicate (buffer c) then Returned true
        else Blocked (clock c + timeout_ms) in
      Some (mkConfig (buffer c) (clock c) (waiters c ++ [w]))
  | Unblock w =>
      match waiters c !! w with
      | Some (Blocked deadline) =>
          Some (mkConfig (buffer c) (clock c)
                  (<[w := Woken deadline]> (waiters c)))
      | _ => None
      end
  | Reacquire w =>
      match waiters c !! w with
      | Some (Woken deadline) =>
          let next :=
            if bool_decide (deadline <= clock c)%Z
            then Returned (SharedBuffer.wake_predicate (buffer c))
            else if SharedBuffer.wake_predicate (buffer c)
                 then Returned true
                 else Blocked deadline in
          Some (mkConfig (buffer c) (clock c) (<[w := next]> (waiters c)))
      | _ => None
      end
  | Tick ms =>
      if decide (0 <= ms)%Z
      then Some (mkConfig (buffer c) (clock c + ms) (waiters c))
      else None
  end.

(** The steps are taken in the order given; one that cannot be taken leaves
    the configuration as it is. *)
Fixpoint run (events : list event) (c : config) : config :=
  match events with
  | [] => c
  | e :: events' => run events' (default c (step e c))
  end.

(** [push(data)] and [shutdown()] as their two steps, the critical section
    and the notification; [between] is what the other threads do after the
    mutex is released and before the notification. *)
Definition push (data : PriceData) (between : list event) : list event :=
  Locked (SharedBuffer.OPush data) :: between ++ [NotifyAll].

Definition shutdown (between : list event) : list event :=
  Locked SharedBuffer.OShutdown :: between ++ [NotifyAll].

End CondVar.

(** ** PerformanceMonitor.h, as far as the producer and the consumers use
    it: the calls they make on the monitor, in order. *)

Inductive monitor_call : Type :=
  | RecordGeneration (sym : string) (timestamp : Z)
  | RecordProcessing (sym operation : string)
      (generation_time processing_time : Z).

(** The conversion of a [size_t] container size to [double] (sizes stay
    far below [2^63]). *)
Definition double_of_size (n : nat) : float :=
  PrimFloat.of_uint63 (Uint63.of_Z (Z.of_nat n)).

(** ** PriceGenerator.h *)

Module PriceGenerator.

Record t : Type := mk {
  symbols_ : list string;
  current_prices_ : list float
}.

(** What the producer does to the outside: a [push] on the shared buffer or
    a call on the monitor. *)
Inductive call : Type :=
  | CallPush (data : PriceData)
  | CallMonitor (c : monitor_call).

(** The constructor: [current_prices_.resize(symbols_.size())], then every
    price is assigned a draw of [init_price_dist], [init_draw i] being the
    [i]-th draw. *)
Definition make (symbols : list string) (init_draw : nat -> float) : t :=
  mk symbols (init_draw <$> seq 0 (length symbols)).

Definition state : Type := t * SharedBuffer.t * list call.

(** The body of the [for] loop of [run] for index [i]; [change] is the draw
    of [price_change_dist_] and [now] the clock reading taken by the
    [PriceData] constructor. *)
Definition generate (i : nat) (change : float) (now : Z) (st : state)
  : option state :=
  let '(g, b, calls) := st in
  previous ← current_prices_ g !! i;
  let g := mk (symbols_ g)
              (<[i := (previous + change)%float]> (current_prices_ g)) in
  p ← current_prices_ g !! i;
  let g := if (p <? 1)%float
           then mk (symbols_ g) (<[i := 1%float]> (current_prices_ g))
           else g in
  sym ← symbols_ g !! i;
  p ← current_prices_ g !! i;
  let data := PriceData_make sym p change now in
  Some (g, SharedBuffer.push data b,
        calls ++ [CallPush data;
                  CallMonitor (RecordGeneration sym (timestamp data))]).

(** [for (size_t i = 0; i < symbols_.size(); ++i)], [n] iterations left. *)
Fixpoint for_symbols (noise : nat -> float) (clock : nat -> Z) (i n : nat)
  (st : state) : option state :=
  match n with
  | O => Some st
  | S n' =>
      st' ← generate i (noise i) (clock i) st;
      for_symbols noise clock (S i) n' st'
  end.

(** [while (running_.load())]: [rounds] is the number of times the flag is
    read as [true] before [stop()] clears it; [noise k i] and [clock k i] are
    the draw and the clock reading for symbol [i] in iteration [k]. *)
Fixpoint run_loop (noise : nat -> nat -> float) (clock : nat -> nat -> Z)
  (iteration rounds : nat) (st : state) : option state :=
  match rounds with
  | O => Some st
  | S rounds' =>
      st' ← for_symbols (noise iteration) (clock iteration) 0
              (length (symbols_ (fst (fst st)))) st;
      run_loop noise clock (S iteration) rounds' st'
  end.

Definition run (noise : nat -> nat -> float) (clock : nat -> nat -> Z)
  (rounds : nat) (g : t) (b : SharedBuffer.t) : option state :=
  run_loop noise clock 0 rounds (g, b, []).

End PriceGenerator.

(** ** SMACalculator.h *)

Module SMACalculator.

Record indicator : Type := mkIndicator {
  sma : float;
  latest_price : float;
  deviation : float;
  generation_time : Z
}.

(** The body of the loop over the symbols, from the window read from the
    buffer on: [Some None] is the [continue] of a window that is too short. *)
Definition calculate (history : list PriceData) : option (option indicator) :=
  if decide (length history < 2) then Some None
  else
    let sum :=
      fold_left (fun sum data => (sum + price data)%float) history 0%float in
    let sma := (sum / double_of_size (length history))%float in
    back ← last history;
    let latest_price := price back in
    let deviation := ((latest_price - sma) / sma * 100)%float in
    Some (Some (mkIndicator sma latest_price deviation (timestamp back))).

(** One symbol of one round: read the window, compute, report to the
    monitor with the clock reading [now]. *)
Definition process_symbol (window_size_ : nat) (sym : string) (now : Z)
  (b : SharedBuffer.t)
  : option (option indicator * SharedBuffer.t * list monitor_call) :=
  r ← SharedBuffer.getHistory sym window_size_ b;
  ind ← calculate (fst r);
  Some (ind, snd r,
        match ind with
        | Some x => [RecordProcessing sym "SMA" (generation_time x) now]
        | None => []
        end).

End SMACalculator.

(** ** VolatilityCalculator.h *)

Module VolatilityCalculator.

Inductive level : Type := LOW | MODERATE | HIGH.

Record indicator : Type := mkIndicator {
  returns : list float;
  annualized_volatility : float;
  volatility_level : level;
  generation_time : Z
}.

(** [for (size_t i = 1; i < history.size(); ++i)], [n] iterations left. *)
Fixpoint returns_loop (history : list PriceData) (i n : nat)
  (returns : list float) : option (list float) :=
  match n with
  | O => Some returns
  | S n' =>
      cur ← history !! i;
      prev ← history !! (i - 1);
      returns_loop history (S i) n'
        (returns ++ [((price cur - price prev) / price prev)%float])
  end.

Definition classify (annualized_volatility : float) : level :=
  if (annualized_volatility <? 15)%float then LOW
  else if (annualized_volatility <? 30)%float then MODERATE
  else HIGH.

Definition calculate (history : list PriceData) : option (option indicator) :=
  if decide (length history < 3) then Some None
  else
    returns ← returns_loop history 1 (length history - 1) [];
    let mean_return :=
      (fold_left PrimFloat.add returns 0
       / double_of_size (length returns))%float in
    let variance :=
      fold_left
        (fun variance ret =>
           (variance + (ret - mean_return) * (ret - mean_return))%float)
        returns 0%float in
    let variance := (variance / double_of_size (length returns))%float in
    let volatility := PrimFloat.sqrt variance in
    let annualized_volatility :=
      (volatility * PrimFloat.sqrt 252 * 100)%float in
    back ← last history;
    Some (Some (mkIndicator returns annualized_volatility
                  (classify annualized_volatility) (timestamp back))).

Definition process_symbol (window_size_ : nat) (sym : string) (now : Z)
  (b : SharedBuffer.t)
  : option (option indicator * SharedBuffer.t * list monitor_call) :=
  r ← SharedBuffer.getHistory sym window_size_ b;
  ind ← calculate (fst r);
  Some (ind, snd r,
        match ind with
        | Some x => [RecordProcessing sym "Volatility" (generation_time x) now]
        | None => []
        end).

End VolatilityCalculator.

(** ** Threads on one buffer

    The producer and the consumers call [push] and [getHistory] from their
    own threads.  Each call is split at its statements; a thread takes one
    step at a time, in the order a schedule gives, and the constructor of
    [std::unique_lock] can only be passed while no thread owns [mutex_]. *)

Module Threads.

Inductive call : Type :=
  | Push (data : PriceData)
  | GetHistory (sym : string) (count : nat).

(** Where a thread stands: between two calls, or before a statement of the
    critical section of [push] or of [getHistory] (with its locals). *)
Inductive pc : Type :=
  | Idle
  | PushAppend (data : PriceData)
  | PushTrim (data : PriceData)
  | PushCount (data : PriceData)
  | PushUnlock (data : PriceData)
  | HistFind (sym : string) (count : nat)
  | HistCopy (sym : string) (count i : nat) (result : list PriceData)
  | HistCount (sym : string) (count : nat) (result : list PriceData)
  | HistUnlock (sym : string) (count : nat) (result : list PriceData).

Record thread : Type := mkThread {
  todo : list call;
  at_pc : pc;
  returned : list (string * nat * list PriceData)
}.

(** [mutex_] is the owner of the lock, if any.  [log] is a history
    variable: the calls whose critical section is complete, in the order in
    which they released the lock. *)
Record config : Type := mkConfig {
  buffer : SharedBuffer.t;
  mutex_ : option nat;
  threads : list thread;
  log : list SharedBuffer.Op
}.

Definition set_history (sym : string) (history : list PriceData)
  (b : SharedBuffer.t) : SharedBuffer.t :=
  SharedBuffer.mk (<[sym := history]> (SharedBuffer.price_history_ b))
    (SharedBuffer.max_history_size_ b) (SharedBuffer.shutdown_ b)
    (SharedBuffer.total_writes_ b) (SharedBuffer.total_reads_ b).

Definition count_write (b : SharedBuffer.t) : SharedBuffer.t :=
  SharedBuffer.mk (SharedBuffer.price_history_ b)
    (SharedBuffer.max_history_size_ b) (SharedBuffer.shutdown_ b)
    (SharedBuffer.size_incr (SharedBuffer.total_writes_ b))
    (SharedBuffer.total_reads_ b).

Definition count_read (b : SharedBuffer.t) : SharedBuffer.t :=
  SharedBuffer.mk (SharedBuffer.price_history_ b)
    (SharedBuffer.max_history_size_ b) (SharedBuffer.shutdown_ b)
    (SharedBuffer.total_writes_ b)
    (SharedBuffer.size_incr (SharedBuffer.total_reads_ b)).

Definition stored (sym : string) (b : SharedBuffer.t) : list PriceData :=
  default [] (SharedBuffer.price_history_ b !! sym).

(** One step of thread [tid]; [None] when the thread cannot move: it has
    finished, or it waits for the lock another thread owns. *)
Definition step (tid : nat) (c : config) : option config :=
  th ← threads c !! tid;
  let b := buffer c in
  let continue (b' : SharedBuffer.t) (next : pc) : option config :=
    Some (mkConfig b' (mutex_ c)
            (<[tid := mkThread (todo th) next (returned th)]> (threads c))
            (log c)) in
  match at_pc th with
  | Idle =>
      match todo th, mutex_ c with
      | next :: rest, None =>
          Some (mkConfig b (Some tid)
                  (<[tid := mkThread rest
                              match next with
                              | Push data => PushAppend data
                              | GetHistory sym count => HistFind sym count
                              end
                              (returned th)]> (threads c))
                  (log c))
      | _, _ => None
      end
  | PushAppend data =>
      (* auto& history = price_history_[data.symbol];
         history.push_back(data); *)
      continue (set_history (symbol data)
                  (stored (symbol data) b ++ [data]) b)
               (PushTrim data)
  | PushTrim data =>
      (* if (history.size() > max_history_size_) history.pop_front(); *)
      let history := stored (symbol data) b in
      continue (if decide (SharedBuffer.max_history_size_ b < length history)
                then set_history (symbol data) (tail history) b
                else b)
               (PushCount data)
  | PushCount data =>
      (* ++total_writes_; *)
      continue (count_write b) (PushUnlock data)
  | PushUnlock data =>
      (* the lock goes out of scope; notify_all() *)
      Some (mkConfig b None
              (<[tid := mkThread (todo th) Idle (returned th)]> (threads c))
              (log c ++ [SharedBuffer.OPush data]))
  | HistFind sym count =>
      (* auto it = price_history_.find(symbol);
         size_t start = ...; *)
      match SharedBuffer.price_history_ b !! sym with
      | Some history =>
          let start :=
            if decide (count < length history)
            then length history - count
            else 0 in
          continue b (HistCopy sym count start [])
      | None => continue b (HistUnlock sym count [])
      end
  | HistCopy sym count i result =>
      (* for (; i < history.size(); ++i) result.push_back(history[i]); *)
      match stored sym b !! i with
      | Some x => continue b (HistCopy sym count (S i) (result ++ [x]))
      | None => continue b (HistCount sym count result)
      end
  | HistCount sym count result =>
      (* ++total_reads_; *)
      continue (count_read b) (HistUnlock sym count result)
  | HistUnlock sym count result =>
      (* return result; the lock goes out of scope *)
      Some (mkConfig b None
              (<[tid := mkThread (todo th) Idle
                          (returned th ++ [(sym, count, result)])]>
                 (threads c))
              (log c ++ [SharedBuffer.OGetHistory sym count]))
  end.

(** A schedule names the thread that moves next; naming a thread that
    cannot move leaves the configuration as it is. *)
Fixpoint schedule (sched : list nat) (c : config) : config :=
  match sched with
  | [] => c
  | tid :: sched' => schedule sched' (default c (step tid c))
  end.

(** All threads before their first call, on a fresh buffer. *)
Definition start (max_size : nat) (programs : list (list call)) : config :=
  mkConfig (SharedBuffer.init max_size) None
    ((fun p => mkThread p Idle []) <$> programs) [].

End Threads.

(** * Notions used in the statements *)

Import SharedBuffer.

(** The [count] most recent elements of a history, oldest first. *)
Definition lastn {A : Type} (count : nat) (l : list A) : list A :=
  drop (length l - count) l.

(** The values pushed for [key] along a sequence of calls, in push order. *)
Fixpoint pushed (key : string) (ops : list Op) : list PriceData :=
  match ops with
  | [] => []
  | OPush data :: ops' =>
      if decide (symbol data = key) then data :: pushed key ops'
      else pushed key ops'
  | _ :: ops' => pushed key ops'
  end.

(** What [push] stores for the key of [data], given the deque found there. *)
Definition appended (cap : nat) (history : list PriceData) (data : PriceData)
  : list PriceData :=
  if decide (cap < length (history ++ [data]))
  then tail (history ++ [data])
  else history ++ [data].

(** An observation of [sym] with value [p] made at instant [now]. *)
Definition obs (sym : string) (p : float) (now : Z) : PriceData :=
  PriceData_make sym p 0%float now.

(** The scenario of the specification: capacity 2, key ["X"], the values
    10, 11, 12 pushed at three successive instants. *)
Definition scenario_X : list Op :=
  [OPush (obs "X" 10 1); OPush (obs "X" 11 2); OPush (obs "X" 12 3)].

(** The buffer after that scenario. *)
Definition scenario_X_buffer : t :=
  default (init 2) (run scenario_X (init 2)).

(** A buffer constructed with the default capacity. *)
Definition fresh_buffer : t := init DEFAULT_MAX_SIZE.

(** The flag is set, [ws] being the threads in [waitForData] when it was
    set: they are all still there, and a thread that has returned has
    returned [true] unless it had returned before. *)
Definition flag_set_since (ws : list CondVar.waiter) (c : CondVar.config)
  : Prop :=
  shutdown_ (CondVar.buffer c) = true /\
  length ws <= length (CondVar.waiters c) /\
  forall w result,
    CondVar.waiters c !! w = Some (CondVar.Returned result) ->
    result = true \/ ws !! w = Some (CondVar.Returned result).

(** No thread is blocked on the condition variable. *)
Definition none_blocked (c : CondVar.config) : Prop :=
  forall w deadline,
    CondVar.waiters c !! w <> Some (CondVar.Blocked deadline).

(** One thread blocked in [waitForData(3600000)] on a fresh buffer. *)
Definition blocked_for_an_hour : CondVar.config :=
  CondVar.mkConfig fresh_buffer 0 [CondVar.Blocked 3600000].

(** Whether a call is a [push]. *)
Definition is_push (o : Op) : bool :=
  match o with OPush _ => true | _ => false end.

(** The number of completed [push] calls of a sequence of calls. *)
Fixpoint pushes (ops : list Op) : nat :=
  match ops with
  | [] => 0
  | o :: ops' => (if is_push o then 1 else 0) + pushes ops'
  end.

(** A [getLatest] or [getHistory] call whose key is in the map of [b]. *)
Definition read_of_known_key (o : Op) (b : t) : bool :=
  match o with
  | OGetLatest sym _ | OGetHistory sym _ =>
      bool_decide (is_Some (price_history_ b !! sym))
  | _ => false
  end.

(** A [getLatest] call that returns [true], or a [getHistory] call whose key
    is in the map of [b]. *)
Definition successful_read (o : Op) (b : t) : bool :=
  match o with
  | OGetLatest sym data =>
      match getLatest sym data b with
      | Some (found, _, _) => found
      | None => false
      end
  | OGetHistory sym _ => bool_decide (is_Some (price_history_ b !! sym))
  | _ => false
  end.

(** The number of calls of [ops], run from [b], that satisfy [P] on the
    buffer they are made on. *)
Fixpoint calls_where (P : Op -> t -> bool) (ops : list Op) (b : t) : nat :=
  match ops with
  | [] => 0
  | o :: ops' =>
      (if P o b then 1 else 0) +
      match exec o b with
      | Some b' => calls_where P ops' b'
      | None => 0
      end
  end.

(** A buffer of capacity 0 keeps the key of a push with an empty history:
    [getLatest] finds the key and still returns [false]. *)
Definition empty_history_read : list Op :=
  [OPush (obs "X" 10 1); OGetLatest "X" PriceData_default].

(** One push, two successful reads and a read of an unknown key. *)
Definition reads_X : list Op :=
  [OPush (obs "X" 10 1); OGetLatest "X" PriceData_default;
   OGetHistory "X" 5; OGetLatest "Y" PriceData_default; OGetStats].

(** [if (p < 1.0) p = 1.0]: the price clamped from below at the floor 1.0. *)
Definition clamp (p : float) : float :=
  if (p <? 1)%float then 1%float else p.

Section ProducerNotions.
Import PriceGenerator.

Variable symbols : list string.
Variable init_draw : nat -> float.
Variable noise : nat -> nat -> float.
Variable clock : nat -> nat -> Z.

(** The price of symbol [i] after [k] iterations of the loop. *)
Fixpoint price_after (k i : nat) : float :=
  match k with
  | O => init_draw i
  | S k' => clamp (price_after k' i + noise k' i)
  end.

(** The observations of iteration [k], one per tracked symbol. *)
Definition round_data (k : nat) : list PriceData :=
  imap (fun i sym =>
          PriceData_make sym (price_after (S k) i) (noise k i) (clock k i))
       symbols.

(** The observations of the first [rounds] iterations. *)
Definition generated (rounds : nat) : list PriceData :=
  flat_map round_data (seq 0 rounds).

(** What the producer does with one observation. *)
Definition push_then_record (data : PriceData) : list call :=
  [CallPush data;
   CallMonitor (RecordGeneration (symbol data) (timestamp data))].

(** The prices held by the generator when symbol [i] of iteration [k] is
    next. *)
Definition prices_at (k i : nat) (g : t) : Prop :=
  symbols_ g = symbols /\
  forall j, j < length symbols ->
    current_prices_ g !! j =
    Some (if decide (j < i) then price_after (S k) j else price_after k j).

End ProducerNotions.

(** Two symbols starting at 100 and 2; every draw is -3, so the second
    symbol sits on the floor. *)
Definition falling_noise (k i : nat) : float := (-3)%float.
Definition falling_init (i : nat) : float :=
  match i with O => 100%float | _ => 2%float end.
Definition tick_clock (k i : nat) : Z := Z.of_nat (2 * k + i).

(** The arithmetic mean of a window of values, summed oldest first. *)
Definition arithmetic_mean (values : list float) : float :=
  (fold_left PrimFloat.add values 0 / double_of_size (length values))%float.

(** The deviation of the newest value from the mean, in percent. *)
Definition percent_deviation (newest mean : float) : float :=
  ((newest - mean) / mean * 100)%float.

(** The per-step returns [(v[i] - v[i-1]) / v[i-1]] of a window. *)
Fixpoint step_returns (v : list float) : list float :=
  match v with
  | previous :: (current :: _) as rest =>
      ((current - previous) / previous)%float :: step_returns rest
  | _ => []
  end.

(** The population standard deviation: the variance divides by the number
    of values. *)
Definition population_stddev (values : list float) : float :=
  let mean := arithmetic_mean values in
  let squares :=
    fold_left (fun acc x => (acc + (x - mean) * (x - mean))%float)
      values 0%float in
  PrimFloat.sqrt (squares / double_of_size (length values)).

(** Annualized over 252 trading days and expressed in percent. *)
Definition annualized_percent (returns : list float) : float :=
  (population_stddev returns * PrimFloat.sqrt 252 * 100)%float.

(** A window holding the given values, oldest first. *)
Definition window_of (values : list float) : list PriceData :=
  imap (fun i v => obs "X" v (Z.of_nat i)) values.

(** The window of the specification's example. *)
Definition window_100 : list PriceData :=
  window_of [100%float; 101%float; 99%float; 100%float].

Section ThreadNotions.
Import Threads.

Variable cap : nat.

(** [e] is what [getHistory] returns on the buffer as it was after some
    prefix of the completed calls. *)
Definition snapshot (completed : list Op)
  (e : string * nat * list PriceData) : Prop :=
  exists ops b,
    ops `prefix_of` completed /\
    run ops (init cap) = Some b /\
    fst <$> getHistory e.1.1 e.1.2 b = Some e.2.

(** The buffer seen by the owner of the lock at each statement of its
    critical section, [atomic] being the buffer when it took the lock. *)
Definition in_section (p : pc) (shared atomic : SharedBuffer.t) : Prop :=
  match p with
  | Idle => False
  | PushAppend data => shared = atomic
  | PushTrim data =>
      shared = set_history (symbol data)
                 (stored (symbol data) atomic ++ [data]) atomic
  | PushCount data =>
      shared = set_history (symbol data)
                 (appended (max_history_size_ atomic)
                    (stored (symbol data) atomic) data) atomic
  | PushUnlock data => shared = push data atomic
  | HistFind sym count => shared = atomic
  | HistCopy sym count i result =>
      shared = atomic /\
      exists history,
        price_history_ atomic !! sym = Some history /\
        length history - count <= i /\
        result = take (i - (length history - count))
                   (drop (length history - count) history)
  | HistCount sym count result =>
      shared = atomic /\
      exists history,
        price_history_ atomic !! sym = Some history /\
        result = lastn count history
  | HistUnlock sym count result =>
      getHistory sym count atomic = Some (result, shared)
  end.

(** Every thread but the owner of the lock is between two calls. *)
Definition others_idle (c : config) (owner : option nat) : Prop :=
  forall t th, Some t <> owner -> threads c !! t = Some th -> at_pc th = Idle.

(** What holds of every configuration a schedule can reach: the log of
    completed calls replays to a buffer [atomic]; the shared buffer is
    [atomic] when the lock is free and otherwise what the owner's next
    statement expects; and every vector returned so far is a snapshot. *)
Definition invariant (c : config) : Prop :=
  exists atomic,
    run (log c) (init cap) = Some atomic /\
    others_idle c (mutex_ c) /\
    match mutex_ c with
    | None => buffer c = atomic
    | Some t =>
        exists th, threads c !! t = Some th /\
                   in_section (at_pc th) (buffer c) atomic
    end /\
    forall t th e,
      threads c !! t = Some th -> e ∈ returned th -> snapshot (log c) e.

End ThreadNotions.

(** A producer pushing 10, 11, 12 for ["X"] into a buffer of capacity 2
    and a consumer reading a window of 5, twice. *)
Definition two_threads : list (list Threads.call) :=
  [[Threads.Push (obs "X" 10 1); Threads.Push (obs "X" 11 2);
    Threads.Push (obs "X" 12 3)];
   [Threads.GetHistory "X" 5; Threads.GetHistory "X" 5]].

(** The producer completes two pushes and starts the third: after its
    [push_back] the shared deque holds three elements, one more than the
    capacity, and the consumer cannot enter [getHistory]. *)
Definition mid_push : list nat := [0; 0; 0; 0; 0; 0; 0; 0; 0; 0; 0; 0].

(** The consumer reads after the second push, is scheduled in vain during
    the third, and reads again after it. *)
Definition interleaved : list nat :=
  [0; 0; 0; 0; 0; 0; 0; 0; 0; 0;
   1; 1; 1; 1; 1; 1; 1;
   0; 0; 1; 1; 0; 0; 0;
   1; 1; 1; 1; 1; 1; 1].

(** * The rest of the program *)

(** The conversion of a signed 64-bit count to [double], rounding to
    nearest. *)
Definition double_of_Z (z : Z) : float :=
  SF2Prim (binary_normalize prec emax z 0 false).

(** A duration is a signed 64-bit count of nanoseconds, and so is the tick
    count of a [time_point]: the difference of two time points is computed
    in 64 bits and keeps the low 64 bits of the exact difference, read in
    two's complement (the language leaves the overflow undefined; this is
    what the compiled subtraction gives). *)
Definition wrap_int64 (z : Z) : Z := ((z + 2 ^ 63) mod 2 ^ 64 - 2 ^ 63)%Z.

Definition int64_sub (a b : Z) : Z := wrap_int64 (a - b).

(** ** PerformanceMonitor.h

    A [time_point] of [high_resolution_clock] counts nanoseconds;
    [duration_cast] truncates toward zero. *)

Module PerformanceMonitor.

Record LatencyRecord : Type := mkLatencyRecord {
  generation_time : Z;
  processing_time : Z;
  operation : string;
  latency_microseconds : float
}.

Record t : Type := mk {
  latency_records_ : gmap string (list LatencyRecord);
  generation_times_ : gmap string Z;
  start_time_ : Z;
  total_generations_ : Z;
  total_calculations_ : Z
}.

(** [PerformanceMonitor()], [now] being the clock reading. *)
Definition init (now : Z) : t := mk ∅ ∅ now 0 0.

Definition recordGeneration (sym : string) (timestamp : Z) (m : t) : t :=
  mk (latency_records_ m)
     (<[sym := timestamp]> (generation_times_ m))
     (start_time_ m)
     (SharedBuffer.size_incr (total_generations_ m))
     (total_calculations_ m).

(** [recordProcessing]: the latency is
    [duration_cast<microseconds>(processing_time - generation_time).count()],
    the 64-bit difference divided by 1000 towards zero, converted to
    [double]. *)
Definition recordProcessing (sym operation : string)
  (generation_time processing_time : Z) (m : t) : t :=
  let record :=
    mkLatencyRecord generation_time processing_time operation
      (double_of_Z
         (Z.quot (int64_sub processing_time generation_time) 1000)) in
  mk (<[sym := default [] (latency_records_ m !! sym) ++ [record]]>
        (latency_records_ m))
     (generation_times_ m)
     (start_time_ m)
     (total_generations_ m)
     (SharedBuffer.size_incr (total_calculations_ m)).

(** [for (record : records) if (record.operation == operation)
     latencies.push_back(record.latency_microseconds);] *)
Fixpoint latencies_of (op : string) (records : list LatencyRecord)
  : list float :=
  match records with
  | [] => []
  | record :: records' =>
      if decide (operation record = op)
      then latency_microseconds record :: latencies_of op records'
      else latencies_of op records'
  end.

(** [std::min_element] and [std::max_element] from the first element on:
    the first smallest, the first largest. *)
Fixpoint min_element_from (smallest : float) (l : list float) : float :=
  match l with
  | [] => smallest
  | x :: l' =>
      min_element_from (if (x <? smallest)%float then x else smallest) l'
  end.

Fixpoint max_element_from (largest : float) (l : list float) : float :=
  match l with
  | [] => largest
  | x :: l' =>
      max_element_from (if (largest <? x)%float then x else largest) l'
  end.

Record LatencyStats : Type := mkLatencyStats {
  min_latency : float;
  max_latency : float;
  avg_latency : float;
  sample_count : nat
}.

Definition no_stats : LatencyStats := mkLatencyStats 0 0 0 0.

(** The statistics of a vector of latencies, as [getLatencyStats] and
    [printReport] compute them after their test for emptiness. *)
Definition stats_of (latencies : list float) : LatencyStats :=
  match latencies with
  | [] => no_stats
  | first :: rest =>
      mkLatencyStats (min_element_from first rest)
        (max_element_from first rest)
        (fold_left PrimFloat.add latencies 0
         / double_of_size (length latencies))%float
        (length latencies)
  end.

(** [getLatencyStats(symbol, operation, ...)]: the values of the four
    output parameters. *)
Definition getLatencyStats (sym op : string) (m : t) : LatencyStats :=
  match latency_records_ m !! sym with
  | None => no_stats
  | Some records => stats_of (latencies_of op records)
  end.

(** [getSystemStats(generations, calculations, uptime_seconds)] at clock
    reading [now]: [now] and [start_time_] are two readings of the same
    clock by the monitor itself, far less than [2^63] nanoseconds apart, so
    their difference is written without wrap-around. *)
Definition getSystemStats (now : Z) (m : t) : Z * Z * float :=
  (total_generations_ m, total_calculations_ m,
   double_of_Z (Z.quot (now - start_time_ m) 1000000000)).

(** The operations of the records of one symbol, each once, in order of
    first appearance. *)
Fixpoint unique_operations (records : list LatencyRecord)
  (operations : list string) : list string :=
  match records with
  | [] => operations
  | record :: records' =>
      unique_operations records'
        (if decide (operation record ∈ operations) then operations
         else operations ++ [operation record])
  end.

(** The lines of the latency table [printReport] writes for one symbol:
    symbol, operation and statistics (the layout of the text is left out). *)
Definition report_rows_of (sym : string) (records : list LatencyRecord)
  : list (string * string * LatencyStats) :=
  flat_map
    (fun op =>
       match latencies_of op records with
       | [] => []
       | latencies => [(sym, op, stats_of latencies)]
       end)
    (unique_operations records []).

Definition entry_le (x y : string * list LatencyRecord) : Prop :=
  SharedBuffer.symbol_le (fst x) (fst y).

#[global] Instance entry_le_dec x y : Decision (entry_le x y).
Proof. unfold entry_le. apply _. Defined.

(** The latency table of [printReport], symbols in the order of the map. *)
Definition report_rows (m : t) : list (string * string * LatencyStats) :=
  flat_map (fun entry => report_rows_of (fst entry) (snd entry))
    (merge_sort entry_le (map_to_list (latency_records_ m))).

(** The effect of one call of the producer or of a consumer. *)
Definition apply_call (c : monitor_call) (m : t) : t :=
  match c with
  | RecordGeneration sym timestamp => recordGeneration sym timestamp m
  | RecordProcessing sym op generation_time processing_time =>
      recordProcessing sym op generation_time processing_time m
  end.

Definition apply_calls (calls : list monitor_call) (m : t) : t :=
  fold_left (fun m c => apply_call c m) calls m.

End PerformanceMonitor.

(** ** [start()], [stop()] and the destructor

    The same code in [PriceGenerator], [DisplayThread], [SMACalculator] and
    [VolatilityCalculator].  [thread_] is [Some id] while it owns a joinable
    thread; [spawned] counts the threads created so far.  Assigning to a
    joinable [std::thread] calls [std::terminate]: the result is [None].
    The calls come one after the other, as [main] makes them. *)

Module Worker.

Record t : Type := mk {
  running_ : bool;
  thread_ : option nat;
  spawned : nat
}.

(** The constructors: [running_(false)], no thread. *)
Definition init : t := mk false None 0.

(** [if (running_.compare_exchange_strong(expected = false, true))
      thread_ = std::thread(&run, this);] *)
Definition start (w : t) : option t :=
  if running_ w then Some w
  else
    match thread_ w with
    | Some _ => None
    | None => Some (mk true (Some (spawned w)) (S (spawned w)))
    end.

(** [if (running_.exchange(false)) if (thread_.joinable()) thread_.join();] *)
Definition stop (w : t) : t :=
  if running_ w then
    match thread_ w with
    | Some _ => mk false None (spawned w)
    | None => mk false (thread_ w) (spawned w)
    end
  else w.

Inductive call : Type := Start | Stop.

Definition exec (c : call) (w : t) : option t :=
  match c with
  | Start => start w
  | Stop => Some (stop w)
  end.

Fixpoint run (calls : list call) (w : t) : option t :=
  match calls with
  | [] => Some w
  | c :: calls' => w' ← exec c w; run calls' w'
  end.

End Worker.

(** ** The loops of the consumers, from [getSymbols] on

    One pass of the body of [while (running_.load())] after [waitForData]
    and the test of the flag.  The other threads go on while a consumer
    works: [others i] are the calls they complete on the buffer before the
    consumer's read for its [i]-th symbol, and [clock i] is the clock reading
    the consumer takes for that symbol.  What is written to the console is
    left out. *)

Module SMACalculatorRun.

Definition state : Type := SharedBuffer.t * list monitor_call.

(** [for (const auto& symbol : symbols)] *)
Fixpoint for_symbols (window_size_ : nat) (others : nat -> list SharedBuffer.Op)
  (clock : nat -> Z) (i : nat) (symbols : list string) (st : state)
  : option state :=
  match symbols with
  | [] => Some st
  | sym :: symbols' =>
      b ← SharedBuffer.run (others i) (fst st);
      r ← SMACalculator.process_symbol window_size_ sym (clock i) b;
      for_symbols window_size_ others clock (S i) symbols'
        (snd (fst r), snd st ++ snd r)
  end.

(** [auto symbols = buffer_.getSymbols();
     if (symbols.empty()) { sleep; continue; }] and the loop. *)
Definition round (window_size_ : nat) (others : nat -> list SharedBuffer.Op)
  (clock : nat -> Z) (b : SharedBuffer.t) : option state :=
  let '(symbols, b) := SharedBuffer.getSymbols b in
  match symbols with
  | [] => Some (b, [])
  | _ => for_symbols window_size_ others clock 0 symbols (b, [])
  end.

End SMACalculatorRun.

Module VolatilityCalculatorRun.

Definition state : Type := SharedBuffer.t * list monitor_call.

Fixpoint for_symbols (window_size_ : nat) (others : nat -> list SharedBuffer.Op)
  (clock : nat -> Z) (i : nat) (symbols : list string) (st : state)
  : option state :=
  match symbols with
  | [] => Some st
  | sym :: symbols' =>
      b ← SharedBuffer.run (others i) (fst st);
      r ← VolatilityCalculator.process_symbol window_size_ sym (clock i) b;
      for_symbols window_size_ others clock (S i) symbols'
        (snd (fst r), snd st ++ snd r)
  end.

Definition round (window_size_ : nat) (others : nat -> list SharedBuffer.Op)
  (clock : nat -> Z) (b : SharedBuffer.t) : option state :=
  let '(symbols, b) := SharedBuffer.getSymbols b in
  match symbols with
  | [] => Some (b, [])
  | _ => for_symbols window_size_ others clock 0 symbols (b, [])
  end.

End VolatilityCalculatorRun.

(** ** DisplayThread.h *)

Module DisplayThread.

Inductive indicator : Type := UP | DN.

(** What one symbol contributes to the line: the price, the direction and
    the change (the layout of the numbers is left out). *)
Record entry : Type := mkEntry {
  entry_symbol : string;
  entry_price : float;
  entry_indicator : indicator;
  entry_change : float
}.

Definition state : Type := SharedBuffer.t * list entry.

(** The body of [for (const auto& symbol : symbols)]: [PriceData data;]
    then [if (buffer_.getLatest(symbol, data))]. *)
Definition show (sym : string) (st : state) : option state :=
  match SharedBuffer.getLatest sym PriceData_default (fst st) with
  | Some (true, data, b) =>
      let direction := if (0 <=? change data)%float then UP else DN in
      Some (b, snd st ++ [mkEntry sym (price data) direction (change data)])
  | Some (false, _, b) => Some (b, snd st)
  | None => None
  end.

Fixpoint for_symbols (others : nat -> list SharedBuffer.Op) (i : nat)
  (symbols : list string) (st : state) : option state :=
  match symbols with
  | [] => Some st
  | sym :: symbols' =>
      b ← SharedBuffer.run (others i) (fst st);
      st' ← show sym (b, snd st);
      for_symbols others (S i) symbols' st'
  end.

(** One pass of the body of the loop of [run], from [getSymbols] on. *)
Definition round (others : nat -> list SharedBuffer.Op) (b : SharedBuffer.t)
  : option state :=
  let '(symbols, b) := SharedBuffer.getSymbols b in
  match symbols with
  | [] => Some (b, [])
  | _ => for_symbols others 0 symbols (b, [])
  end.

End DisplayThread.

(** ** main.cpp: the run time given on the command line *)

Module Main.

(** [isspace] in the "C" locale: space and the controls 9 to 13. *)
Definition isspace (c : Ascii.ascii) : bool :=
  let n := Ascii.nat_of_ascii c in
  Nat.eqb n 32 || (Nat.leb 9 n && Nat.leb n 13).

Definition digit (c : Ascii.ascii) : option Z :=
  let n := Ascii.nat_of_ascii c in
  if Nat.leb 48 n && Nat.leb n 57 then Some (Z.of_nat (n - 48)) else None.

Fixpoint skip_spaces (s : string) : string :=
  match s with
  | String c s' => if isspace c then skip_spaces s' else s
  | EmptyString => s
  end.

(** The value of the longest run of decimal digits at the head of [s],
    continuing from [acc]. *)
Fixpoint read_digits (s : string) (acc : Z) : Z :=
  match s with
  | String c s' =>
      match digit c with
      | Some d => read_digits s' (10 * acc + d)
      | None => acc
      end
  | EmptyString => acc
  end.

Inductive stoi_result : Type :=
  | Value (n : Z)
  | invalid_argument
  | out_of_range.

Definition minus_sign : Ascii.ascii := Ascii.ascii_of_nat 45.
Definition plus_sign : Ascii.ascii := Ascii.ascii_of_nat 43.

Definition INT_MIN : Z := - 2 ^ 31.
Definition INT_MAX : Z := 2 ^ 31 - 1.

(** [std::stoi(str)], base 10: white space, an optional sign, digits; what
    follows the digits is ignored.  No digit throws [invalid_argument], a
    value that does not fit [int] throws [out_of_range]. *)
Definition stoi (s : string) : stoi_result :=
  let s := skip_spaces s in
  let '(negative, s) :=
    match s with
    | String c s' =>
        if Ascii.eqb c minus_sign then (true, s')
        else if Ascii.eqb c plus_sign then (false, s')
        else (false, s)
    | EmptyString => (false, s)
    end in
  match s with
  | String c _ =>
      match digit c with
      | Some _ =>
          let v := read_digits s 0 in
          let v := if negative : bool then (- v)%Z else v in
          if (INT_MIN <=? v)%Z && (v <=? INT_MAX)%Z then Value v
          else out_of_range
      | None => invalid_argument
      end
  | EmptyString => invalid_argument
  end.

(** The value of [runtime_seconds] after the arguments are parsed;
    [argv] holds the program name first. *)
Definition runtime_seconds (argv : list string) : Z :=
  match argv with
  | _ :: arg :: _ =>
      match stoi arg with
      | Value n => if (n <? 5)%Z || (300 <? n)%Z then 30%Z else n
      | _ => 45%Z
      end
  | _ => 45%Z
  end.

End Main.

(** * Notions used in the further statements *)

(** The number of [recordGeneration] calls among the calls on the
    monitor. *)
Fixpoint generations (calls : list monitor_call) : nat :=
  match calls with
  | [] => 0
  | RecordGeneration _ _ :: calls' => S (generations calls')
  | _ :: calls' => generations calls'
  end.

(** The [recordProcessing] calls for [sym], in order, as the operation and
    the two time stamps. *)
Fixpoint processed (sym : string) (calls : list monitor_call)
  : list (string * Z * Z) :=
  match calls with
  | [] => []
  | RecordProcessing s op generation_time processing_time :: calls' =>
      if decide (s = sym)
      then (op, generation_time, processing_time) :: processed sym calls'
      else processed sym calls'
  | _ :: calls' => processed sym calls'
  end.

(** The number of [recordProcessing] calls among the calls. *)
Fixpoint calculations (calls : list monitor_call) : nat :=
  match calls with
  | [] => 0
  | RecordProcessing _ _ _ _ :: calls' => S (calculations calls')
  | _ :: calls' => calculations calls'
  end.

(** The latency [recordProcessing] stores: the whole microseconds between
    the two time stamps. *)
Definition latency_of (e : string * Z * Z) : float :=
  double_of_Z (Z.quot (snd e - snd (fst e)) 1000).

(** The latencies recorded for [sym] under operation [op]. *)
Definition latencies_for (sym op : string) (calls : list monitor_call)
  : list float :=
  latency_of <$> filter (fun e => fst (fst e) = op) (processed sym calls).

(** The call a thread is in the middle of, if any. *)
Definition in_flight (p : Threads.pc) : list Threads.call :=
  match p with
  | Threads.Idle => []
  | Threads.PushAppend data | Threads.PushTrim data
  | Threads.PushCount data | Threads.PushUnlock data => [Threads.Push data]
  | Threads.HistFind sym count | Threads.HistCopy sym count _ _
  | Threads.HistCount sym count _ | Threads.HistUnlock sym count _ =>
      [Threads.GetHistory sym count]
  end.

Definition op_of_call (c : Threads.call) : SharedBuffer.Op :=
  match c with
  | Threads.Push data => SharedBuffer.OPush data
  | Threads.GetHistory sym count => SharedBuffer.OGetHistory sym count
  end.

(** Every thread has completed a prefix of its program, the rest being the
    call it is in and the calls still to do, and its completed calls appear
    in the log in the order of its program. *)
Definition in_program_order (programs : list (list Threads.call))
  (c : Threads.config) : Prop :=
  length (Threads.threads c) = length programs /\
  forall t program, programs !! t = Some program ->
    exists th done,
      Threads.threads c !! t = Some th /\
      program = done ++ in_flight (Threads.at_pc th) ++ Threads.todo th /\
      (op_of_call <$> done) `sublist_of` Threads.log c.

(** A thread that has work left: a call in progress or calls to do. *)
Definition unfinished (th : Threads.thread) : Prop :=
  Threads.todo th <> [] \/ Threads.at_pc th <> Threads.Idle.

(** The latency [recordProcessing] computes from the two time stamps. *)
Definition stored_latency (e : string * Z * Z) : float :=
  double_of_Z (Z.quot (int64_sub (snd e) (snd (fst e))) 1000).

(** The record [recordProcessing] stores for an operation and two time
    stamps. *)
Definition record_of (e : string * Z * Z) : PerformanceMonitor.LatencyRecord :=
  PerformanceMonitor.mkLatencyRecord (snd (fst e)) (snd e) (fst (fst e))
    (stored_latency e).

(** Two time stamps whose difference fits a signed 64-bit count of
    nanoseconds (they are less than about 292 years apart). *)
Definition stamps_in_range (e : string * Z * Z) : Prop :=
  (- 2 ^ 63 <= snd e - snd (fst e) < 2 ^ 63)%Z.


(** The number of threads a sequence of [start()] and [stop()] calls
    creates, [running] telling whether a thread runs before the first
    call: a [start()] creates one only when none runs. *)
Fixpoint spawns (calls : list Worker.call) (running : bool) : nat :=
  match calls with
  | [] => 0
  | Worker.Start :: calls' =>
      (if running then 0 else 1) + spawns calls' true
  | Worker.Stop :: calls' => spawns calls' false
  end.

(** The calls completed on the buffer during one pass of a consumer over
    [symbols] with window size [count]: before each of its [getHistory]
    calls, the calls of the other threads. *)
Fixpoint consumer_ops (count : nat) (others : nat -> list SharedBuffer.Op)
  (i : nat) (symbols : list string) : list SharedBuffer.Op :=
  match symbols with
  | [] => []
  | sym :: symbols' =>
      others i ++
      SharedBuffer.OGetHistory sym count ::
      consumer_ops count others (S i) symbols'
  end.

(** The same for the display, which reads with [getLatest]. *)
Fixpoint display_ops (others : nat -> list SharedBuffer.Op) (i : nat)
  (symbols : list string) : list SharedBuffer.Op :=
  match symbols with
  | [] => []
  | sym :: symbols' =>
      others i ++
      SharedBuffer.OGetLatest sym PriceData_default ::
      display_ops others (S i) symbols'
  end.

(** [c] reports a calculation of kind [op] for [sym]. *)
Definition is_report (op : string) (c : monitor_call) (sym : string) : Prop :=
  exists generation_time processing_time,
    c = RecordProcessing sym op generation_time processing_time.

(** What a consumer with window size [count] that needs [min_len]
    observations reports for [sym] at time [now] on buffer [b]: nothing when
    the window is shorter, else one calculation stamped with the time of the
    newest observation. *)
Definition report_of (op : string) (min_len count : nat) (sym : string)
  (now : Z) (b : SharedBuffer.t) : list monitor_call :=
  let window :=
    lastn count (default [] (SharedBuffer.price_history_ b !! sym)) in
  match last window with
  | Some back =>
      if decide (length window < min_len) then []
      else [RecordProcessing sym op (timestamp back) now]
  | None => []
  end.

(** What the display shows for [sym] on buffer [b]: the newest observation
    of a history that is not empty. *)
Definition shown (sym : string) (b : SharedBuffer.t)
  : list DisplayThread.entry :=
  match SharedBuffer.price_history_ b !! sym ≫= last with
  | Some data =>
      [DisplayThread.mkEntry sym (price data)
         (if (0 <=? change data)%float
          then DisplayThread.UP else DisplayThread.DN)
         (change data)]
  | None => []
  end.

(** * Examples used below *)

(** Two generations and one calculation, 2.5 seconds after the start. *)
Definition three_calls : list monitor_call :=
  [RecordGeneration "X" 1000; RecordGeneration "Y" 2000;
   RecordProcessing "X" "SMA" 1000 2501999].

(** Three calculations for ["X"], two of them SMA, with latencies of 1.5,
    0.25 and 4 milliseconds. *)
Definition latency_calls : list monitor_call :=
  [RecordProcessing "X" "SMA" 0 1500999;
   RecordProcessing "X" "Volatility" 0 250000;
   RecordProcessing "X" "SMA" 1000000 5000000].

(** Three observations of "A" and one of "B". *)
Definition two_symbols : list Op :=
  [OPush (obs "A" 10 1); OPush (obs "B" 20 2); OPush (obs "A" 11 3);
   OPush (obs "A" 12 4)].

(** * Properties *)

Section Lastn.
Context {A : Type}.
Implicit Types l : list A.

Lemma lastn_length count l : length (lastn count l) = min count (length l).
Proof. unfold lastn. rewrite length_drop. lia. Qed.

Lemma lastn_all count l : length l <= count -> lastn count l = l.
Proof.
  intros H. unfold lastn.
  replace (length l - count) with 0 by lia. reflexivity.
Qed.

Lemma lastn_snoc count l x :
  lastn (S count) (l ++ [x]) = lastn count l ++ [x].
Proof.
  unfold lastn. rewrite length_app. simpl.
  replace (length l + 1 - S count) with (length l - count) by lia.
  rewrite drop_app_le by lia. reflexivity.
Qed.

Lemma lastn_lastn_snoc count l x :
  lastn count (lastn count l ++ [x]) = lastn count (l ++ [x]).
Proof.
  destruct count as [|count].
  - unfold lastn. rewrite !drop_ge; trivial; rewrite ?length_app; simpl; lia.
  - rewrite !lastn_snoc. f_equal.
    unfold lastn. rewrite length_drop, drop_drop. f_equal. lia.
Qed.

Lemma lastn_suffix count l : lastn count l `suffix_of` l.
Proof. apply suffix_drop. Qed.

Lemma tail_snoc_full count l x :
  length l = count -> count < length (l ++ [x]) ->
  tail (l ++ [x]) = lastn count (l ++ [x]).
Proof.
  intros Hl _. unfold lastn. rewrite length_app. simpl.
  replace (length l + 1 - count) with 1 by lia.
  destruct l; reflexivity.
Qed.

End Lastn.

(** ** The history of one key under [push] *)

Lemma push_history data b :
  price_history_ (push data b) !! symbol data =
  Some (appended (max_history_size_ b)
          (default [] (price_history_ b !! symbol data)) data).
Proof. unfold push, appended. simpl. apply lookup_insert_eq. Qed.

Lemma push_history_ne data b key :
  symbol data <> key ->
  price_history_ (push data b) !! key = price_history_ b !! key.
Proof. intros H. unfold push. simpl. apply lookup_insert_ne, H. Qed.

Lemma appended_lastn cap history data :
  length history <= cap ->
  appended cap history data = lastn cap (history ++ [data]).
Proof.
  intros H. unfold appended. case_decide as Hc.
  - rewrite length_app in Hc. simpl in Hc.
    apply tail_snoc_full; [lia | rewrite length_app; simpl; lia].
  - symmetry. apply lastn_all. lia.
Qed.

Lemma copy_loop_take history i n result :
  i + n <= length history ->
  copy_loop history i n result = Some (result ++ take n (drop i history)).
Proof.
  revert i result. induction n as [|n IH]; intros i result H; simpl.
  - rewrite take_0, app_nil_r. reflexivity.
  - destruct (lookup_lt_is_Some_2 history i) as [x Hx]; [lia|].
    rewrite Hx. simpl. rewrite IH by lia.
    rewrite (drop_S _ _ _ Hx). simpl. rewrite <- app_assoc. reflexivity.
Qed.

(** [getHistory] in closed form: the loop copies the [lastn count]
    elements of the stored history. *)
Lemma getHistory_eq sym count b :
  getHistory sym count b =
  Some match price_history_ b !! sym with
       | Some history =>
           (lastn count history,
            mk (price_history_ b) (max_history_size_ b) (shutdown_ b)
               (total_writes_ b) (size_incr (total_reads_ b)))
       | None => ([], b)
       end.
Proof.
  unfold getHistory. destruct (price_history_ b !! sym) as [h|]; [|reflexivity].
  rewrite copy_loop_take by (case_decide; lia). simpl. do 2 f_equal.
  unfold lastn. case_decide.
  - rewrite take_ge; [reflexivity | rewrite length_drop; lia].
  - replace (length h - count) with 0 by lia.
    rewrite take_ge; [reflexivity | rewrite length_drop; lia].
Qed.

(** [getLatest] in closed form. *)
Lemma getLatest_eq sym data b :
  getLatest sym data b =
  Some match price_history_ b !! sym ≫= last with
       | Some back =>
           (true, back,
            mk (price_history_ b) (max_history_size_ b) (shutdown_ b)
               (total_writes_ b) (size_incr (total_reads_ b)))
       | None => (false, data, b)
       end.
Proof.
  unfold getLatest. destruct (price_history_ b !! sym) as [h|]; [|reflexivity].
  simpl. destruct h as [|x h] using rev_ind; [reflexivity|].
  rewrite bool_decide_eq_false_2 by (intros E; destruct h; discriminate).
  simpl. rewrite last_snoc. reflexivity.
Qed.

(** No call of the buffer runs into undefined behaviour. *)
Lemma exec_total o b : is_Some (exec o b).
Proof.
  destruct o; simpl; eauto.
  - rewrite getLatest_eq. simpl. eauto.
  - rewrite getHistory_eq. simpl. eauto.
Qed.

Lemma run_app ops1 ops2 b :
  run (ops1 ++ ops2) b = run ops1 b ≫= run ops2.
Proof.
  revert b. induction ops1 as [|o ops1 IH]; intros b; simpl; [reflexivity|].
  destruct (exec o b) as [b'|]; simpl; [apply IH | reflexivity].
Qed.

Lemma run_total ops b : is_Some (run ops b).
Proof.
  revert b. induction ops as [|o ops IH]; intros b; simpl; [eauto|].
  destruct (exec_total o b) as [b' ->]. simpl. apply IH.
Qed.

Lemma pushed_app key ops1 ops2 :
  pushed key (ops1 ++ ops2) = pushed key ops1 ++ pushed key ops2.
Proof.
  induction ops1 as [|[d| | | | | |] ops1 IH]; simpl; trivial.
  case_decide; simpl; congruence.
Qed.

(** What each call does to the fields of the buffer. *)
Lemma exec_fields o b b' :
  exec o b = Some b' ->
  max_history_size_ b' = max_history_size_ b /\
  (forall key,
     price_history_ b' !! key =
     match pushed key [o] with
     | [] => price_history_ b !! key
     | data :: _ =>
         Some (appended (max_history_size_ b)
                 (default [] (price_history_ b !! key)) data)
     end).
Proof.
  destruct o; simpl.
  - intros [= <-]. split; [reflexivity|]. intros key.
    case_decide as Hk.
    + subst key. apply push_history.
    + apply push_history_ne, Hk.
  - rewrite getLatest_eq. simpl. intros [= <-].
    destruct (price_history_ b !! sym ≫= last); simpl; auto.
  - rewrite getHistory_eq. simpl. intros [= <-].
    destruct (price_history_ b !! sym); simpl; auto.
  - intros [= <-]. auto.
  - intros [= <-]. auto.
  - intros [= <-]. auto.
  - intros [= <-]. auto.
Qed.

(** The stored history of every key after any sequence of calls on a fresh
    buffer: nothing for a key never pushed, otherwise the [cap] most recent
    pushes of that key. *)
Lemma run_init_history cap ops b key :
  run ops (init cap) = Some b ->
  max_history_size_ b = cap /\
  price_history_ b !! key =
    match pushed key ops with
    | [] => None
    | _ => Some (lastn cap (pushed key ops))
    end.
Proof.
  revert b. induction ops as [|o ops IH] using rev_ind; intros b.
  - simpl. intros [= <-]. split; [reflexivity | apply lookup_empty].
  - rewrite run_app.
    destruct (run ops (init cap)) as [b0|] eqn:E0; [|discriminate].
    simpl. destruct (exec o b0) as [b1|] eqn:E1; [|discriminate].
    simpl. intros [= <-].
    destruct (IH b0 eq_refl) as [Hcap Hh].
    destruct (exec_fields _ _ _ E1) as [Hcap' Hh'].
    split; [congruence|].
    rewrite Hh', pushed_app, Hh, Hcap.
    destruct (pushed key [o]) as [|d l] eqn:Ep.
    + rewrite app_nil_r. reflexivity.
    + assert (l = []) as ->.
      { destruct o; simpl in Ep; try discriminate.
        case_decide; [injection Ep; auto | discriminate]. }
      destruct (pushed key ops) as [|d0 l0] eqn:Ep0; simpl default.
      * simpl app. rewrite appended_lastn by (simpl; lia). reflexivity.
      * rewrite appended_lastn by (rewrite lastn_length; lia).
        rewrite lastn_lastn_snoc.
        destruct ((d0 :: l0) ++ [d]) eqn:E; [destruct l0; discriminate|].
        reflexivity.
Qed.

Lemma lastn_lastn {A : Type} (n m : nat) (l : list A) :
  lastn n (lastn m l) = lastn (min n m) l.
Proof.
  unfold lastn. rewrite length_drop, drop_drop. f_equal. lia.
Qed.

Lemma run_init_stored cap ops b key :
  run ops (init cap) = Some b ->
  default [] (price_history_ b !! key) = lastn cap (pushed key ops).
Proof.
  intros H. destruct (run_init_history cap ops b key H) as [_ ->].
  destruct (pushed key ops); reflexivity.
Qed.

(** C1. On a buffer of capacity [N >= 1], after any sequence of calls (in
    particular after [M] pushes to one key, [pushed key ops] being the
    values pushed for it): the history stored for the key has at most [N]
    elements; a push onto a full history drops its oldest element and
    appends the new one, a push onto a shorter one only appends; when
    [M > N], [getHistory key N] returns exactly the last [N] pushed values in
    push order; for every [count], [getHistory key count] returns the
    [min count size] most recent values, oldest first, [size = min N M]
    being the current size; and it returns the empty vector, leaving the
    buffer as it is, when the key is unknown. *)
Theorem C1_bounded_fifo_window (N : nat) (key : string) (ops : list Op) :
  1 <= N ->
  exists b, run ops (init N) = Some b /\
    (forall h, price_history_ b !! key = Some h ->
               length h <= N /\ h = lastn N (pushed key ops)) /\
    (forall data, symbol data = key ->
       let h := default [] (price_history_ b !! key) in
       price_history_ (push data b) !! key =
         Some (if decide (length h = N) then tail h ++ [data]
               else h ++ [data])) /\
    (N < length (pushed key ops) ->
       fst <$> getHistory key N b = Some (lastn N (pushed key ops)) /\
       length (lastn N (pushed key ops)) = N) /\
    (forall count,
       let size := min N (length (pushed key ops)) in
       fst <$> getHistory key count b =
         Some (lastn (min count size) (pushed key ops)) /\
       length (lastn (min count size) (pushed key ops)) = min count size /\
       lastn (min count size) (pushed key ops) `suffix_of` pushed key ops) /\
    (price_history_ b !! key = None ->
       forall count, getHistory key count b = Some ([], b)).
Proof.
  intros HN. destruct (run_total ops (init N)) as [b Hb].
  exists b. split; [exact Hb|].
  pose proof (run_init_history N ops b key Hb) as [Hcap Hh].
  pose proof (run_init_stored N ops b key Hb) as Hs.
  assert (Hw : forall count,
    fst <$> getHistory key count b =
      Some (lastn (min count (min N (length (pushed key ops))))
              (pushed key ops))).
  { intros count. rewrite getHistory_eq. simpl.
    transitivity (Some (lastn count (default [] (price_history_ b !! key)))).
    - destruct (price_history_ b !! key); reflexivity.
    - rewrite Hs, lastn_lastn. f_equal. unfold lastn. f_equal. lia. }
  repeat split.
  - rewrite Hh in H. destruct (pushed key ops) eqn:E; [discriminate|].
    injection H as <-. rewrite lastn_length. lia.
  - rewrite Hh in H. destruct (pushed key ops) eqn:E; [discriminate|].
    injection H as <-. reflexivity.
  - intros data Hd h. subst key. rewrite push_history, Hcap. f_equal.
    fold h. unfold appended.
    assert (length h <= N) by (unfold h; rewrite Hs, lastn_length; lia).
    rewrite length_app. simpl.
    case_decide; case_decide; try lia; trivial.
    destruct h; [simpl in *; lia | reflexivity].
  - rewrite Hw. f_equal. unfold lastn. f_equal. lia.
  - rewrite lastn_length. lia.
  - apply Hw.
  - rewrite lastn_length. lia.
  - apply lastn_suffix.
  - intros Hnone count. rewrite getHistory_eq, Hnone. reflexivity.
Qed.

Lemma C1_witness :
  exists b, run scenario_X (init 2) = Some b /\
    (forall h, price_history_ b !! "X" = Some h ->
               length h <= 2 /\ h = lastn 2 (pushed "X" scenario_X)) /\
    (forall data, symbol data = "X" ->
       let h := default [] (price_history_ b !! "X") in
       price_history_ (push data b) !! "X" =
         Some (if decide (length h = 2) then tail h ++ [data]
               else h ++ [data])) /\
    (2 < length (pushed "X" scenario_X) ->
       fst <$> getHistory "X" 2 b = Some (lastn 2 (pushed "X" scenario_X)) /\
       length (lastn 2 (pushed "X" scenario_X)) = 2) /\
    (forall count,
       let size := min 2 (length (pushed "X" scenario_X)) in
       fst <$> getHistory "X" count b =
         Some (lastn (min count size) (pushed "X" scenario_X)) /\
       length (lastn (min count size) (pushed "X" scenario_X))
         = min count size /\
       lastn (min count size) (pushed "X" scenario_X)
         `suffix_of` pushed "X" scenario_X) /\
    (price_history_ b !! "X" = None ->
       forall count, getHistory "X" count b = Some ([], b)).
Proof. apply (C1_bounded_fifo_window 2 "X" scenario_X). lia. Defined.

(** The same scenario evaluated: the history holds [11, 12], [getLatest]
    gives 12 and [getHistory("X", 5)] gives [11, 12]. *)
Example scenario_X_evaluated :
  exists b, run scenario_X (init 2) = Some b /\
    map price (default [] (price_history_ b !! "X"))
      = [11%float; 12%float] /\
    option_map (fun r => (fst (fst r), price (snd (fst r))))
      (getLatest "X" PriceData_default b) = Some (true, 12%float) /\
    option_map (fun r => map price (fst r)) (getHistory "X" 5 b)
      = Some [11%float; 12%float].
Proof. eexists. split; [reflexivity|]. vm_compute. auto. Qed.

(** ** Counters, shutdown flag and the wake predicate along a run *)

Lemma size_incr_mod x n :
  (x = Z.of_nat n mod SIZE_MODULUS)%Z ->
  (size_incr x = Z.of_nat (S n) mod SIZE_MODULUS)%Z.
Proof.
  intros ->. unfold size_incr.
  rewrite Nat2Z.inj_succ, <- Z.add_1_r.
  rewrite Zplus_mod_idemp_l. reflexivity.
Qed.

Lemma exec_counters o b b' :
  exec o b = Some b' ->
  total_writes_ b' =
    (if is_push o then size_incr (total_writes_ b) else total_writes_ b) /\
  total_reads_ b' =
    (if successful_read o b then size_incr (total_reads_ b)
     else total_reads_ b) /\
  shutdown_ b' =
    (match o with OShutdown => true | _ => shutdown_ b end).
Proof.
  destruct o; simpl; try (intros [= <-]; auto).
  - rewrite getLatest_eq. simpl. intros [= <-].
    destruct (price_history_ b !! sym ≫= last); simpl; auto.
  - rewrite getHistory_eq. simpl. intros [= <-].
    destruct (price_history_ b !! sym) eqn:E; simpl; auto.
Qed.

(** The counters after a run, as [size_t] values. *)
Lemma run_counters ops b b' nw nr :
  run ops b = Some b' ->
  (total_writes_ b = Z.of_nat nw mod SIZE_MODULUS)%Z ->
  (total_reads_ b = Z.of_nat nr mod SIZE_MODULUS)%Z ->
  (total_writes_ b' = Z.of_nat (nw + pushes ops) mod SIZE_MODULUS)%Z /\
  (total_reads_ b' =
     Z.of_nat (nr + calls_where successful_read ops b) mod SIZE_MODULUS)%Z.
Proof.
  revert b nw nr. induction ops as [|o ops IH]; intros b nw nr; simpl.
  - intros [= <-] Hw Hr. rewrite !Nat.add_0_r. auto.
  - destruct (exec o b) as [b1|] eqn:E; [|discriminate]. simpl.
    intros Hrun Hw Hr.
    destruct (exec_counters _ _ _ E) as (Hw1 & Hr1 & _).
    destruct (is_push o); destruct (successful_read o b).
    + apply size_incr_mod in Hw, Hr. rewrite <- Hw1 in Hw. rewrite <- Hr1 in Hr.
      destruct (IH b1 (S nw) (S nr) Hrun Hw Hr) as [H1 H2].
      rewrite H1, H2. split; do 2 f_equal; lia.
    + apply size_incr_mod in Hw. rewrite <- Hw1 in Hw. rewrite <- Hr1 in Hr.
      destruct (IH b1 (S nw) nr Hrun Hw Hr) as [H1 H2].
      rewrite H1, H2. split; do 2 f_equal; lia.
    + apply size_incr_mod in Hr. rewrite <- Hw1 in Hw. rewrite <- Hr1 in Hr.
      destruct (IH b1 nw (S nr) Hrun Hw Hr) as [H1 H2].
      rewrite H1, H2. split; do 2 f_equal; lia.
    + rewrite <- Hw1 in Hw. rewrite <- Hr1 in Hr.
      destruct (IH b1 nw nr Hrun Hw Hr) as [H1 H2].
      rewrite H1, H2. split; do 2 f_equal; lia.
Qed.

Lemma run_init_counters cap ops b :
  run ops (init cap) = Some b ->
  (total_writes_ b = Z.of_nat (pushes ops) mod SIZE_MODULUS)%Z /\
  (total_reads_ b =
     Z.of_nat (calls_where successful_read ops (init cap))
       mod SIZE_MODULUS)%Z.
Proof.
  intros H. apply (run_counters ops (init cap) b 0 0 H); reflexivity.
Qed.

(** Once set, the shutdown flag stays set. *)
Lemma run_shutdown_stays ops b b' :
  run ops b = Some b' -> shutdown_ b = true -> shutdown_ b' = true.
Proof.
  revert b. induction ops as [|o ops IH]; intros b; simpl.
  - intros [= <-]. auto.
  - destruct (exec o b) as [b1|] eqn:E; [|discriminate]. simpl.
    intros Hrun Hs. apply (IH b1 Hrun).
    destruct (exec_counters _ _ _ E) as (_ & _ & ->). destruct o; auto.
Qed.

Lemma run_shutdown_called ops b b' :
  run ops b = Some b' -> In OShutdown ops -> shutdown_ b' = true.
Proof.
  revert b. induction ops as [|o ops IH]; intros b; simpl; [tauto|].
  destruct (exec o b) as [b1|] eqn:E; [|discriminate]. simpl.
  intros Hrun [->|Hin].
  - apply (run_shutdown_stays _ _ _ Hrun). injection E as <-. reflexivity.
  - apply (IH b1 Hrun Hin).
Qed.

(** A call of [waitForData] whose predicate holds at entry returns [true]
    without blocking, whatever the timeout and whatever the other threads
    would do. *)
Lemma waitForData_immediate timeout_ms env b :
  wake_predicate b = true ->
  waitForData timeout_ms env b = Some (true, 0, b).
Proof.
  intros H. unfold waitForData. destruct env; simpl; rewrite H; reflexivity.
Qed.

Lemma pushes_app ops1 ops2 : pushes (ops1 ++ ops2) = pushes ops1 + pushes ops2.
Proof. induction ops1 as [|o ops1 IH]; simpl; lia. Qed.

Lemma wake_predicate_spec s :
  wake_predicate s = true <->
  shutdown_ s = true \/ (total_writes_ s > 0)%Z.
Proof.
  unfold wake_predicate. rewrite orb_true_iff, bool_decide_eq_true. tauto.
Qed.

(** C2. The predicate [waitForData] waits for is exactly
    [shutdown_ || total_writes_ > 0].  In every state reached from a fresh
    buffer by calls of which at least one is a [push] (and fewer than [2^64]
    are, the range of the [size_t] counter), [total_writes_] is the number of
    pushes, it is at least what it was after any earlier part of the run, the
    predicate holds, and every call of [waitForData] returns [true] at once,
    without blocking and without a new push, whatever the timeout and
    whatever the other threads do meanwhile. *)
Theorem C2_wake_predicate_latches (cap : nat) (ops : list Op) :
  1 <= pushes ops ->
  (Z.of_nat (pushes ops) < SIZE_MODULUS)%Z ->
  exists b, run ops (init cap) = Some b /\
    (forall s, wake_predicate s = true <->
               shutdown_ s = true \/ (total_writes_ s > 0)%Z) /\
    total_writes_ b = Z.of_nat (pushes ops) /\
    (forall ops1 ops2 b1, ops = ops1 ++ ops2 ->
       run ops1 (init cap) = Some b1 ->
       (total_writes_ b1 <= total_writes_ b)%Z) /\
    wake_predicate b = true /\
    (forall timeout_ms env,
       waitForData timeout_ms env b = Some (true, 0, b)).
Proof.
  intros H1 Hlt. destruct (run_total ops (init cap)) as [b Hb].
  exists b. split; [exact Hb|].
  destruct (run_init_counters cap ops b Hb) as [Hw _].
  rewrite Z.mod_small in Hw by lia.
  assert (Hp : wake_predicate b = true).
  { apply wake_predicate_spec. right. lia. }
  split; [exact wake_predicate_spec|].
  split; [exact Hw|]. split; [|split; [exact Hp|]].
  - intros ops1 ops2 b1 -> Hb1.
    destruct (run_init_counters cap ops1 b1 Hb1) as [Hw1 _].
    rewrite pushes_app in *. rewrite Z.mod_small in Hw1 by lia. lia.
  - intros timeout_ms env. apply waitForData_immediate, Hp.
Qed.

Lemma C2_witness :
  exists b, run scenario_X (init 2) = Some b /\
    (forall s, wake_predicate s = true <->
               shutdown_ s = true \/ (total_writes_ s > 0)%Z) /\
    total_writes_ b = Z.of_nat (pushes scenario_X) /\
    (forall ops1 ops2 b1, scenario_X = ops1 ++ ops2 ->
       run ops1 (init 2) = Some b1 ->
       (total_writes_ b1 <= total_writes_ b)%Z) /\
    wake_predicate b = true /\
    (forall timeout_ms env,
       waitForData timeout_ms env b = Some (true, 0, b)).
Proof.
  apply (C2_wake_predicate_latches 2 scenario_X).
  - simpl. lia.
  - reflexivity.
Defined.

(** The counters are [size_t]: at [2^64 - 1] the increment wraps to 0, which
    is why the statements on the counters carry that range. *)
Example size_incr_wraps : size_incr (SIZE_MODULUS - 1) = 0%Z.
Proof. reflexivity. Qed.

(** On a fresh buffer nothing has been written: the predicate is false and a
    call with nothing happening times out with [false], after blocking. *)
Example waitForData_fresh_times_out :
  waitForData 1000 [] fresh_buffer = Some (false, 1, fresh_buffer).
Proof. reflexivity. Qed.

Lemma iter_shutdown n b : 1 <= n -> Nat.iter n shutdown b = shutdown b.
Proof.
  induction n as [|[|n] IH]; [lia | reflexivity |].
  intros _. change (shutdown (Nat.iter (S n) shutdown b) = shutdown b).
  rewrite IH by lia. reflexivity.
Qed.

Lemma cv_step_shutdown e c c' :
  CondVar.step e c = Some c' ->
  shutdown_ (CondVar.buffer c) = true ->
  shutdown_ (CondVar.buffer c') = true.
Proof.
  destruct e as [o| |timeout_ms|w|w|ms]; cbn [CondVar.step].
  - destruct (exec o (CondVar.buffer c)) as [b1|] eqn:E; [|discriminate].
    cbn. intros [= <-] Hs. cbn.
    destruct (exec_counters _ _ _ E) as (_ & _ & ->). destruct o; auto.
  - intros [= <-]. auto.
  - intros [= <-]. auto.
  - destruct (CondVar.waiters c !! w) as [[]|]; try discriminate.
    intros [= <-]. auto.
  - destruct (CondVar.waiters c !! w) as [[]|]; try discriminate.
    intros [= <-]. auto.
  - case_decide; [|discriminate]. intros [= <-]. auto.
Qed.

(** With the flag set, a thread that gets the mutex back returns [true],
    whatever its deadline and the clock. *)
Lemma cv_reacquire_returns c w deadline :
  shutdown_ (CondVar.buffer c) = true ->
  CondVar.waiters c !! w = Some (CondVar.Woken deadline) ->
  CondVar.step (CondVar.Reacquire w) c =
  Some (CondVar.mkConfig (CondVar.buffer c) (CondVar.clock c)
          (<[w := CondVar.Returned true]> (CondVar.waiters c))).
Proof.
  intros Hs Hw. cbn [CondVar.step]. rewrite Hw.
  assert (Hp : wake_predicate (CondVar.buffer c) = true)
    by (apply wake_predicate_spec; auto).
  rewrite Hp. destruct (bool_decide _); reflexivity.
Qed.

Lemma cv_enter_returns c timeout_ms :
  shutdown_ (CondVar.buffer c) = true ->
  CondVar.step (CondVar.Enter timeout_ms) c =
  Some (CondVar.mkConfig (CondVar.buffer c) (CondVar.clock c)
          (CondVar.waiters c ++ [CondVar.Returned true])).
Proof.
  intros Hs. cbn [CondVar.step].
  assert (Hp : wake_predicate (CondVar.buffer c) = true)
    by (apply wake_predicate_spec; auto).
  rewrite Hp. reflexivity.
Qed.

Lemma cv_step_flag_set ws e c c' :
  CondVar.step e c = Some c' -> flag_set_since ws c -> flag_set_since ws c'.
Proof.
  intros Hstep (Hs & Hlen & Hret).
  split; [exact (cv_step_shutdown _ _ _ Hstep Hs)|].
  destruct e as [o| |timeout_ms|w|w|ms].
  - cbn [CondVar.step] in Hstep.
    destruct (exec o (CondVar.buffer c)); [|discriminate].
    injection Hstep as <-. auto.
  - injection Hstep as <-. cbn. unfold CondVar.notify_all.
    rewrite length_fmap. split; [exact Hlen|].
    intros w result. rewrite list_lookup_fmap.
    destruct (CondVar.waiters c !! w) as [[]|] eqn:E; try discriminate.
    intros [= <-]. apply Hret, E.
  - rewrite cv_enter_returns in Hstep by exact Hs. injection Hstep as <-.
    cbn. rewrite length_app. split; [lia|].
    intros w result. rewrite lookup_snoc_Some.
    intros [[_ H]|[_ [= <-]]]; [apply Hret, H | auto].
  - cbn [CondVar.step] in Hstep.
    destruct (CondVar.waiters c !! w) as [[d|d|r]|]; try discriminate.
    injection Hstep as <-. cbn. rewrite length_insert.
    split; [exact Hlen|]. intros w' result. rewrite list_lookup_insert_Some.
    intros [(_ & [=] & _)|[_ H]]. apply Hret, H.
  - destruct (CondVar.waiters c !! w) as [[d|d|r]|] eqn:E;
      try (cbn [CondVar.step] in Hstep; rewrite E in Hstep; discriminate).
    rewrite (cv_reacquire_returns c w d Hs E) in Hstep.
    injection Hstep as <-. cbn. rewrite length_insert.
    split; [exact Hlen|]. intros w' result. rewrite list_lookup_insert_Some.
    intros [(_ & [= <-] & _)|[_ H]]; [auto | apply Hret, H].
  - cbn [CondVar.step] in Hstep. case_decide; [|discriminate].
    injection Hstep as <-. auto.
Qed.

Lemma cv_step_none_blocked e c c' :
  CondVar.step e c = Some c' ->
  shutdown_ (CondVar.buffer c) = true ->
  none_blocked c -> none_blocked c'.
Proof.
  intros Hstep Hs Hnb. destruct e as [o| |timeout_ms|w|w|ms].
  - cbn [CondVar.step] in Hstep.
    destruct (exec o (CondVar.buffer c)); [|discriminate].
    injection Hstep as <-. exact Hnb.
  - injection Hstep as <-. intros w d. cbn. unfold CondVar.notify_all.
    rewrite list_lookup_fmap.
    destruct (CondVar.waiters c !! w) as [[]|]; discriminate.
  - rewrite cv_enter_returns in Hstep by exact Hs. injection Hstep as <-.
    intros w d. cbn. rewrite lookup_snoc_Some.
    intros [[_ H]|[_ [=]]]. exact (Hnb _ _ H).
  - cbn [CondVar.step] in Hstep.
    destruct (CondVar.waiters c !! w) as [[d|d|r]|] eqn:E; try discriminate.
    destruct (Hnb _ _ E).
  - destruct (CondVar.waiters c !! w) as [[d|d|r]|] eqn:E;
      try (cbn [CondVar.step] in Hstep; rewrite E in Hstep; discriminate).
    rewrite (cv_reacquire_returns c w d Hs E) in Hstep.
    injection Hstep as <-. intros w' d'. cbn.
    rewrite list_lookup_insert_Some.
    intros [(_ & [=] & _)|[_ H]]. exact (Hnb _ _ H).
  - cbn [CondVar.step] in Hstep. case_decide; [|discriminate].
    injection Hstep as <-. exact Hnb.
Qed.

Lemma cv_run_flag_set ws events c :
  flag_set_since ws c -> flag_set_since ws (CondVar.run events c).
Proof.
  revert c. induction events as [|e events IH]; intros c H; [exact H|].
  cbn [CondVar.run]. apply IH.
  destruct (CondVar.step e c) as [c'|] eqn:E; [|exact H].
  exact (cv_step_flag_set _ _ _ _ E H).
Qed.

Lemma cv_run_none_blocked events c :
  shutdown_ (CondVar.buffer c) = true ->
  none_blocked c -> none_blocked (CondVar.run events c).
Proof.
  revert c. induction events as [|e events IH]; intros c Hs H; [exact H|].
  cbn [CondVar.run].
  destruct (CondVar.step e c) as [c'|] eqn:E; [|exact (IH c Hs H)].
  apply IH; [exact (cv_step_shutdown _ _ _ E Hs)|].
  exact (cv_step_none_blocked _ _ _ E Hs H).
Qed.

Lemma cv_run_app events1 events2 c :
  CondVar.run (events1 ++ events2) c
  = CondVar.run events2 (CondVar.run events1 c).
Proof.
  revert c. induction events1 as [|e events1 IH]; intros c; [reflexivity|].
  cbn [CondVar.run app]. apply IH.
Qed.

(** After the two steps of [shutdown], and whatever the other threads do
    between and after them, no thread is blocked in [waitForData]. *)
Lemma cv_shutdown_wakes b now ws between after :
  let c := CondVar.run (CondVar.shutdown between ++ after)
             (CondVar.mkConfig b now ws) in
  flag_set_since ws c /\ none_blocked c.
Proof.
  cbv zeta. unfold CondVar.shutdown.
  change (CondVar.run ((?e :: ?l) ++ after) ?c)
    with (CondVar.run (l ++ after) (default c (CondVar.step e c))).
  cbn [CondVar.step exec mbind option_bind default from_option id
       CondVar.buffer CondVar.clock CondVar.waiters].
  rewrite <- app_assoc, !cv_run_app. cbn [CondVar.run app].
  set (c0 := CondVar.mkConfig (shutdown b) now ws).
  assert (H0 : flag_set_since ws c0).
  { split; [reflexivity|]. split; [reflexivity|]. auto. }
  pose proof (cv_run_flag_set ws between c0 H0) as H1.
  set (c1 := CondVar.run between c0) in *.
  cbn [CondVar.step default from_option id].
  set (c2 := CondVar.mkConfig (CondVar.buffer c1) (CondVar.clock c1)
               (CondVar.notify_all (CondVar.waiters c1))).
  assert (E2 : CondVar.step CondVar.NotifyAll c1 = Some c2) by reflexivity.
  pose proof (cv_step_flag_set ws _ _ _ E2 H1) as H2.
  assert (Hnb : none_blocked c2).
  { intros w d. cbn. unfold CondVar.notify_all. rewrite list_lookup_fmap.
    destruct (CondVar.waiters c1 !! w) as [[]|]; discriminate. }
  split; [apply cv_run_flag_set, H2|].
  apply cv_run_none_blocked; [apply H2 | exact Hnb].
Qed.

(** C3. [shutdown] is idempotent: any number [n >= 1] of calls leaves the
    buffer as one call does, with the flag set.  It changes no other field.
    After it, whatever calls follow, every call of [waitForData] finds its
    predicate true at entry and returns [true] without blocking, for every
    timeout.  And [shutdown] wakes the callers that are blocked in
    [waitForData]: once it has set the flag and called [notify_all],
    whatever the other threads do between the two and afterwards, no thread
    is blocked on the condition variable any more; every thread that is
    still in [waitForData] returns [true] as soon as it gets the mutex
    back, whatever its timeout and the time passed; every thread that has
    returned since has returned [true]; and a new call returns [true] at
    once. *)
Theorem C3_shutdown_idempotent_wakes (b : t) :
  (forall n, 1 <= n -> Nat.iter n shutdown b = shutdown b) /\
  shutdown_ (shutdown b) = true /\
  (price_history_ (shutdown b) = price_history_ b /\
   max_history_size_ (shutdown b) = max_history_size_ b /\
   total_writes_ (shutdown b) = total_writes_ b /\
   total_reads_ (shutdown b) = total_reads_ b) /\
  (forall ops, exists b',
     run ops (shutdown b) = Some b' /\
     forall timeout_ms env,
       waitForData timeout_ms env b' = Some (true, 0, b')) /\
  (forall now ws between after,
     let c := CondVar.run (CondVar.shutdown between ++ after)
                (CondVar.mkConfig b now ws) in
     shutdown_ (CondVar.buffer c) = true /\
     length ws <= length (CondVar.waiters c) /\
     (forall w state, CondVar.waiters c !! w = Some state ->
        match state with
        | CondVar.Blocked _ => False
        | CondVar.Woken _ =>
            exists c', CondVar.step (CondVar.Reacquire w) c = Some c' /\
              CondVar.waiters c' !! w = Some (CondVar.Returned true)
        | CondVar.Returned result =>
            result = true \/ ws !! w = Some (CondVar.Returned result)
        end) /\
     (forall timeout_ms, exists c',
        CondVar.step (CondVar.Enter timeout_ms) c = Some c' /\
        CondVar.waiters c' =
          CondVar.waiters c ++ [CondVar.Returned true])).
Proof.
  split; [intros n Hn; apply iter_shutdown, Hn|].
  split; [reflexivity|]. split; [repeat split|]. split.
  - intros ops. destruct (run_total ops (shutdown b)) as [b' Hb'].
    exists b'. split; [exact Hb'|]. intros timeout_ms env.
    apply waitForData_immediate, wake_predicate_spec. left.
    apply (run_shutdown_stays _ _ _ Hb'). reflexivity.
  - intros now ws between after c.
    destruct (cv_shutdown_wakes b now ws between after)
      as [(Hs & Hlen & Hret) Hnb].
    fold c in Hs, Hlen, Hret, Hnb.
    split; [exact Hs|]. split; [exact Hlen|]. split.
    + intros w [d|d|r] Hw.
      * exact (Hnb _ _ Hw).
      * eexists. split; [apply (cv_reacquire_returns c w d Hs Hw)|].
        cbn. apply list_lookup_insert_eq. apply (lookup_lt_Some _ _ _ Hw).
      * apply Hret, Hw.
    + intros timeout_ms. eexists.
      split; [apply cv_enter_returns, Hs | reflexivity].
Qed.

Lemma C3_witness :
  Nat.iter 3 shutdown fresh_buffer = shutdown fresh_buffer /\
  exists c',
    CondVar.step (CondVar.Reacquire 0)
      (CondVar.run (CondVar.shutdown [CondVar.Tick 5] ++ [])
         blocked_for_an_hour) = Some c' /\
    CondVar.waiters c' !! 0 = Some (CondVar.Returned true).
Proof.
  destruct (C3_shutdown_idempotent_wakes fresh_buffer)
    as (H1 & _ & _ & _ & H5).
  split; [apply H1; lia|].
  destruct (H5 0%Z [CondVar.Blocked 3600000] [CondVar.Tick 5] [])
    as (_ & _ & Hw & _).
  exact (Hw 0 (CondVar.Woken 3600000) eq_refl).
Defined.

(** The notification is what wakes the blocked thread: after the critical
    section of [shutdown] alone it is still blocked and cannot take the
    mutex, after the notification it returns [true] at its next step, five
    milliseconds into its hour. *)
Example blocked_until_notified :
  CondVar.waiters
    (CondVar.run [CondVar.Locked OShutdown; CondVar.Tick 5;
                  CondVar.Reacquire 0] blocked_for_an_hour)
  = [CondVar.Blocked 3600000] /\
  CondVar.waiters
    (CondVar.run (CondVar.shutdown [CondVar.Tick 5] ++ [CondVar.Reacquire 0])
       blocked_for_an_hour)
  = [CondVar.Returned true].
Proof. split; reflexivity. Qed.

(** Without [shutdown] or a push the same thread times out with [false]. *)
Example blocked_times_out :
  CondVar.waiters
    (CondVar.run [CondVar.Tick 3600000; CondVar.Unblock 0;
                  CondVar.Reacquire 0] blocked_for_an_hour)
  = [CondVar.Returned false].
Proof. reflexivity. Qed.

Lemma last_lastn {A : Type} (n : nat) (l : list A) :
  1 <= n -> last (lastn n l) = last l.
Proof.
  intros Hn. destruct l as [|x l] using rev_ind; [reflexivity|].
  destruct n as [|n]; [lia|].
  rewrite lastn_snoc, !last_snoc. reflexivity.
Qed.

(** C4. [getLatest] never runs into undefined behaviour and reports absence
    through its boolean result only: it returns [false], with the output
    parameter and the whole buffer as they were, exactly when the key is not
    in the map or its history is empty; otherwise it returns [true] with the
    back of the history, which after any run from a fresh buffer is the value
    most recently pushed for that key; the only field it then changes is the
    read counter.  [getHistory] on an unknown key returns the empty vector,
    and no read of the buffer fails. *)
Theorem C4_getLatest_absence (sym : string) (data : PriceData) (b : t) :
  (exists found out b',
     getLatest sym data b = Some (found, out, b') /\
     (found = false <->
        price_history_ b !! sym = None \/ price_history_ b !! sym = Some []) /\
     (found = false -> out = data /\ b' = b) /\
     (found = true ->
        (exists h, price_history_ b !! sym = Some h /\ last h = Some out) /\
        price_history_ b' = price_history_ b /\
        max_history_size_ b' = max_history_size_ b /\
        shutdown_ b' = shutdown_ b /\
        total_writes_ b' = total_writes_ b) /\
     (forall cap ops, run ops (init cap) = Some b -> found = true ->
        last (pushed sym ops) = Some out)) /\
  (forall count, is_Some (getHistory sym count b)) /\
  (price_history_ b !! sym = None ->
     forall count, getHistory sym count b = Some ([], b)) /\
  (forall o, is_Some (exec o b)).
Proof.
  split; [|split; [|split]].
  - rewrite getLatest_eq.
    destruct (price_history_ b !! sym) as [h|] eqn:Eh; simpl.
    + destruct (last h) as [x|] eqn:El.
      * eexists true, x, _. split; [reflexivity|].
        split; [|split; [discriminate|split]].
        -- split; [discriminate|]. intros [?|[= ->]]; discriminate.
        -- intros _. split; [exists h; auto|]. simpl. auto.
        -- intros cap ops Hrun _.
           destruct (run_init_history cap ops b sym Hrun) as [_ Hh].
           rewrite Eh in Hh. destruct (pushed sym ops) eqn:Ep; [discriminate|].
           injection Hh as ->.
           destruct cap as [|cap].
           { unfold lastn in El. rewrite Nat.sub_0_r, drop_all in El.
             discriminate El. }
           rewrite last_lastn in El by lia. exact El.
      * exists false, data, b. split; [reflexivity|].
        apply last_None in El. subst h.
        split; [tauto|]. split; [tauto|]. split; discriminate.
    + exists false, data, b. split; [reflexivity|].
      split; [tauto|]. split; [tauto|]. split; discriminate.
  - intros count. rewrite getHistory_eq. eauto.
  - intros Hn count. rewrite getHistory_eq, Hn. reflexivity.
  - intros o. apply exec_total.
Qed.

Lemma C4_witness :
  exists out b',
    getLatest "X" PriceData_default scenario_X_buffer
      = Some (true, out, b') /\
    last (pushed "X" scenario_X) = Some out /\
    price out = 12%float.
Proof.
  destruct (C4_getLatest_absence "X" PriceData_default scenario_X_buffer)
    as ((found & out & b' & Hget & _ & _ & _ & Hlast) & _).
  assert (Hfound : found = true) by (vm_compute in Hget; congruence).
  subst found. exists out, b'. split; [exact Hget|].
  assert (Hout : last (pushed "X" scenario_X) = Some out).
  { apply (Hlast 2 scenario_X); reflexivity. }
  split; [exact Hout|].
  vm_compute in Hout. injection Hout as <-. reflexivity.
Defined.

(** The calls the two readings of "a read that found its key" count differ
    only for [getLatest] on a key whose history is empty, which needs a
    buffer of capacity 0. *)
Lemma run_nonempty_histories cap ops b key h :
  1 <= cap -> run ops (init cap) = Some b ->
  price_history_ b !! key = Some h -> h <> [].
Proof.
  intros Hcap Hrun Hh.
  destruct (run_init_history cap ops b key Hrun) as [_ Hk].
  rewrite Hh in Hk. destruct (pushed key ops) as [|d l] eqn:Ep; [discriminate|].
  injection Hk as ->. intros E.
  apply (f_equal length) in E. rewrite lastn_length in E. simpl in E. lia.
Qed.

Lemma calls_where_app P ops1 ops2 b b1 :
  run ops1 b = Some b1 ->
  calls_where P (ops1 ++ ops2) b =
  calls_where P ops1 b + calls_where P ops2 b1.
Proof.
  revert b. induction ops1 as [|o ops1 IH]; intros b; simpl.
  - intros [= <-]. reflexivity.
  - destruct (exec o b) as [b0|]; [|discriminate]. simpl.
    intros H. rewrite (IH b0 H). lia.
Qed.

Lemma successful_read_known cap ops b o :
  1 <= cap -> run ops (init cap) = Some b ->
  successful_read o b = read_of_known_key o b.
Proof.
  intros Hcap Hrun. destruct o; simpl; trivial.
  rewrite getLatest_eq.
  destruct (price_history_ b !! sym) as [h|] eqn:Eh; simpl; [|reflexivity].
  destruct (last h) eqn:El; [reflexivity|].
  apply last_None in El. subst h.
  destruct (run_nonempty_histories cap ops b sym [] Hcap Hrun Eh). reflexivity.
Qed.

Lemma calls_where_known cap ops :
  1 <= cap ->
  calls_where successful_read ops (init cap) =
  calls_where read_of_known_key ops (init cap).
Proof.
  intros Hcap. induction ops as [|o ops IH] using rev_ind; [reflexivity|].
  destruct (run_total ops (init cap)) as [b Hb].
  rewrite !(calls_where_app _ _ _ _ _ Hb), IH. f_equal. simpl.
  rewrite (successful_read_known cap ops b o Hcap Hb). reflexivity.
Qed.

(** C5, as stated, fails on a buffer of capacity 0: after one push of key
    ["X"], [getLatest("X")] finds the key in the map (with an empty history),
    so one read call found an existing key, and [getStats] reports 0 reads. *)
Lemma C5_counterexample :
  exists b, run empty_history_read (init 0) = Some b /\
    price_history_ b !! "X" = Some [] /\
    calls_where read_of_known_key empty_history_read (init 0) = 1 /\
    snd (fst (getStats b)) = 0%Z /\
    snd (fst (getStats b)) <>
      Z.of_nat (calls_where read_of_known_key empty_history_read (init 0)).
Proof.
  eexists. split; [reflexivity|]. vm_compute. repeat split; discriminate.
Qed.

(** C5, amended. After any sequence of calls on a fresh buffer, [getStats]
    reports as writes the number of completed [push] calls and as reads the
    number of [getLatest] calls that returned [true] plus the number of
    [getHistory] calls whose key was in the map, both as [size_t] values
    (exactly while fewer than [2^64]); on a buffer of capacity at least 1
    these reads are exactly the [getLatest] and [getHistory] calls that found
    an existing key.  Calls on unknown keys leave the buffer, hence the read
    counter, unchanged, and no other call changes either counter. *)
Theorem C5_stats_counters (cap : nat) (ops : list Op) :
  exists b, run ops (init cap) = Some b /\
    let nw := pushes ops in
    let nr := calls_where successful_read ops (init cap) in
    let writes := fst (fst (getStats b)) in
    let reads := snd (fst (getStats b)) in
    writes = (Z.of_nat nw mod SIZE_MODULUS)%Z /\
    reads = (Z.of_nat nr mod SIZE_MODULUS)%Z /\
    ((Z.of_nat nw < SIZE_MODULUS)%Z -> writes = Z.of_nat nw) /\
    ((Z.of_nat nr < SIZE_MODULUS)%Z -> reads = Z.of_nat nr) /\
    (1 <= cap -> nr = calls_where read_of_known_key ops (init cap)) /\
    (forall sym, price_history_ b !! sym = None ->
       (forall data, getLatest sym data b = Some (false, data, b)) /\
       (forall count, getHistory sym count b = Some ([], b))) /\
    (forall o b', exec o b = Some b' ->
       (is_push o = false -> total_writes_ b' = total_writes_ b) /\
       (successful_read o b = false -> total_reads_ b' = total_reads_ b)) /\
    (forall timeout_ms, exists signaled waits,
       waitForData timeout_ms [] b = Some (signaled, waits, b)).
Proof.
  destruct (run_total ops (init cap)) as [b Hb].
  exists b. split; [exact Hb|]. simpl.
  destruct (run_init_counters cap ops b Hb) as [Hw Hr].
  split; [exact Hw|]. split; [exact Hr|].
  split; [intros H; rewrite Hw; apply Z.mod_small; lia|].
  split; [intros H; rewrite Hr; apply Z.mod_small; lia|].
  split; [apply calls_where_known|].
  split; [|split].
  - intros sym Hn. split.
    + intros data. rewrite getLatest_eq, Hn. reflexivity.
    + intros count. rewrite getHistory_eq, Hn. reflexivity.
  - intros o b' He. destruct (exec_counters _ _ _ He) as (H1 & H2 & _).
    split; intros E; rewrite E in *; assumption.
  - intros timeout_ms. unfold waitForData. simpl.
    destruct (wake_predicate b); eauto.
Qed.

Lemma C5_witness :
  exists b, run reads_X (init 2) = Some b /\
    fst (fst (getStats b)) = 1%Z /\ snd (fst (getStats b)) = 2%Z /\
    calls_where read_of_known_key reads_X (init 2) = 2.
Proof.
  destruct (C5_stats_counters 2 reads_X)
    as (b & Hb & _ & _ & Hw & Hr & Hk & _).
  exists b. split; [exact Hb|].
  split; [apply Hw; reflexivity|].
  split; [apply Hr; reflexivity|].
  rewrite <- Hk by lia. reflexivity.
Defined.

Lemma getSymbols_elem key b :
  key ∈ fst (getSymbols b) <-> is_Some (price_history_ b !! key).
Proof.
  unfold getSymbols. simpl. rewrite merge_sort_Permutation.
  rewrite list_elem_of_fmap. split.
  - intros [[k h] [-> Hin]]. apply elem_of_map_to_list in Hin. simpl. eauto.
  - intros [h Hh]. exists (key, h). split; [reflexivity|].
    apply elem_of_map_to_list, Hh.
Qed.

Lemma getSymbols_NoDup b : NoDup (fst (getSymbols b)).
Proof.
  unfold getSymbols. simpl. rewrite merge_sort_Permutation.
  apply NoDup_fst_map_to_list.
Qed.

(** C10. On a buffer of capacity at least 1, after any sequence of calls
    every key of the map has a non-empty history; [getLatest] returns [true]
    exactly for the keys [getSymbols] lists; and [getSymbols] lists each
    pushed key, and nothing else, exactly once. *)
Theorem C10_symbols_agree_with_latest (cap : nat) (ops : list Op) :
  1 <= cap ->
  exists b, run ops (init cap) = Some b /\
    (forall key h, price_history_ b !! key = Some h -> h <> []) /\
    (forall key data,
       (exists out b', getLatest key data b = Some (true, out, b')) <->
       key ∈ fst (getSymbols b)) /\
    NoDup (fst (getSymbols b)) /\
    (forall key, key ∈ fst (getSymbols b) <-> pushed key ops <> []).
Proof.
  intros Hcap. destruct (run_total ops (init cap)) as [b Hb].
  exists b. split; [exact Hb|].
  assert (Hne : forall key h, price_history_ b !! key = Some h -> h <> []).
  { intros key h. apply (run_nonempty_histories cap ops b key h Hcap Hb). }
  split; [exact Hne|]. split; [|split; [apply getSymbols_NoDup|]].
  - intros key data. rewrite getSymbols_elem, getLatest_eq.
    destruct (price_history_ b !! key) as [h|] eqn:Eh; simpl.
    + destruct (last h) eqn:El.
      * split; eauto.
      * apply last_None in El. subst h. destruct (Hne key [] Eh). reflexivity.
    + split; [intros (? & ? & [=]) | intros [? [=]]].
  - intros key. rewrite getSymbols_elem.
    destruct (run_init_history cap ops b key Hb) as [_ ->].
    destruct (pushed key ops); split; try congruence; eauto.
    intros [? [=]].
Qed.

Lemma C10_witness :
  exists b, run scenario_X (init 2) = Some b /\
    (forall key h, price_history_ b !! key = Some h -> h <> []) /\
    (forall key data,
       (exists out b', getLatest key data b = Some (true, out, b')) <->
       key ∈ fst (getSymbols b)) /\
    NoDup (fst (getSymbols b)) /\
    (forall key, key ∈ fst (getSymbols b) <-> pushed key scenario_X <> []).
Proof. apply (C10_symbols_agree_with_latest 2 scenario_X). lia. Defined.

(** With capacity 0 the agreement is lost: the key is listed and [getLatest]
    returns [false]. *)
Example capacity_0_key_without_latest :
  exists b, run [OPush (obs "X" 10 1)] (init 0) = Some b /\
    fst (getSymbols b) = ["X"] /\
    getLatest "X" PriceData_default b = Some (false, PriceData_default, b).
Proof. eexists. split; [reflexivity|]. vm_compute. auto. Qed.

(** ** Facts on binary64 arithmetic and comparison

    Proved from the specification of the primitive operations
    ([FloatAxioms]) on [SpecFloat]. *)

Section FloatFacts.

Lemma SFcompare_antisym x y c :
  SFcompare x y = Some c -> SFcompare y x = Some (CompOpp c).
Proof.
  destruct x as [sx|sx| |sx mx ex], y as [sy|sy| |sy my ey]; simpl;
    try discriminate;
    try (intros [= <-]; destruct sx; try destruct sy; reflexivity).
  intros [= <-]. f_equal.
  destruct sx, sy; simpl; trivial.
  - rewrite (Z.compare_antisym ey ex).
    destruct (ey ?= ex)%Z; simpl; trivial.
    rewrite (Pos.compare_cont_antisym _ _ Eq). simpl.
    rewrite CompOpp_involutive. reflexivity.
  - rewrite (Z.compare_antisym ey ex).
    destruct (ey ?= ex)%Z; simpl; trivial.
    rewrite (Pos.compare_cont_antisym _ _ Eq). reflexivity.
Qed.

Lemma SFcompare_refl x : x <> S754_nan -> SFcompare x x = Some Eq.
Proof.
  destruct x as [s|s| |s m e]; simpl; try congruence; intros _.
  - destruct s; reflexivity.
  - rewrite Z.compare_refl, Pos.compare_cont_refl. destruct s; reflexivity.
Qed.

Lemma is_nan_false x : is_nan x = false <-> Prim2SF x <> S754_nan.
Proof.
  unfold is_nan. rewrite FloatAxioms.eqb_spec. unfold SFeqb. split.
  - intros H E. rewrite E in H. discriminate.
  - intros H. rewrite SFcompare_refl by exact H. reflexivity.
Qed.

End FloatFacts.

Section Rounding.
Variables prec emax : Z.

Lemma shr_1_nonneg mrs : (0 <= shr_m mrs)%Z -> (0 <= shr_m (shr_1 mrs))%Z.
Proof.
  destruct mrs as [m r s]. simpl.
  destruct m as [|p|p]; simpl; try lia.
  destruct p; simpl; lia.
Qed.

Lemma iter_pos_shr_1_nonneg p mrs :
  (0 <= shr_m mrs)%Z -> (0 <= shr_m (SpecFloat.iter_pos shr_1 p mrs))%Z.
Proof.
  revert mrs. induction p as [p IH|p IH|]; intros mrs H; simpl.
  - apply IH, IH, shr_1_nonneg, H.
  - apply IH, IH, H.
  - apply shr_1_nonneg, H.
Qed.

Lemma shr_fexp_nonneg m e l :
  (0 <= m)%Z -> (0 <= shr_m (fst (shr_fexp prec emax m e l)))%Z.
Proof.
  intros H. unfold shr_fexp, shr.
  assert (H0 : (0 <= shr_m (shr_record_of_loc m l))%Z).
  { destruct l as [|[]]; simpl; exact H. }
  destruct (fexp prec emax (Zdigits2 m + e) - e)%Z; simpl; trivial.
  apply iter_pos_shr_1_nonneg, H0.
Qed.

Lemma binary_round_aux_not_nan sx mx ex lx :
  (0 <= mx)%Z -> binary_round_aux prec emax sx mx ex lx <> S754_nan.
Proof.
  intros H. unfold binary_round_aux.
  pose proof (shr_fexp_nonneg mx ex lx H) as H1.
  destruct (shr_fexp prec emax mx ex lx) as [mrs' e']. simpl in H1.
  assert (H2 : (0 <= round_nearest_even (shr_m mrs')
                      (loc_of_shr_record mrs'))%Z).
  { unfold round_nearest_even.
    destruct (loc_of_shr_record mrs') as [|[]]; try lia.
    destruct (Z.even (shr_m mrs')); lia. }
  pose proof (shr_fexp_nonneg _ e' loc_Exact H2) as H3.
  destruct (shr_fexp prec emax _ e' loc_Exact) as [mrs'' e'']. simpl in H3.
  destruct (shr_m mrs''); try lia; try discriminate.
  destruct (e'' <=? emax - prec)%Z; discriminate.
Qed.

Lemma binary_normalize_not_nan m e szero :
  binary_normalize prec emax m e szero <> S754_nan.
Proof.
  unfold binary_normalize, binary_round.
  destruct m; [discriminate| |];
    destruct (shl_align _ _ _); apply binary_round_aux_not_nan; lia.
Qed.

Lemma SFadd_not_nan x y :
  x <> S754_nan ->
  (exists s m e, y = S754_finite s m e) \/ (exists s, y = S754_zero s) ->
  SFadd prec emax x y <> S754_nan.
Proof.
  intros Hx [(s & m & e & ->)|(s & ->)];
    destruct x as [sx|sx| |sx mx ex]; simpl; try congruence.
  - apply binary_normalize_not_nan.
  - destruct sx, s; discriminate.
Qed.

End Rounding.

Lemma is_finite_SF y :
  is_finite y = true ->
  (exists s m e, Prim2SF y = S754_finite s m e) \/
  (exists s, Prim2SF y = S754_zero s).
Proof.
  unfold is_finite, is_infinity. rewrite negb_true_iff, orb_false_iff.
  intros [Hn Hi]. apply is_nan_false in Hn.
  rewrite FloatAxioms.eqb_spec, abs_spec in Hi.
  destruct (Prim2SF y) as [s|s| |s m e]; eauto; [discriminate | congruence].
Qed.

Lemma add_not_nan x y :
  is_nan x = false -> is_finite y = true -> is_nan (x + y) = false.
Proof.
  intros Hx Hy. apply is_nan_false. rewrite add_spec.
  apply SFadd_not_nan; [apply is_nan_false, Hx | apply is_finite_SF, Hy].
Qed.

Lemma not_ltb_leb x y :
  is_nan x = false -> is_nan y = false ->
  (x <? y)%float = false -> (y <=? x)%float = true.
Proof.
  rewrite !is_nan_false, ltb_spec, leb_spec. unfold SFltb, SFleb.
  intros Hx Hy.
  destruct (SFcompare (Prim2SF x) (Prim2SF y)) as [c|] eqn:E.
  - rewrite (SFcompare_antisym _ _ _ E). destruct c; simpl; congruence.
  - destruct (Prim2SF x), (Prim2SF y); simpl in E; congruence.
Qed.

Lemma leb_not_ltb x y :
  (x <=? y)%float = true -> (y <? x)%float = false.
Proof.
  rewrite ltb_spec, leb_spec. unfold SFltb, SFleb.
  destruct (SFcompare (Prim2SF x) (Prim2SF y)) as [c|] eqn:E; [|discriminate].
  rewrite (SFcompare_antisym _ _ _ E). destruct c; simpl; congruence.
Qed.

Lemma leb_30_not_ltb_15 v :
  (30 <=? v)%float = true -> (v <? 15)%float = false.
Proof.
  rewrite ltb_spec, leb_spec. unfold SFltb, SFleb.
  change (Prim2SF 30) with (S754_finite false 8444249301319680 (-48)).
  change (Prim2SF 15) with (S754_finite false 8444249301319680 (-49)).
  destruct (Prim2SF v) as [s|s| |s m e]; unfold SFcompare; try discriminate.
  - destruct s; [discriminate | reflexivity].
  - destruct s; [discriminate|].
    destruct (Z.compare_spec (-48) e); destruct (Z.compare_spec e (-49));
      try lia; try discriminate; trivial.
Qed.

(** ** The producer *)

Section Producer.
Import PriceGenerator.

Variable symbols : list string.
Variable init_draw : nat -> float.
Variable noise : nat -> nat -> float.
Variable clock : nat -> nat -> Z.

Local Abbreviation price_at := (price_after init_draw noise).
Local Abbreviation data_of := (round_data symbols init_draw noise clock).
Local Abbreviation holds_at := (prices_at symbols init_draw noise).

Lemma generate_eq i change now g b calls previous sym :
  current_prices_ g !! i = Some previous ->
  symbols_ g !! i = Some sym ->
  generate i change now (g, b, calls) =
  let data := PriceData_make sym (clamp (previous + change)) change now in
  Some (mk (symbols_ g)
           (<[i := clamp (previous + change)]> (current_prices_ g)),
        SharedBuffer.push data b,
        calls ++ push_then_record data).
Proof.
  intros Hp Hs. unfold generate. rewrite Hp. simpl.
  assert (Hi : i < length (current_prices_ g)).
  { apply lookup_lt_is_Some. eauto. }
  rewrite list_lookup_insert_eq by exact Hi. simpl. unfold clamp.
  destruct (previous + change <? 1)%float; simpl.
  - rewrite Hs. simpl. rewrite list_lookup_insert_eq
      by (rewrite length_insert; exact Hi).
    simpl. rewrite list_insert_insert_eq. reflexivity.
  - rewrite Hs. simpl. rewrite list_lookup_insert_eq by exact Hi.
    reflexivity.
Qed.

Lemma round_data_lookup k i sym :
  symbols !! i = Some sym ->
  data_of k !! i =
  Some (PriceData_make sym (price_at (S k) i) (noise k i) (clock k i)).
Proof.
  intros H. unfold round_data. rewrite list_lookup_imap, H. reflexivity.
Qed.

Lemma round_data_length k : length (data_of k) = length symbols.
Proof. unfold round_data. apply length_imap. Qed.

Lemma for_symbols_S ns cl i n st :
  for_symbols ns cl i (S n) st =
  generate i (ns i) (cl i) st ≫= for_symbols ns cl (S i) n.
Proof. reflexivity. Qed.

Lemma run_loop_S k rounds st :
  run_loop noise clock k (S rounds) st =
  for_symbols (noise k) (clock k) 0 (length (symbols_ (fst (fst st)))) st
    ≫= run_loop noise clock (S k) rounds.
Proof. reflexivity. Qed.

Lemma for_symbols_spec k n i g b calls :
  i + n = length symbols ->
  holds_at k i g ->
  exists g' b',
    for_symbols (noise k) (clock k) i n (g, b, calls) =
      Some (g', b',
            calls ++ flat_map push_then_record (drop i (data_of k))) /\
    holds_at k (length symbols) g' /\
    SharedBuffer.run (OPush <$> drop i (data_of k)) b = Some b'.
Proof.
  revert i g b calls. induction n as [|n IH]; intros i g b calls Hi [Hs Hp].
  - rewrite drop_ge by (rewrite round_data_length; lia).
    exists g, b. simpl. rewrite app_nil_r.
    replace (length symbols) with i by lia. repeat split; trivial.
  - assert (Hlt : i < length symbols) by lia.
    destruct (lookup_lt_is_Some_2 symbols i Hlt) as [sym Hsym].
    pose proof (Hp i Hlt) as Hpi.
    rewrite decide_False in Hpi by lia.
    rewrite for_symbols_S.
    rewrite (generate_eq i _ _ g b calls _ sym Hpi) by (rewrite Hs; exact Hsym).
    simpl mbind.
    rewrite (drop_S _ _ _ (round_data_lookup k i sym Hsym)).
    simpl flat_map. simpl fmap.
    change (clamp (price_at k i + noise k i)) with (price_at (S k) i).
    set (data := PriceData_make sym (price_at (S k) i) (noise k i) (clock k i)).
    destruct (IH (S i)
                (mk (symbols_ g)
                    (<[i := price_at (S k) i]> (current_prices_ g)))
                (SharedBuffer.push data b)
                (calls ++ push_then_record data)) as (g' & b' & H1 & H2 & H3).
    + lia.
    + split; [exact Hs|]. intros j Hj. simpl.
      destruct (decide (j = i)) as [->|Hne].
      * rewrite list_lookup_insert_eq
          by (apply lookup_lt_is_Some; rewrite Hpi; eauto).
        rewrite decide_True by lia. reflexivity.
      * rewrite list_lookup_insert_ne by congruence. rewrite (Hp j Hj).
        f_equal. repeat case_decide; trivial; lia.
    + exists g', b'. split; [|split; [exact H2|]].
      * rewrite H1, <- app_assoc. reflexivity.
      * simpl. exact H3.
Qed.

Lemma run_loop_spec rounds k g b calls :
  holds_at k 0 g ->
  exists g' b',
    run_loop noise clock k rounds (g, b, calls) =
      Some (g', b',
            calls ++ flat_map push_then_record
                       (flat_map data_of (seq k rounds))) /\
    holds_at (k + rounds) 0 g' /\
    SharedBuffer.run (OPush <$> flat_map data_of (seq k rounds)) b
      = Some b'.
Proof.
  revert k g b calls. induction rounds as [|rounds IH]; intros k g b calls Hg.
  - exists g, b. simpl. rewrite app_nil_r, Nat.add_0_r. auto.
  - rewrite run_loop_S. simpl fst. destruct Hg as [Hs Hp]. rewrite Hs.
    destruct (for_symbols_spec k (length symbols) 0 g b calls)
      as (g1 & b1 & H1 & [Hs1 Hp1] & H3); [lia | split; assumption |].
    rewrite H1. simpl mbind. rewrite drop_0 in *.
    destruct (IH (S k) g1 b1
                (calls ++ flat_map push_then_record (data_of k)))
      as (g' & b' & H4 & H5 & H6).
    { split; [exact Hs1|]. intros j Hj. rewrite (Hp1 j Hj).
      rewrite decide_True by lia. rewrite decide_False by lia. reflexivity. }
    exists g', b'. split; [|split].
    + rewrite H4. simpl seq. simpl flat_map.
      rewrite flat_map_app, app_assoc. reflexivity.
    + replace (k + S rounds) with (S k + rounds) by lia. exact H5.
    + simpl seq. simpl flat_map. rewrite fmap_app, run_app, H3. exact H6.
Qed.

Lemma make_prices_at : holds_at 0 0 (make symbols init_draw).
Proof.
  split; [reflexivity|]. intros j Hj. simpl.
  rewrite list_lookup_fmap, lookup_seq_lt by exact Hj. reflexivity.
Qed.

Lemma clamp_floor p :
  is_nan p = false ->
  (1 <=? clamp p)%float = true /\ is_nan (clamp p) = false.
Proof.
  intros Hp. unfold clamp. destruct (p <? 1)%float eqn:E.
  - split; reflexivity.
  - split; [|exact Hp]. apply not_ltb_leb; [exact Hp | reflexivity | exact E].
Qed.

Lemma price_after_not_nan rounds k i :
  (forall j, j < length symbols -> is_nan (init_draw j) = false) ->
  (forall r j, r < rounds -> j < length symbols ->
     is_finite (noise r j) = true) ->
  k <= rounds -> i < length symbols ->
  is_nan (price_at k i) = false.
Proof.
  intros Hinit Hnoise. induction k as [|k IH]; intros Hk Hi; simpl.
  - apply Hinit, Hi.
  - apply clamp_floor, add_not_nan; [apply IH; lia | apply Hnoise; lia].
Qed.

End Producer.

Lemma leb_1_positive p : (1 <=? p)%float = true -> (0 <? p)%float = true.
Proof.
  rewrite ltb_spec, leb_spec. unfold SFltb, SFleb.
  change (Prim2SF 1) with (S754_finite false 4503599627370496 (-52)).
  change (Prim2SF 0) with (S754_zero false).
  destruct (Prim2SF p) as [s|s| |s m e]; unfold SFcompare; try discriminate.
  - destruct s; [discriminate | reflexivity].
  - destruct s; [discriminate | reflexivity].
Qed.

Lemma generated_length symbols init_draw noise clock rounds :
  length (generated symbols init_draw noise clock rounds) =
  rounds * length symbols.
Proof.
  unfold generated. generalize 0 as k.
  induction rounds as [|rounds IH]; intros k; simpl; [reflexivity|].
  rewrite length_app, round_data_length, IH. reflexivity.
Qed.

Lemma generated_elem symbols init_draw noise clock rounds data :
  data ∈ generated symbols init_draw noise clock rounds ->
  exists k i sym, k < rounds /\ symbols !! i = Some sym /\
    data = PriceData_make sym
             (clamp (price_after init_draw noise k i + noise k i))
             (noise k i) (clock k i).
Proof.
  unfold generated. rewrite list_elem_of_In, in_flat_map.
  intros (k & Hk & Hd). apply in_seq in Hk.
  apply list_elem_of_In, list_elem_of_lookup in Hd. destruct Hd as [i Hi].
  unfold round_data in Hi. rewrite list_lookup_imap in Hi.
  destruct (symbols !! i) as [sym|] eqn:Es; [|discriminate].
  injection Hi as <-. exists k, i, sym. split; [lia|]. auto.
Qed.

(** C8. Each pass of the producer's loop body for a symbol replaces its
    price by the previous price plus the noise drawn, clamped from below at
    1.0, pushes an observation with that price, the noise and the clock
    reading, and then calls [recordGeneration] once with the symbol and that
    time stamp.  While the loop runs, whatever finite noise values are drawn
    (the initial prices being numbers), the producer's calls are exactly
    this pair for every tracked symbol in every iteration, the buffer
    receives exactly these pushes, and every observation pushed has a price
    of at least 1.0, hence strictly positive. *)
Theorem C8_producer_floor (symbols : list string) (init_draw : nat -> float)
  (noise : nat -> nat -> float) (clock : nat -> nat -> Z) (rounds : nat)
  (b : SharedBuffer.t) :
  (forall i, i < length symbols -> is_nan (init_draw i) = false) ->
  (forall k i, k < rounds -> i < length symbols ->
     is_finite (noise k i) = true) ->
  (forall i change now g b0 calls previous sym,
     PriceGenerator.current_prices_ g !! i = Some previous ->
     PriceGenerator.symbols_ g !! i = Some sym ->
     let p := (previous + change)%float in
     let p := if (p <? 1)%float then 1%float else p in
     let data := mkPriceData sym p change now in
     PriceGenerator.generate i change now (g, b0, calls) =
     Some (PriceGenerator.mk (PriceGenerator.symbols_ g)
             (<[i := p]> (PriceGenerator.current_prices_ g)),
           push data b0,
           calls ++ [PriceGenerator.CallPush data;
                     PriceGenerator.CallMonitor
                       (RecordGeneration sym now)])) /\
  let pushed_data := generated symbols init_draw noise clock rounds in
  exists g' b' calls,
    PriceGenerator.run noise clock rounds
      (PriceGenerator.make symbols init_draw) b = Some (g', b', calls) /\
    calls = flat_map push_then_record pushed_data /\
    SharedBuffer.run (OPush <$> pushed_data) b = Some b' /\
    length pushed_data = rounds * length symbols /\
    (forall data, PriceGenerator.CallPush data ∈ calls ->
       data ∈ pushed_data) /\
    (forall data, data ∈ pushed_data ->
       (1 <=? price data)%float = true /\ (0 <? price data)%float = true).
Proof.
  intros Hinit Hnoise. split.
  - intros i change now g b0 calls previous sym Hp Hs.
    apply generate_eq; assumption.
  - simpl.
    destruct (run_loop_spec symbols init_draw noise clock rounds 0
                (PriceGenerator.make symbols init_draw) b [])
      as (g' & b' & H1 & _ & H3); [apply make_prices_at|].
    exists g', b', (flat_map push_then_record
                      (generated symbols init_draw noise clock rounds)).
    split; [exact H1|]. split; [reflexivity|]. split; [exact H3|].
    split; [apply generated_length|]. split.
    + intros data. rewrite list_elem_of_In, in_flat_map.
      intros (d & Hd & Hin). apply list_elem_of_In.
      destruct Hin as [E|[E|[]]]; [|discriminate E].
      injection E as <-. exact Hd.
    + intros data Hd.
      destruct (generated_elem _ _ _ _ _ _ Hd) as (k & i & sym & Hk & Hs & ->).
      assert (Hi : i < length symbols) by (apply lookup_lt_is_Some; eauto).
      simpl.
      destruct (clamp_floor (price_after init_draw noise k i + noise k i))
        as [H _].
      { apply add_not_nan; [|apply Hnoise; lia].
        apply (price_after_not_nan symbols init_draw noise rounds);
          auto; lia. }
      split; [exact H | apply leb_1_positive, H].
Qed.

Lemma C8_witness :
  exists g' b' calls,
    PriceGenerator.run falling_noise tick_clock 2
      (PriceGenerator.make ["AAPL"; "BTC"] falling_init) (init 100)
      = Some (g', b', calls) /\
    (forall data, PriceGenerator.CallPush data ∈ calls ->
       (1 <=? price data)%float = true).
Proof.
  destruct (C8_producer_floor ["AAPL"; "BTC"] falling_init falling_noise
              tick_clock 2 (init 100))
    as (_ & g' & b' & calls & H1 & _ & _ & _ & H5 & H6).
  - intros [|[|i]] Hi; simpl in *; [reflexivity | reflexivity | lia].
  - intros k i _ _. reflexivity.
  - exists g', b', calls. split; [exact H1|].
    intros data Hd. apply H6, H5, Hd.
Defined.

Example falling_prices :
  price <$> generated ["AAPL"; "BTC"] falling_init falling_noise tick_clock 2
  = [97%float; 1%float; 94%float; 1%float].
Proof. reflexivity. Qed.

(** ** The consumers *)

Lemma fold_left_prices (history : list PriceData) (acc : float) :
  fold_left (fun sum data => (sum + price data)%float) history acc =
  fold_left PrimFloat.add (price <$> history) acc.
Proof.
  revert acc. induction history as [|d history IH]; intros acc; simpl; auto.
Qed.

Lemma last_is_Some {A : Type} (l : list A) : 1 <= length l -> is_Some (last l).
Proof.
  destruct l as [|x l] using rev_ind; simpl; [lia|].
  rewrite last_snoc. eauto.
Qed.

(** C7. A window with fewer than 2 samples is skipped ([continue]) and
    nothing is reported for it; for every window with at least 2 samples the
    SMA consumer computes the arithmetic mean of the window's prices and the
    deviation of the newest price from that mean in percent,
    [((newest - mean) / mean) * 100], and reports the time stamp of the
    newest sample; the window [10, 20, 30] gives the mean 20 and the
    deviation +50. *)
Theorem C7_sma_mean_deviation (history : list PriceData) :
  (length history < 2 -> SMACalculator.calculate history = Some None) /\
  (2 <= length history ->
     exists newest, last history = Some newest /\
       let mean := arithmetic_mean (price <$> history) in
       SMACalculator.calculate history =
       Some (Some (SMACalculator.mkIndicator mean (price newest)
                     (percent_deviation (price newest) mean)
                     (timestamp newest)))) /\
  (forall window_size sym now b skipped calls,
     SMACalculator.process_symbol window_size sym now b
       = Some (None, skipped, calls) -> calls = []) /\
  (option_map (option_map SMACalculator.sma)
     (SMACalculator.calculate (window_of [10%float; 20%float; 30%float]))
     = Some (Some 20%float) /\
   option_map (option_map SMACalculator.deviation)
     (SMACalculator.calculate (window_of [10%float; 20%float; 30%float]))
     = Some (Some 50%float)).
Proof.
  split; [|split; [|split]].
  - intros H. unfold SMACalculator.calculate. rewrite decide_True by exact H.
    reflexivity.
  - intros H. destruct (last_is_Some history) as [newest Hn]; [lia|].
    exists newest. split; [exact Hn|]. simpl.
    unfold SMACalculator.calculate. rewrite decide_False by lia.
    rewrite Hn. simpl. rewrite fold_left_prices.
    unfold arithmetic_mean, percent_deviation. rewrite length_fmap.
    reflexivity.
  - intros window_size sym now b skipped calls.
    unfold SMACalculator.process_symbol.
    destruct (getHistory sym window_size b) as [r|]; [|discriminate]. simpl.
    destruct (SMACalculator.calculate r.1) as [[x|]|]; simpl; congruence.
  - split; reflexivity.
Qed.

Lemma C7_witness :
  exists newest,
    last (window_of [10%float; 20%float; 30%float]) = Some newest /\
    SMACalculator.calculate (window_of [10%float; 20%float; 30%float]) =
    Some (Some (SMACalculator.mkIndicator
                  (arithmetic_mean [10%float; 20%float; 30%float])
                  (price newest)
                  (percent_deviation (price newest)
                     (arithmetic_mean [10%float; 20%float; 30%float]))
                  (timestamp newest))).
Proof.
  destruct (C7_sma_mean_deviation
              (window_of [10%float; 20%float; 30%float])) as (_ & H & _).
  apply H. simpl. lia.
Defined.

Lemma step_returns_short (v : list float) :
  length v <= 1 -> step_returns v = [].
Proof. destruct v as [|a [|b v]]; simpl; trivial; lia. Qed.

Lemma returns_loop_eq history i n acc :
  1 <= i -> i + n = length history ->
  VolatilityCalculator.returns_loop history i n acc =
  Some (acc ++ step_returns (drop (i - 1) (price <$> history))).
Proof.
  revert i acc. induction n as [|n IH]; intros i acc Hi Hlen; simpl.
  - rewrite step_returns_short, app_nil_r; [reflexivity|].
    rewrite length_drop, length_fmap. lia.
  - destruct (lookup_lt_is_Some_2 history i) as [cur Hc]; [lia|].
    destruct (lookup_lt_is_Some_2 history (i - 1)) as [prev Hp]; [lia|].
    rewrite Hc, Hp. simpl. rewrite IH by lia.
    assert (Hp' : (price <$> history) !! (i - 1) = Some (price prev))
      by (rewrite list_lookup_fmap, Hp; reflexivity).
    assert (Hc' : (price <$> history) !! S (i - 1) = Some (price cur)).
    { replace (S (i - 1)) with i by lia.
      rewrite list_lookup_fmap, Hc. reflexivity. }
    rewrite (drop_S _ _ _ Hp'), (drop_S _ _ _ Hc').
    replace (S i - 1) with (S (i - 1)) by lia.
    rewrite (drop_S _ _ _ Hc'). simpl. rewrite <- app_assoc. reflexivity.
Qed.

Lemma step_returns_length (v : list float) :
  length (step_returns v) = length v - 1.
Proof.
  induction v as [|a [|b v] IH]; simpl in *; try lia.
Qed.

Lemma classify_tiers (v : float) :
  ((v <? 15)%float = true -> VolatilityCalculator.classify v
                             = VolatilityCalculator.LOW) /\
  ((15 <=? v)%float = true -> (v <? 30)%float = true ->
     VolatilityCalculator.classify v = VolatilityCalculator.MODERATE) /\
  ((30 <=? v)%float = true ->
     VolatilityCalculator.classify v = VolatilityCalculator.HIGH).
Proof.
  unfold VolatilityCalculator.classify. repeat split.
  - intros ->. reflexivity.
  - intros H1 H2. rewrite (leb_not_ltb _ _ H1), H2. reflexivity.
  - intros H. rewrite (leb_30_not_ltb_15 _ H), (leb_not_ltb _ _ H).
    reflexivity.
Qed.

(** C6, as stated, fails on its own example: for the window
    [100, 101, 99, 100] the consumer's annualized volatility is below 23
    percent (it is 22.34), not about 30 to 31 percent. *)
Lemma C6_counterexample :
  exists ind,
    VolatilityCalculator.calculate window_100 = Some (Some ind) /\
    (VolatilityCalculator.annualized_volatility ind <? 23)%float = true /\
    (30 <=? VolatilityCalculator.annualized_volatility ind)%float = false.
Proof. eexists. split; [reflexivity|]. split; reflexivity. Qed.

(** C6, amended. A window with fewer than 3 samples is skipped and nothing
    is reported for it; for every window with at least 3 samples the
    volatility consumer computes the per-step returns
    [(v[i] - v[i-1]) / v[i-1]], their population standard deviation (the
    variance divided by the number of returns), multiplies it by [sqrt(252)]
    and by 100, and classifies the result as LOW when it is below 15,
    MODERATE when it is at least 15 and below 30, and HIGH when it is at
    least 30; the window [100, 101, 99, 100] yields an annualized volatility
    between 22.25 and 22.5 percent, classified MODERATE. *)
Theorem C6_volatility (history : list PriceData) :
  (length history < 3 -> VolatilityCalculator.calculate history = Some None) /\
  (3 <= length history ->
     exists newest, last history = Some newest /\
       let returns := step_returns (price <$> history) in
       length returns = length history - 1 /\
       VolatilityCalculator.calculate history =
       Some (Some (VolatilityCalculator.mkIndicator returns
                     (annualized_percent returns)
                     (VolatilityCalculator.classify
                        (annualized_percent returns))
                     (timestamp newest)))) /\
  (forall v,
     ((v <? 15)%float = true -> VolatilityCalculator.classify v
                                = VolatilityCalculator.LOW) /\
     ((15 <=? v)%float = true -> (v <? 30)%float = true ->
        VolatilityCalculator.classify v = VolatilityCalculator.MODERATE) /\
     ((30 <=? v)%float = true ->
        VolatilityCalculator.classify v = VolatilityCalculator.HIGH)) /\
  (forall window_size sym now b skipped calls,
     VolatilityCalculator.process_symbol window_size sym now b
       = Some (None, skipped, calls) -> calls = []) /\
  (exists ind,
     VolatilityCalculator.calculate window_100 = Some (Some ind) /\
     (22.25 <? VolatilityCalculator.annualized_volatility ind)%float = true /\
     (VolatilityCalculator.annualized_volatility ind <? 22.5)%float = true /\
     VolatilityCalculator.volatility_level ind
       = VolatilityCalculator.MODERATE).
Proof.
  split; [|split; [|split; [exact classify_tiers|split]]].
  - intros H. unfold VolatilityCalculator.calculate.
    rewrite decide_True by exact H. reflexivity.
  - intros H. destruct (last_is_Some history) as [newest Hn]; [lia|].
    exists newest. split; [exact Hn|]. simpl.
    split; [rewrite step_returns_length, length_fmap; reflexivity|].
    unfold VolatilityCalculator.calculate. rewrite decide_False by lia.
    rewrite returns_loop_eq by lia. simpl. rewrite Hn. simpl.
    reflexivity.
  - intros window_size sym now b skipped calls.
    unfold VolatilityCalculator.process_symbol.
    destruct (getHistory sym window_size b) as [r|]; [|discriminate]. simpl.
    destruct (VolatilityCalculator.calculate r.1) as [[x|]|]; simpl;
      congruence.
  - eexists. split; [reflexivity|]. repeat split; reflexivity.
Qed.

Lemma C6_witness :
  exists newest, last window_100 = Some newest /\
    let returns := step_returns (price <$> window_100) in
    length returns = length window_100 - 1 /\
    VolatilityCalculator.calculate window_100 =
    Some (Some (VolatilityCalculator.mkIndicator returns
                  (annualized_percent returns)
                  (VolatilityCalculator.classify (annualized_percent returns))
                  (timestamp newest))).
Proof.
  destruct (C6_volatility window_100) as (_ & H & _).
  apply H. simpl. lia.
Defined.

(** ** Threads: every read is a snapshot *)

Section ThreadsInvariant.
Import Threads.

Variable cap : nat.

Lemma snapshot_extend completed o e :
  snapshot cap completed e -> snapshot cap (completed ++ [o]) e.
Proof.
  intros (ops & b & Hp & Hr & Hg). exists ops, b.
  split; [apply prefix_app_r, Hp | auto].
Qed.

Lemma invariant_start programs : invariant cap (start cap programs).
Proof.
  exists (init cap). unfold start, others_idle.
  cbn [log mutex_ buffer threads].
  split; [reflexivity|]. split; [|split].
  - intros t th _ Hth. rewrite list_lookup_fmap in Hth.
    destruct (programs !! t); [|discriminate]. injection Hth as <-.
    reflexivity.
  - reflexivity.
  - intros t th e Hth He. rewrite list_lookup_fmap in Hth.
    destruct (programs !! t); [|discriminate]. injection Hth as <-.
    simpl in He. inversion He.
Qed.

(** A step of the owner of the lock keeps the invariant when the new
    buffer is what its next statement expects. *)
Lemma invariant_locked c tid th th' atomic b' :
  run (log c) (init cap) = Some atomic ->
  others_idle c (Some tid) ->
  threads c !! tid = Some th ->
  returned th' = returned th ->
  (forall t th0 e, threads c !! t = Some th0 -> e ∈ returned th0 ->
                   snapshot cap (log c) e) ->
  in_section (at_pc th') b' atomic ->
  invariant cap (mkConfig b' (Some tid) (<[tid := th']> (threads c)) (log c)).
Proof.
  intros Hrun Hidle Hth Hsame Hret Hsec.
  assert (Hlt : tid < length (threads c)) by (apply lookup_lt_is_Some; eauto).
  exists atomic. unfold others_idle. cbn [log mutex_ buffer threads].
  split; [exact Hrun|]. split; [|split].
  - intros t th0 Hne H0. rewrite list_lookup_insert_ne in H0 by congruence.
    apply (Hidle t th0 Hne H0).
  - exists th'. rewrite list_lookup_insert_eq by exact Hlt.
    split; [reflexivity | exact Hsec].
  - intros t th0 e H0 He. destruct (decide (t = tid)) as [->|Hne].
    + rewrite list_lookup_insert_eq in H0 by exact Hlt. injection H0 as <-.
      rewrite Hsame in He. apply (Hret tid th e Hth He).
    + rewrite list_lookup_insert_ne in H0 by congruence.
      apply (Hret t th0 e H0 He).
Qed.

(** Releasing the lock after a complete call [o] keeps the invariant. *)
Lemma invariant_unlock c tid th atomic o extra :
  run (log c) (init cap) = Some atomic ->
  others_idle c (Some tid) ->
  threads c !! tid = Some th ->
  (forall t th0 e, threads c !! t = Some th0 -> e ∈ returned th0 ->
                   snapshot cap (log c) e) ->
  exec o atomic = Some (buffer c) ->
  (forall e, e ∈ extra -> snapshot cap (log c ++ [o]) e) ->
  invariant cap
    (mkConfig (buffer c) None
       (<[tid := mkThread (todo th) Idle (returned th ++ extra)]> (threads c))
       (log c ++ [o])).
Proof.
  intros Hrun Hidle Hth Hret Hexec Hextra.
  assert (Hlt : tid < length (threads c)) by (apply lookup_lt_is_Some; eauto).
  exists (buffer c). unfold others_idle. cbn [log mutex_ buffer threads].
  split; [|split; [|split]].
  - rewrite run_app, Hrun. simpl. rewrite Hexec. reflexivity.
  - intros t th0 _ H0. destruct (decide (t = tid)) as [->|Hne].
    + rewrite list_lookup_insert_eq in H0 by exact Hlt. injection H0 as <-.
      reflexivity.
    + rewrite list_lookup_insert_ne in H0 by congruence.
      apply (Hidle t th0); [congruence | exact H0].
  - reflexivity.
  - intros t th0 e H0 He. destruct (decide (t = tid)) as [->|Hne].
    + rewrite list_lookup_insert_eq in H0 by exact Hlt. injection H0 as <-.
      simpl in He. apply elem_of_app in He. destruct He as [He|He].
      * apply snapshot_extend, (Hret tid th e Hth He).
      * apply Hextra, He.
    + rewrite list_lookup_insert_ne in H0 by congruence.
      apply snapshot_extend, (Hret t th0 e H0 He).
Qed.

Lemma stored_set_history sym history b :
  stored sym (set_history sym history b) = history.
Proof.
  unfold stored, set_history. simpl. rewrite lookup_insert_eq. reflexivity.
Qed.

Lemma set_history_twice sym h1 h2 b :
  set_history sym h2 (set_history sym h1 b) = set_history sym h2 b.
Proof. unfold set_history. simpl. rewrite insert_insert_eq. reflexivity. Qed.

Lemma step_invariant tid c c' :
  step tid c = Some c' -> invariant cap c -> invariant cap c'.
Proof.
  unfold step. destruct (threads c !! tid) as [th|] eqn:Hth; [|discriminate].
  simpl. intros Hstep (atomic & Hrun & Hidle & Hlock & Hret).
  destruct (mutex_ c) as [owner|] eqn:Hm.
  - destruct (decide (owner = tid)) as [->|Hne].
    2:{ rewrite (Hidle tid th) in Hstep by (congruence || exact Hth).
        destruct (todo th); discriminate. }
    destruct Hlock as (th0 & Hth0 & Hsec). rewrite Hth in Hth0.
    injection Hth0 as <-.
    destruct (at_pc th) as [|d|d|d|d|sym n|sym n i r|sym n r|sym n r] eqn:Hpc;
      simpl in Hsec.
    + destruct Hsec.
    + subst atomic. injection Hstep as <-.
      eapply invariant_locked; eauto. reflexivity.
    + injection Hstep as <-. eapply invariant_locked; eauto. simpl.
      rewrite Hsec, stored_set_history. unfold appended.
      case_decide; simpl; case_decide; try (exfalso; tauto).
      * apply set_history_twice.
      * reflexivity.
    + injection Hstep as <-. eapply invariant_locked; eauto. simpl.
      rewrite Hsec. reflexivity.
    + injection Hstep as <-.
      replace (returned th) with (returned th ++ []) by apply app_nil_r.
      apply (invariant_unlock c tid th atomic (OPush d) []); auto.
      * simpl. rewrite Hsec. reflexivity.
      * intros e He. inversion He.
    + subst atomic.
      destruct (price_history_ (buffer c) !! sym) as [h|] eqn:Eh;
        injection Hstep as <-; eapply invariant_locked; eauto; simpl.
      * split; [reflexivity|]. exists h. split; [exact Eh|].
        case_decide; split; try lia.
        -- rewrite Nat.sub_diag, take_0. reflexivity.
        -- replace (length h - n) with 0 by lia. reflexivity.
      * rewrite getHistory_eq, Eh. reflexivity.
    + destruct Hsec as (Hb & h & Eh & Hle & Hr).
      unfold stored in Hstep. rewrite Hb, Eh in Hstep. simpl in Hstep.
      destruct (h !! i) as [x|] eqn:Ex; injection Hstep as <-;
        eapply invariant_locked; eauto; simpl.
      * split; [reflexivity|]. exists h. split; [exact Eh|].
        split; [lia|].
        replace (S i - (length h - n)) with (S (i - (length h - n))) by lia.
        rewrite (take_S_r _ _ x), Hr; [reflexivity|].
        rewrite lookup_drop. rewrite <- Ex. f_equal. lia.
      * split; [reflexivity|]. exists h. split; [exact Eh|].
        apply lookup_ge_None in Ex. rewrite Hr. unfold lastn.
        apply take_ge. rewrite length_drop. lia.
    + destruct Hsec as (Hb & h & Eh & Hr).
      injection Hstep as <-. eapply invariant_locked; eauto. simpl.
      rewrite getHistory_eq, Eh, Hr, Hb. reflexivity.
    + injection Hstep as <-.
      apply (invariant_unlock c tid th atomic (OGetHistory sym n)
               [(sym, n, r)]); auto.
      * simpl. rewrite Hsec. reflexivity.
      * intros e He. apply list_elem_of_singleton in He. subst e.
        exists (log c), atomic. split; [apply prefix_app_r; reflexivity|].
        split; [exact Hrun|]. simpl. rewrite Hsec. reflexivity.
  - subst atomic. rewrite (Hidle tid th) in Hstep by (congruence || exact Hth).
    destruct (todo th) as [|next rest]; [discriminate|].
    injection Hstep as <-.
    apply (invariant_locked c tid th _ (buffer c) (buffer c));
      [exact Hrun | | exact Hth | reflexivity | exact Hret | ].
    + intros t th0 _ H0. apply (Hidle t th0); [discriminate | exact H0].
    + simpl. destruct next; reflexivity.
Qed.

Lemma schedule_invariant sched c :
  invariant cap c -> invariant cap (schedule sched c).
Proof.
  revert c. induction sched as [|tid sched IH]; intros c Hc; simpl; [exact Hc|].
  apply IH. destruct (step tid c) as [c'|] eqn:E; simpl; [|exact Hc].
  apply (step_invariant tid c c' E Hc).
Qed.

End ThreadsInvariant.

Lemma step_returned tid c c' t th :
  Threads.step tid c = Some c' ->
  Threads.threads c !! t = Some th ->
  exists th', Threads.threads c' !! t = Some th' /\
    Threads.returned th `prefix_of` Threads.returned th'.
Proof.
  unfold Threads.step.
  destruct (Threads.threads c !! tid) as [th0|] eqn:Hth0; [|discriminate].
  simpl. intros Hstep Hth.
  assert (Hlt : tid < length (Threads.threads c))
    by (apply lookup_lt_is_Some; eauto).
  assert (Hins : forall th1,
    Threads.returned th0 `prefix_of` Threads.returned th1 ->
    exists th', <[tid := th1]> (Threads.threads c) !! t = Some th' /\
      Threads.returned th `prefix_of` Threads.returned th').
  { intros th1 Hp. destruct (decide (t = tid)) as [->|Hne].
    - exists th1. rewrite list_lookup_insert_eq by exact Hlt.
      split; [reflexivity|]. congruence.
    - exists th. rewrite list_lookup_insert_ne by congruence.
      split; [exact Hth | reflexivity]. }
  destruct (Threads.at_pc th0); simpl in Hstep;
    repeat match type of Hstep with
           | context [match ?x with _ => _ end] => destruct x
           end;
    try discriminate; injection Hstep as <-; simpl; apply Hins; simpl;
    try reflexivity; apply prefix_app_r; reflexivity.
Qed.

Lemma schedule_returned sched c t th :
  Threads.threads c !! t = Some th ->
  exists th', Threads.threads (Threads.schedule sched c) !! t = Some th' /\
    Threads.returned th `prefix_of` Threads.returned th'.
Proof.
  revert c th. induction sched as [|tid sched IH]; intros c th Hth; simpl.
  - exists th. split; [exact Hth | reflexivity].
  - destruct (Threads.step tid c) as [c'|] eqn:E; simpl; [|apply IH, Hth].
    destruct (step_returned tid c c' t th E Hth) as (th1 & H1 & Hp1).
    destruct (IH c' th1 H1) as (th2 & H2 & Hp2).
    exists th2. split; [exact H2 | etrans; eassumption].
Qed.

(** C9. Whatever the programs of the threads and however their steps are
    interleaved: every vector a [getHistory] call has returned is what
    [getHistory] gives on the buffer as it stood after a prefix of the
    completed calls, that is the most recent [min count cap] values pushed
    for the key by then, so never more than the capacity and never a history
    caught between [push_back] and [pop_front]; a thread that is inside
    [push] or [getHistory] owns the lock, so the copy is built entirely
    under it; and no later step of any thread changes a vector already
    returned. *)
Theorem C9_reads_are_snapshots (cap : nat)
  (programs : list (list Threads.call)) (sched : list nat) :
  let c := Threads.schedule sched (Threads.start cap programs) in
  (forall t th sym count r,
     Threads.threads c !! t = Some th ->
     (sym, count, r) ∈ Threads.returned th ->
     exists ops b,
       ops `prefix_of` Threads.log c /\
       run ops (init cap) = Some b /\
       fst <$> getHistory sym count b = Some r /\
       r = lastn count (default [] (price_history_ b !! sym)) /\
       r = lastn (min count cap) (pushed sym ops) /\
       length r <= cap) /\
  (forall t th,
     Threads.threads c !! t = Some th ->
     Threads.at_pc th <> Threads.Idle ->
     Threads.mutex_ c = Some t) /\
  (forall sched' t th,
     Threads.threads c !! t = Some th ->
     exists th',
       Threads.threads (Threads.schedule sched' c) !! t = Some th' /\
       Threads.returned th `prefix_of` Threads.returned th').
Proof.
  intros c.
  destruct (schedule_invariant cap sched (Threads.start cap programs)
              (invariant_start cap programs))
    as (atomic & Hrun & Hidle & Hlock & Hret).
  fold c in Hrun, Hidle, Hlock, Hret. split; [|split].
  - intros t th sym count r Hth Hin.
    destruct (Hret t th _ Hth Hin) as (ops & b & Hp & Hb & Hg).
    simpl in Hg. exists ops, b. split; [exact Hp|]. split; [exact Hb|].
    split; [exact Hg|].
    assert (Hr : r = lastn count (default [] (price_history_ b !! sym))).
    { rewrite getHistory_eq in Hg. injection Hg as <-.
      destruct (price_history_ b !! sym); reflexivity. }
    split; [exact Hr|].
    rewrite (run_init_stored cap ops b sym Hb), lastn_lastn in Hr.
    split; [exact Hr|]. rewrite Hr, lastn_length. lia.
  - intros t th Hth Hpc.
    destruct (decide (Some t = Threads.mutex_ c)) as [E|Hne]; [auto|].
    destruct Hpc. apply (Hidle t th Hne Hth).
  - intros sched' t th Hth. apply schedule_returned, Hth.
Qed.

Example consumer_blocked_mid_push :
  let c := Threads.schedule mid_push (Threads.start 2 two_threads) in
  price <$> Threads.stored "X" (Threads.buffer c)
    = [10%float; 11%float; 12%float] /\
  Threads.mutex_ c = Some 0 /\
  Threads.step 1 c = None.
Proof. vm_compute. auto. Qed.

Example interleaved_windows :
  option_map
    (fun th => map (fun e => map price (snd e)) (Threads.returned th))
    (Threads.threads
       (Threads.schedule interleaved (Threads.start 2 two_threads)) !! 1)
  = Some [[10%float; 11%float]; [11%float; 12%float]].
Proof. vm_compute. reflexivity. Qed.

Lemma C9_witness :
  exists ops b,
    ops `prefix_of`
      Threads.log (Threads.schedule interleaved (Threads.start 2 two_threads))
    /\
    run ops (init 2) = Some b /\
    fst <$> getHistory "X" 5 b = Some [obs "X" 10 1; obs "X" 11 2] /\
    [obs "X" 10 1; obs "X" 11 2]
      = lastn 5 (default [] (price_history_ b !! "X")) /\
    [obs "X" 10 1; obs "X" 11 2] = lastn (min 5 2) (pushed "X" ops) /\
    length [obs "X" 10 1; obs "X" 11 2] <= 2.
Proof.
  apply (proj1 (C9_reads_are_snapshots 2 two_threads interleaved) 1
           (Threads.mkThread [] Threads.Idle
              [("X", 5, [obs "X" 10 1; obs "X" 11 2]);
               ("X", 5, [obs "X" 11 2; obs "X" 12 3])])).
  - vm_compute. reflexivity.
  - simpl. left.
Defined.

(** * Further properties *)

(** ** The buffer *)

Lemma run_fields ops b b' key :
  run ops b = Some b' ->
  max_history_size_ b' = max_history_size_ b /\
  (is_Some (price_history_ b !! key) -> is_Some (price_history_ b' !! key)) /\
  (pushed key ops = [] -> price_history_ b' !! key = price_history_ b !! key).
Proof.
  revert b. induction ops as [|o ops IH]; intros b; cbn [run].
  - intros [= <-]. auto.
  - destruct (exec o b) as [b1|] eqn:E; [|discriminate].
    cbn [mbind option_bind].
    intros Hrun. destruct (exec_fields _ _ _ E) as [Hcap Hk].
    destruct (IH b1 Hrun) as (Hcap' & Hsome & Hsame).
    split; [congruence|]. specialize (Hk key). split.
    + intros Hin. apply Hsome. rewrite Hk.
      destruct (pushed key [o]); eauto.
    + intros Hp.
      assert (pushed key [o] = [] /\ pushed key ops = []) as [H1 H2].
      { pose proof (pushed_app key [o] ops) as Happ.
        change ([o] ++ ops) with (o :: ops) in Happ.
        rewrite Happ in Hp. apply app_eq_nil in Hp. exact Hp. }
      rewrite (Hsame H2), Hk, H1. reflexivity.
Qed.

(** X1. A key is never removed: whatever calls follow, a key that is in the
    map stays in it and [getSymbols] keeps listing it. *)
Theorem keys_are_never_removed (ops : list Op) (b b' : t) (key : string) :
  run ops b = Some b' ->
  key ∈ fst (getSymbols b) ->
  key ∈ fst (getSymbols b') /\ is_Some (price_history_ b' !! key).
Proof.
  intros Hrun Hin. apply getSymbols_elem in Hin.
  destruct (run_fields ops b b' key Hrun) as (_ & Hsome & _).
  split; [apply getSymbols_elem|]; apply Hsome, Hin.
Qed.

Lemma keys_are_never_removed_witness :
  "X" ∈ fst (getSymbols scenario_X_buffer) /\
  is_Some (price_history_ scenario_X_buffer !! "X").
Proof.
  apply (keys_are_never_removed
           [OPush (obs "X" 11 2); OGetLatest "Y" PriceData_default;
            OPush (obs "X" 12 3)]
           (push (obs "X" 10 1) (init 2))).
  - reflexivity.
  - vm_compute. left.
Defined.





(** On a buffer of capacity 0 the key of a push has an empty history:
    [getLatest] does not count a read, [getHistory] does. *)
Example latest_and_window_on_capacity_0 :
  (r ← getLatest "X" PriceData_default (push (obs "X" 10 1) (init 0));
   Some (fst (fst r), total_reads_ (snd r))) = Some (false, 0%Z) /\
  (r ← getHistory "X" 1 (push (obs "X" 10 1) (init 0));
   Some (fst r, total_reads_ (snd r))) = Some ([], 1%Z).
Proof. split; reflexivity. Qed.

(** X4. Windows are nested: on every buffer a shorter window is the tail of
    a longer one, no window is longer than asked for, and a count of 0 gives
    the empty vector (and still counts as a read of a known key). *)
Theorem windows_are_nested (b : t) (key : string) (c1 c2 : nat) :
  c1 <= c2 ->
  exists w1 b1 w2 b2,
    getHistory key c1 b = Some (w1, b1) /\
    getHistory key c2 b = Some (w2, b2) /\
    w1 = lastn c1 w2 /\ w1 `suffix_of` w2 /\
    length w1 <= c1 /\ length w2 <= c2 /\ b1 = b2 /\
    (c1 = 0 -> w1 = []).
Proof.
  intros Hc. rewrite !getHistory_eq.
  destruct (price_history_ b !! key) as [h|]; simpl.
  - eexists _, _, _, _. split; [reflexivity|]. split; [reflexivity|].
    assert (E : lastn c1 h = lastn c1 (lastn c2 h)).
    { rewrite lastn_lastn. f_equal. lia. }
    split; [exact E|]. split; [rewrite E; apply lastn_suffix|].
    rewrite !lastn_length. repeat split; try lia.
    intros ->. unfold lastn. rewrite Nat.sub_0_r. apply drop_all.
  - exists [], b, [], b. repeat split; simpl; try lia; reflexivity.
Qed.

Lemma windows_are_nested_witness :
  exists w1 b1 w2 b2,
    getHistory "X" 1 scenario_X_buffer = Some (w1, b1) /\
    getHistory "X" 5 scenario_X_buffer = Some (w2, b2) /\
    w1 = lastn 1 w2 /\ w1 `suffix_of` w2 /\
    length w1 <= 1 /\ length w2 <= 5 /\ b1 = b2 /\
    (1 = 0 -> w1 = []).
Proof. apply (windows_are_nested scenario_X_buffer "X" 1 5). lia. Defined.

Lemma wait_loop_result timeout_ms env waits b :
  exists signaled k b',
    wait_loop timeout_ms env waits b = Some (signaled, waits + k, b') /\
    signaled = wake_predicate b' /\
    k <= S (length env) /\
    (wake_predicate b = true -> k = 0) /\
    (wake_predicate b = false -> 1 <= k) /\
    run (flat_map others (take k env)) b = Some b'.
Proof.
  revert waits b. induction env as [|w env IH]; intros waits b; simpl.
  - destruct (wake_predicate b) eqn:Hp.
    + exists true, 0, b. rewrite Nat.add_0_r. repeat split; auto; lia.
    + exists false, 1, b. rewrite Nat.add_1_r, Hp.
      repeat split; auto; try lia; discriminate.
  - destruct (wake_predicate b) eqn:Hp.
    + exists true, 0, b. rewrite Nat.add_0_r. repeat split; auto; lia.
    + destruct (run_total (others w) b) as [b1 Hb1]. rewrite Hb1. simpl.
      case_decide.
      * exists (wake_predicate b1), 1, b1. rewrite Nat.add_1_r.
        split; [reflexivity|]. split; [reflexivity|]. split; [lia|].
        split; [discriminate|]. split; [lia|].
        simpl. rewrite ?take_0. simpl. rewrite ?app_nil_r. exact Hb1.
      * destruct (IH (S waits) b1) as (s & k & b' & H1 & H2 & H3 & _ & _ & H6).
        exists s, (S k), b'.
        replace (waits + S k) with (S waits + k) by lia.
        split; [exact H1|]. split; [exact H2|]. split; [lia|].
        split; [discriminate|]. split; [lia|].
        simpl. rewrite run_app, Hb1. exact H6.
Qed.

(** X5. [waitForData] always returns; its result is the value of the
    predicate [shutdown_ || total_writes_ > 0] at the moment it returns,
    whether it was woken or timed out; it blocks at most once more than it
    is woken; and it changes nothing in the buffer itself: the buffer at
    return is the buffer at entry after the calls the other threads
    completed meanwhile. *)
Theorem waitForData_returns_the_predicate (timeout_ms : Z) (env : list wake)
  (b : t) :
  exists signaled waits b',
    waitForData timeout_ms env b = Some (signaled, waits, b') /\
    signaled = wake_predicate b' /\
    waits <= S (length env) /\
    (waits = 0 <-> wake_predicate b = true) /\
    run (flat_map others (take waits env)) b = Some b'.
Proof.
  destruct (wait_loop_result timeout_ms env 0 b)
    as (s & k & b' & H1 & H2 & H3 & H4 & H5 & H6).
  exists s, k, b'. repeat split; auto.
  - intros ->. destruct (wake_predicate b); [reflexivity|].
    specialize (H5 eq_refl). lia.
Qed.

(** A waiter with a long timeout that is woken by a push of another thread
    after 7 ms returns [true]; with nothing happening it returns [false]. *)
Example waitForData_woken_by_push :
  option_map (fun r => fst (fst r))
    (waitForData 1000 [mkWake 7 [OPush (obs "X" 10 1)]] fresh_buffer)
  = Some true.
Proof. reflexivity. Qed.

Lemma exec_after_shutdown o b : exec o (shutdown b) = shutdown <$> exec o b.
Proof.
  destruct o; simpl; try reflexivity.
  - rewrite !getLatest_eq. simpl.
    destruct (price_history_ b !! sym ≫= last); reflexivity.
  - rewrite !getHistory_eq. simpl.
    destruct (price_history_ b !! sym); reflexivity.
Qed.

Lemma run_after_shutdown ops b : run ops (shutdown b) = shutdown <$> run ops b.
Proof.
  revert b. induction ops as [|o ops IH]; intros b; simpl; [reflexivity|].
  rewrite exec_after_shutdown.
  destruct (exec o b) as [b1|]; simpl; [apply IH | reflexivity].
Qed.

(** X6. [shutdown] only raises the flag; the buffer goes on working: after
    it every [push] is stored and counted and every read returns what it
    would have returned without the shutdown, so a sequence of calls made
    after [shutdown] leaves the buffer as the same calls made before it. *)
Theorem shutdown_does_not_stop_the_buffer (ops : list Op) (b : t) :
  run ops (shutdown b) = shutdown <$> run ops b /\
  (forall data,
     price_history_ (push data (shutdown b)) = price_history_ (push data b) /\
     total_writes_ (push data (shutdown b)) = total_writes_ (push data b)) /\
  (forall key data,
     (fun r => (fst (fst r), snd (fst r)))
       <$> getLatest key data (shutdown b) =
     (fun r => (fst (fst r), snd (fst r))) <$> getLatest key data b) /\
  (forall key count,
     fst <$> getHistory key count (shutdown b) =
     fst <$> getHistory key count b).
Proof.
  split; [apply run_after_shutdown|]. split; [auto|]. split.
  - intros key data. rewrite !getLatest_eq. simpl.
    destruct (price_history_ b !! key ≫= last); reflexivity.
  - intros key count. rewrite !getHistory_eq. simpl.
    destruct (price_history_ b !! key); reflexivity.
Qed.

Lemma run_shutdown_origin ops b0 b :
  run ops b0 = Some b -> shutdown_ b = true ->
  shutdown_ b0 = true \/ In OShutdown ops.
Proof.
  revert b0. induction ops as [|o ops IH]; intros b0; simpl.
  - intros [= <-]. auto.
  - destruct (exec o b0) as [b1|] eqn:E; [|discriminate]. simpl.
    intros Hrun Hs. destruct (IH b1 Hrun Hs) as [H|H]; [|auto].
    destruct (exec_counters _ _ _ E) as (_ & _ & Hf). rewrite Hf in H.
    destruct o; auto.
Qed.

(** X7. [isShutdown] reports whether [shutdown] has been called: after any
    sequence of calls on a fresh buffer it returns [true] exactly when one of
    them was [shutdown]; no other call sets or clears the flag, and
    [isShutdown] itself changes nothing. *)
Theorem isShutdown_iff_shutdown_called (cap : nat) (ops : list Op) :
  exists b, run ops (init cap) = Some b /\
    (fst (isShutdown b) = true <-> In OShutdown ops) /\
    snd (isShutdown b) = b.
Proof.
  destruct (run_total ops (init cap)) as [b Hb]. exists b.
  split; [exact Hb|]. split; [|reflexivity]. simpl. split.
  - intros Hs.
    destruct (run_shutdown_origin ops (init cap) b Hb Hs) as [H|H];
      [discriminate H | exact H].
  - intros Hin. apply (run_shutdown_called _ _ _ Hb Hin).
Qed.

(** X8. A buffer of capacity 0 stores nothing: after any sequence of calls
    every history is empty, [getLatest] returns [false] for every key and
    [getHistory] returns the empty vector for every key and count, although
    the pushed keys are listed by [getSymbols] and the pushes are counted. *)
Theorem capacity_0_stores_nothing (ops : list Op) :
  exists b, run ops (init 0) = Some b /\
    (forall key h, price_history_ b !! key = Some h -> h = []) /\
    (forall key data, getLatest key data b = Some (false, data, b)) /\
    (forall key count, fst <$> getHistory key count b = Some []) /\
    (forall key, key ∈ fst (getSymbols b) <-> pushed key ops <> []) /\
    total_writes_ b = (Z.of_nat (pushes ops) mod SIZE_MODULUS)%Z.
Proof.
  destruct (run_total ops (init 0)) as [b Hb]. exists b.
  split; [exact Hb|].
  assert (Hh : forall key h, price_history_ b !! key = Some h -> h = []).
  { intros key h Hk.
    destruct (run_init_history 0 ops b key Hb) as [_ Hk'].
    rewrite Hk in Hk'. destruct (pushed key ops); [discriminate|].
    injection Hk' as ->. unfold lastn. rewrite Nat.sub_0_r. apply drop_all. }
  split; [exact Hh|]. split; [|split; [|split]].
  - intros key data. rewrite getLatest_eq.
    destruct (price_history_ b !! key) as [h|] eqn:E; simpl; [|reflexivity].
    rewrite (Hh key h E). reflexivity.
  - intros key count. rewrite getHistory_eq.
    destruct (price_history_ b !! key) as [h|] eqn:E; simpl; [|reflexivity].
    rewrite (Hh key h E). reflexivity.
  - intros key. rewrite getSymbols_elem.
    destruct (run_init_history 0 ops b key Hb) as [_ ->].
    destruct (pushed key ops); split; try congruence; eauto.
    intros [? [=]].
  - apply (run_init_counters 0 ops b Hb).
Qed.

(** ** Threads: progress and order *)

Lemma step_of_owner c t th atomic :
  Threads.threads c !! t = Some th ->
  in_section (Threads.at_pc th) (Threads.buffer c) atomic ->
  is_Some (Threads.step t c).
Proof.
  intros Hth Hsec. unfold Threads.step. rewrite Hth. simpl.
  destruct (Threads.at_pc th); simpl in *; eauto.
  - destruct Hsec.
  - destruct (price_history_ (Threads.buffer c) !! sym); eauto.
  - destruct (Threads.stored sym (Threads.buffer c) !! i); eauto.
Qed.

(** X9. The threads never deadlock: in every configuration a schedule can
    reach, at most one thread is inside a critical section, and as long as
    some thread has work left some thread can take a step; a thread that
    cannot step is either finished or waits for the lock another thread
    owns. *)
Theorem threads_never_deadlock (cap : nat)
  (programs : list (list Threads.call)) (sched : list nat) :
  let c := Threads.schedule sched (Threads.start cap programs) in
  (forall t1 t2 th1 th2,
     Threads.threads c !! t1 = Some th1 ->
     Threads.threads c !! t2 = Some th2 ->
     Threads.at_pc th1 <> Threads.Idle ->
     Threads.at_pc th2 <> Threads.Idle -> t1 = t2) /\
  ((exists t th, Threads.threads c !! t = Some th /\ unfinished th) ->
   exists t c', Threads.step t c = Some c') /\
  (forall t th,
     Threads.threads c !! t = Some th -> Threads.step t c = None ->
     (Threads.todo th = [] /\ Threads.at_pc th = Threads.Idle) \/
     (exists owner, Threads.mutex_ c = Some owner /\ owner <> t)).
Proof.
  intros c.
  destruct (schedule_invariant cap sched (Threads.start cap programs)
              (invariant_start cap programs))
    as (atomic & Hrun & Hidle & Hlock & _).
  fold c in Hrun, Hidle, Hlock. split; [|split].
  - intros t1 t2 th1 th2 H1 H2 Hn1 Hn2.
    destruct (decide (Some t1 = Threads.mutex_ c)) as [E1|N1];
      [|destruct Hn1; apply (Hidle t1 th1 N1 H1)].
    destruct (decide (Some t2 = Threads.mutex_ c)) as [E2|N2];
      [|destruct Hn2; apply (Hidle t2 th2 N2 H2)].
    congruence.
  - intros (t & th & Hth & Hwork).
    destruct (Threads.mutex_ c) as [owner|] eqn:Hm.
    + destruct Hlock as (tho & Htho & Hsec).
      destruct (step_of_owner c owner tho atomic Htho Hsec) as [c' Hc'].
      eauto.
    + assert (Hpc : Threads.at_pc th = Threads.Idle)
        by (apply (Hidle t th); [discriminate | exact Hth]).
      destruct Hwork as [Htodo|Hn]; [|congruence].
      exists t. unfold Threads.step. rewrite Hth. simpl. rewrite Hpc, Hm.
      destruct (Threads.todo th); [congruence | eauto].
  - intros t th Hth Hstep.
    destruct (Threads.mutex_ c) as [owner|] eqn:Hm.
    + destruct (decide (owner = t)) as [->|Hne]; [|right; eauto].
      destruct Hlock as (tho & Htho & Hsec).
      destruct (step_of_owner c t tho atomic Htho Hsec) as [c' Hc'].
      congruence.
    + left.
      assert (Hpc : Threads.at_pc th = Threads.Idle)
        by (apply (Hidle t th); [discriminate | exact Hth]).
      split; [|exact Hpc].
      unfold Threads.step in Hstep. rewrite Hth in Hstep. simpl in Hstep.
      rewrite Hpc, Hm in Hstep. destruct (Threads.todo th); [auto|discriminate].
Qed.

Lemma threads_never_deadlock_witness :
  exists t c',
    Threads.step t (Threads.schedule mid_push (Threads.start 2 two_threads))
    = Some c'.
Proof.
  apply (proj1 (proj2 (threads_never_deadlock 2 two_threads mid_push))).
  exists 1. eexists. split; [vm_compute; reflexivity|].
  left. simpl. discriminate.
Defined.

(** What a step does to the thread that takes it and to the log: calls move
    from the program of the thread to the log, one at the release of the
    lock. *)
Lemma step_moves_calls tid c c' th :
  Threads.step tid c = Some c' ->
  Threads.threads c !! tid = Some th ->
  exists th' extra,
    Threads.threads c' = <[tid := th']> (Threads.threads c) /\
    Threads.log c' = Threads.log c ++ (op_of_call <$> extra) /\
    in_flight (Threads.at_pc th) ++ Threads.todo th =
      extra ++ in_flight (Threads.at_pc th') ++ Threads.todo th'.
Proof.
  unfold Threads.step. intros Hstep Hth. rewrite Hth in Hstep.
  simpl in Hstep.
  assert (Hsame : forall b' m th',
    in_flight (Threads.at_pc th) ++ Threads.todo th =
      in_flight (Threads.at_pc th') ++ Threads.todo th' ->
    Some (Threads.mkConfig b' m (<[tid := th']> (Threads.threads c))
            (Threads.log c)) = Some c' ->
    exists th'' extra,
      Threads.threads c' = <[tid := th'']> (Threads.threads c) /\
      Threads.log c' = Threads.log c ++ (op_of_call <$> extra) /\
      in_flight (Threads.at_pc th) ++ Threads.todo th =
        extra ++ in_flight (Threads.at_pc th'') ++ Threads.todo th'').
  { intros b' m th' Hmove [= <-]. exists th', []. simpl.
    rewrite app_nil_r. auto. }
  destruct (Threads.at_pc th) eqn:Hpc; simpl in Hstep.
  - destruct (Threads.todo th) as [|next rest] eqn:Ht; [discriminate|].
    destruct (Threads.mutex_ c); [discriminate|].
    eapply Hsame; [|exact Hstep]. simpl.
    destruct next; reflexivity.
  - eapply Hsame; [|exact Hstep]. reflexivity.
  - eapply Hsame; [|exact Hstep]. reflexivity.
  - eapply Hsame; [|exact Hstep]. reflexivity.
  - injection Hstep as <-. eexists _, [Threads.Push data]. simpl.
    auto.
  - destruct (price_history_ (Threads.buffer c) !! sym);
      (eapply Hsame; [|exact Hstep]); reflexivity.
  - destruct (Threads.stored sym (Threads.buffer c) !! i);
      (eapply Hsame; [|exact Hstep]); reflexivity.
  - eapply Hsame; [|exact Hstep]. reflexivity.
  - injection Hstep as <-. eexists _, [Threads.GetHistory sym count]. simpl.
    auto.
Qed.

Lemma step_in_program_order programs tid c c' :
  Threads.step tid c = Some c' ->
  in_program_order programs c -> in_program_order programs c'.
Proof.
  intros Hstep [Hlen Hinv].
  assert (Hsome : is_Some (Threads.threads c !! tid)).
  { unfold Threads.step in Hstep.
    destruct (Threads.threads c !! tid); [eauto | discriminate]. }
  destruct Hsome as [th Hth].
  destruct (step_moves_calls tid c c' th Hstep Hth)
    as (th' & extra & Hthreads & Hlog & Hmove).
  assert (Hlt : tid < length (Threads.threads c))
    by (apply lookup_lt_is_Some; eauto).
  split; [rewrite Hthreads, length_insert; exact Hlen|].
  intros t program Hprog.
  destruct (Hinv t program Hprog) as (th0 & done & Hth0 & Hp & Hsub).
  rewrite Hthreads, Hlog. destruct (decide (t = tid)) as [->|Hne].
  - rewrite Hth in Hth0. injection Hth0 as <-.
    exists th', (done ++ extra).
    rewrite list_lookup_insert_eq by exact Hlt. split; [reflexivity|].
    split.
    + rewrite Hp, Hmove, <- app_assoc. reflexivity.
    + rewrite fmap_app. apply sublist_app; [exact Hsub | reflexivity].
  - exists th0, done. rewrite list_lookup_insert_ne by congruence.
    split; [exact Hth0|]. split; [exact Hp|].
    apply sublist_inserts_r, Hsub.
Qed.

Lemma schedule_in_program_order programs sched c :
  in_program_order programs c ->
  in_program_order programs (Threads.schedule sched c).
Proof.
  revert c. induction sched as [|tid sched IH]; intros c Hc; simpl; [exact Hc|].
  apply IH. destruct (Threads.step tid c) as [c'|] eqn:E; simpl; [|exact Hc].
  apply (step_in_program_order programs tid c c' E Hc).
Qed.

Lemma start_in_program_order cap programs :
  in_program_order programs (Threads.start cap programs).
Proof.
  split; [simpl; apply length_fmap|].
  intros t program Hp. eexists _, []. simpl.
  rewrite list_lookup_fmap, Hp. simpl.
  split; [reflexivity|]. split; [reflexivity | apply sublist_nil_l].
Qed.

(** X10. The calls of the threads take effect one at a time and in the
    order of each program: whenever the lock is free the shared buffer is
    exactly what the completed calls give when they are run one after the
    other, in the order in which they released the lock, on a fresh buffer;
    the completed calls of every thread appear in that order as they stand
    in its program; and once all threads have finished, every program is
    contained in it in order. *)
Theorem completed_calls_take_effect_in_order (cap : nat)
  (programs : list (list Threads.call)) (sched : list nat) :
  let c := Threads.schedule sched (Threads.start cap programs) in
  (Threads.mutex_ c = None ->
     run (Threads.log c) (init cap) = Some (Threads.buffer c)) /\
  in_program_order programs c /\
  ((forall t th, Threads.threads c !! t = Some th -> ~ unfinished th) ->
   forall t program, programs !! t = Some program ->
     (op_of_call <$> program) `sublist_of` Threads.log c).
Proof.
  intros c.
  destruct (schedule_invariant cap sched (Threads.start cap programs)
              (invariant_start cap programs))
    as (atomic & Hrun & _ & Hlock & _).
  fold c in Hrun, Hlock.
  pose proof (schedule_in_program_order programs sched _
                (start_in_program_order cap programs)) as Horder.
  fold c in Horder. split; [|split; [exact Horder|]].
  - intros Hm. rewrite Hm in Hlock. congruence.
  - intros Hfin t program Hp.
    destruct Horder as [_ Hinv].
    destruct (Hinv t program Hp) as (th & done & Hth & Hprog & Hsub).
    assert (Htodo : Threads.todo th = [] /\ Threads.at_pc th = Threads.Idle).
    { specialize (Hfin t th Hth). unfold unfinished in Hfin.
      split.
      - destruct (Threads.todo th); [reflexivity|].
        destruct Hfin. left. discriminate.
      - destruct (Threads.at_pc th); try reflexivity;
          destruct Hfin; right; discriminate. }
    destruct Htodo as [E1 E2]. rewrite E1, E2 in Hprog. simpl in Hprog.
    rewrite app_nil_r in Hprog. subst program. exact Hsub.
Qed.

Lemma completed_calls_take_effect_in_order_witness :
  run (Threads.log (Threads.schedule interleaved (Threads.start 2 two_threads)))
    (init 2)
  = Some (Threads.buffer
            (Threads.schedule interleaved (Threads.start 2 two_threads))).
Proof.
  apply (proj1 (completed_calls_take_effect_in_order 2 two_threads
                  interleaved)).
  reflexivity.
Defined.

(** The log of that run: two pushes, a read, the third push, a read. *)
Example interleaved_log :
  Threads.log (Threads.schedule interleaved (Threads.start 2 two_threads))
  = [OPush (obs "X" 10 1); OPush (obs "X" 11 2); OGetHistory "X" 5;
     OPush (obs "X" 12 3); OGetHistory "X" 5].
Proof. reflexivity. Qed.

(** ** The performance monitor *)

Section Monitor.
Import PerformanceMonitor.

Lemma apply_calls_app calls1 calls2 m :
  apply_calls (calls1 ++ calls2) m = apply_calls calls2 (apply_calls calls1 m).
Proof. unfold apply_calls. apply fold_left_app. Qed.

Lemma generations_app calls1 calls2 :
  generations (calls1 ++ calls2) = generations calls1 + generations calls2.
Proof.
  induction calls1 as [|[] calls1 IH]; simpl; rewrite ?IH; reflexivity.
Qed.

Lemma calculations_app calls1 calls2 :
  calculations (calls1 ++ calls2) = calculations calls1 + calculations calls2.
Proof.
  induction calls1 as [|[] calls1 IH]; simpl; rewrite ?IH; reflexivity.
Qed.

Lemma processed_app sym calls1 calls2 :
  processed sym (calls1 ++ calls2)
  = processed sym calls1 ++ processed sym calls2.
Proof.
  induction calls1 as [|[] calls1 IH]; simpl; trivial.
  case_decide; simpl; congruence.
Qed.

(** The state of the monitor after any calls on a fresh one. *)
Lemma apply_calls_init now calls :
  let m := apply_calls calls (init now) in
  start_time_ m = now /\
  (total_generations_ m
   = Z.of_nat (generations calls) mod SharedBuffer.SIZE_MODULUS)%Z /\
  (total_calculations_ m
   = Z.of_nat (calculations calls) mod SharedBuffer.SIZE_MODULUS)%Z /\
  forall sym,
    latency_records_ m !! sym =
    match processed sym calls with
    | [] => None
    | entries => Some (record_of <$> entries)
    end.
Proof.
  induction calls as [|c calls IH] using rev_ind.
  - simpl. repeat split.
  - rewrite apply_calls_app. simpl.
    destruct IH as (Hs & Hg & Hc & Hr).
    set (m := apply_calls calls (init now)) in *.
    rewrite generations_app, calculations_app.
    destruct c as [sym ts|sym op g p]; simpl.
    + split; [exact Hs|]. split.
      { rewrite Nat.add_1_r. apply size_incr_mod, Hg. }
      split; [rewrite Nat.add_0_r; exact Hc|].
      intros s. rewrite processed_app. simpl. rewrite app_nil_r. apply Hr.
    + split; [exact Hs|]. split; [rewrite Nat.add_0_r; exact Hg|]. split.
      { rewrite Nat.add_1_r. apply size_incr_mod, Hc. }
      intros s. rewrite processed_app. simpl.
      destruct (decide (sym = s)) as [->|Hne].
      * rewrite lookup_insert_eq, Hr.
        destruct (processed s calls) as [|e l] eqn:E; simpl.
        -- reflexivity.
        -- do 2 f_equal. symmetry. apply (fmap_app record_of l [(op, g, p)]).
      * rewrite lookup_insert_ne by exact Hne. rewrite app_nil_r. apply Hr.
Qed.

Lemma latencies_of_records op entries :
  latencies_of op (record_of <$> entries) =
  stored_latency <$> filter (fun e => fst (fst e) = op) entries.
Proof.
  induction entries as [|e entries IH]; [reflexivity|].
  rewrite fmap_cons, filter_cons. cbn [latencies_of]. cbn beta.
  change (operation (record_of e)) with (fst (fst e)).
  change (latency_microseconds (record_of e)) with (stored_latency e).
  destruct (decide (e.1.1 = op)); rewrite IH; reflexivity.
Qed.

Lemma int64_sub_exact a b :
  (- 2 ^ 63 <= a - b < 2 ^ 63)%Z -> int64_sub a b = (a - b)%Z.
Proof.
  intros H. unfold int64_sub, wrap_int64.
  rewrite Z.mod_small by lia. lia.
Qed.

Lemma stored_latency_exact e :
  stamps_in_range e -> stored_latency e = latency_of e.
Proof.
  intros H. unfold stored_latency, latency_of.
  rewrite int64_sub_exact by exact H. reflexivity.
Qed.

Lemma stored_latencies_exact op (entries : list (string * Z * Z)) :
  (forall e, e ∈ entries -> fst (fst e) = op -> stamps_in_range e) ->
  stored_latency <$> filter (fun e => fst (fst e) = op) entries =
  latency_of <$> filter (fun e => fst (fst e) = op) entries.
Proof.
  intros H. induction entries as [|e entries IH]; [reflexivity|].
  rewrite filter_cons.
  assert (IH' : stored_latency <$> filter (fun e => e.1.1 = op) entries =
                latency_of <$> filter (fun e => e.1.1 = op) entries).
  { apply IH. intros x Hx. apply H. right. exact Hx. }
  destruct (decide (e.1.1 = op)) as [He|He]; [|exact IH'].
  rewrite !fmap_cons, IH', stored_latency_exact; [reflexivity|].
  apply H; [left | exact He].
Qed.

Lemma stats_of_count latencies :
  sample_count (stats_of latencies) = length latencies.
Proof. destruct latencies; reflexivity. Qed.

Lemma min_element_from_elem smallest l :
  min_element_from smallest l ∈ smallest :: l.
Proof.
  revert smallest. induction l as [|x l IH]; intros smallest; simpl.
  - left.
  - specialize (IH (if (x <? smallest)%float then x else smallest)).
    apply elem_of_cons in IH. destruct IH as [->|IH].
    + destruct (x <? smallest)%float; [right; left | left].
    + right. right. exact IH.
Qed.

Lemma max_element_from_elem largest l :
  max_element_from largest l ∈ largest :: l.
Proof.
  revert largest. induction l as [|x l IH]; intros largest; simpl.
  - left.
  - specialize (IH (if (largest <? x)%float then x else largest)).
    apply elem_of_cons in IH. destruct IH as [->|IH].
    + destruct (largest <? x)%float; [right; left | left].
    + right. right. exact IH.
Qed.

End Monitor.

Lemma getSystemStats_apply_calls now calls later :
  PerformanceMonitor.getSystemStats later
    (PerformanceMonitor.apply_calls calls (PerformanceMonitor.init now)) =
  ((Z.of_nat (generations calls) mod SIZE_MODULUS)%Z,
   (Z.of_nat (calculations calls) mod SIZE_MODULUS)%Z,
   double_of_Z (Z.quot (later - now) 1000000000)).
Proof.
  destruct (apply_calls_init now calls) as (Hs & Hg & Hc & _).
  unfold PerformanceMonitor.getSystemStats. rewrite Hs, Hg, Hc. reflexivity.
Qed.

(** X11. The monitor counts its calls: after any calls on a fresh monitor,
    [getSystemStats] reports the number of [recordGeneration] calls and the
    number of [recordProcessing] calls (as [size_t] values, exact below
    [2^64]) and the whole seconds since the monitor was constructed. *)
Theorem getSystemStats_counts_calls (now : Z) (calls : list monitor_call) :
  let m := PerformanceMonitor.apply_calls calls (PerformanceMonitor.init now) in
  forall later,
    PerformanceMonitor.getSystemStats later m =
    ((Z.of_nat (generations calls) mod SIZE_MODULUS)%Z,
     (Z.of_nat (calculations calls) mod SIZE_MODULUS)%Z,
     double_of_Z (Z.quot (later - now) 1000000000)) /\
    ((Z.of_nat (generations calls) < SIZE_MODULUS)%Z ->
     fst (fst (PerformanceMonitor.getSystemStats later m))
       = Z.of_nat (generations calls)) /\
    ((Z.of_nat (calculations calls) < SIZE_MODULUS)%Z ->
     snd (fst (PerformanceMonitor.getSystemStats later m))
       = Z.of_nat (calculations calls)).
Proof.
  intros m later. unfold m. rewrite getSystemStats_apply_calls.
  split; [reflexivity|]. cbn [fst snd].
  split; intros H; apply Z.mod_small; lia.
Qed.

Lemma getSystemStats_counts_calls_witness :
  PerformanceMonitor.getSystemStats 2500000000
    (PerformanceMonitor.apply_calls three_calls (PerformanceMonitor.init 0))
  = (2%Z, 1%Z, 2%float).
Proof.
  destruct (getSystemStats_counts_calls 0 three_calls 2500000000)
    as (H & _ & _).
  rewrite H. reflexivity.
Defined.

(** X12. [getLatencyStats] answers from the [recordProcessing] calls made
    for the symbol with the operation.  When the two time stamps of each of
    these calls are less than [2^63] nanoseconds apart (their difference
    fits the 64-bit count of a duration), the sample count is the number of
    these calls, the statistics are those of their latencies, each the whole
    microseconds between generation and processing, the minimum and the
    maximum are two of these latencies, and when there is no such call
    (unknown symbol, or operation never recorded for it) all four outputs
    are zero. *)
Theorem getLatencyStats_of_recorded_calls (now : Z)
  (calls : list monitor_call) (sym op : string) :
  (forall e, e ∈ processed sym calls -> fst (fst e) = op ->
     stamps_in_range e) ->
  let m := PerformanceMonitor.apply_calls calls (PerformanceMonitor.init now) in
  let latencies := latencies_for sym op calls in
  let stats := PerformanceMonitor.getLatencyStats sym op m in
  stats = PerformanceMonitor.stats_of latencies /\
  PerformanceMonitor.sample_count stats = length latencies /\
  (latencies = [] -> stats = PerformanceMonitor.no_stats) /\
  (latencies <> [] ->
     PerformanceMonitor.min_latency stats ∈ latencies /\
     PerformanceMonitor.max_latency stats ∈ latencies /\
     PerformanceMonitor.avg_latency stats =
       (fold_left PrimFloat.add latencies 0
        / double_of_size (length latencies))%float).
Proof.
  intros Hrange m latencies stats.
  assert (E : stats = PerformanceMonitor.stats_of latencies).
  { unfold stats, PerformanceMonitor.getLatencyStats.
    destruct (apply_calls_init now calls) as (_ & _ & _ & Hr).
    fold m in Hr. rewrite (Hr sym). unfold latencies, latencies_for.
    destruct (processed sym calls) as [|e l] eqn:Ep; [reflexivity|].
    rewrite latencies_of_records, (stored_latencies_exact op _ Hrange).
    reflexivity. }
  split; [exact E|]. rewrite E. split; [apply stats_of_count|]. split.
  - intros ->. reflexivity.
  - intros Hne. destruct latencies as [|x l]; [congruence|]. simpl.
    split; [apply min_element_from_elem|].
    split; [apply max_element_from_elem | reflexivity].
Qed.

Lemma latency_calls_in_range e :
  e ∈ processed "X" latency_calls -> fst (fst e) = "SMA" ->
  stamps_in_range e.
Proof.
  intros He _. apply list_elem_of_In in He. cbn in He.
  destruct He as [<-|[<-|[<-|[]]]]; unfold stamps_in_range; cbn; lia.
Qed.

Lemma getLatencyStats_of_recorded_calls_witness :
  PerformanceMonitor.getLatencyStats "X" "SMA"
    (PerformanceMonitor.apply_calls latency_calls (PerformanceMonitor.init 0))
  = PerformanceMonitor.mkLatencyStats 1500 4000 2750 2 /\
  PerformanceMonitor.getLatencyStats "Y" "SMA"
    (PerformanceMonitor.apply_calls latency_calls (PerformanceMonitor.init 0))
  = PerformanceMonitor.no_stats.
Proof.
  split.
  - rewrite (proj1 (getLatencyStats_of_recorded_calls 0 latency_calls
                      "X" "SMA" latency_calls_in_range)).
    reflexivity.
  - apply (getLatencyStats_of_recorded_calls 0 latency_calls "Y" "SMA").
    + intros e He. apply elem_of_nil in He. destruct He.
    + reflexivity.
Defined.

(** Time stamps [2^63] nanoseconds apart: the 64-bit difference is
    [- 2^63], and the latency stored is negative. *)
Example latency_of_stamps_too_far_apart :
  PerformanceMonitor.getLatencyStats "X" "SMA"
    (PerformanceMonitor.apply_calls
       [RecordProcessing "X" "SMA" (- 2 ^ 62) (2 ^ 62)]
       (PerformanceMonitor.init 0))
  = PerformanceMonitor.mkLatencyStats
      (-9223372036854776) (-9223372036854776) (-9223372036854776) 1.
Proof. vm_compute. reflexivity. Qed.

Section Report.
Import PerformanceMonitor.

Lemma unique_operations_elem op records acc :
  op ∈ unique_operations records acc <->
  op ∈ acc \/ exists r, r ∈ records /\ operation r = op.
Proof.
  revert acc. induction records as [|r records IH]; intros acc; simpl.
  - split; [auto|]. intros [H|(r & Hr & _)]; [exact H | inversion Hr].
  - rewrite IH. split.
    + intros [H|(r' & Hr' & E)].
      * case_decide; [auto|]. apply elem_of_app in H.
        destruct H as [H|H]; [auto|]. apply list_elem_of_singleton in H.
        right. exists r. split; [left | congruence].
      * right. exists r'. split; [right; exact Hr' | exact E].
    + intros [H|(r' & Hr' & E)].
      * left. case_decide; [exact H|]. apply elem_of_app. auto.
      * apply elem_of_cons in Hr'. destruct Hr' as [->|Hr'].
        -- left. case_decide; [congruence|].
           apply elem_of_app. right. rewrite E. left.
        -- right. eauto.
Qed.

Lemma unique_operations_NoDup records acc :
  NoDup acc -> NoDup (unique_operations records acc).
Proof.
  revert acc. induction records as [|r records IH]; intros acc H; simpl.
  - exact H.
  - apply IH. case_decide; [exact H|].
    apply NoDup_app. split; [exact H|]. split.
    + intros x Hx Hx'. apply list_elem_of_singleton in Hx'. congruence.
    + apply NoDup_singleton.
Qed.

Lemma latencies_of_nonempty op records :
  latencies_of op records <> [] <->
  exists r, r ∈ records /\ operation r = op.
Proof.
  induction records as [|r records IH]; simpl.
  - split; [congruence|]. intros (r & Hr & _). inversion Hr.
  - case_decide as E.
    + split; [|discriminate]. intros _. exists r. split; [left | exact E].
    + rewrite IH. split.
      * intros (r' & Hr' & E'). exists r'. split; [right; exact Hr' | exact E'].
      * intros (r' & Hr' & E'). apply elem_of_cons in Hr'.
        destruct Hr' as [->|Hr']; [congruence | eauto].
Qed.

Lemma report_rows_of_elem sym records row :
  row ∈ report_rows_of sym records <->
  fst (fst row) = sym /\
  latencies_of (snd (fst row)) records <> [] /\
  snd row = stats_of (latencies_of (snd (fst row)) records).
Proof.
  unfold report_rows_of. rewrite list_elem_of_In, in_flat_map. split.
  - intros (op & _ & Hin).
    destruct (latencies_of op records) as [|x l] eqn:E; [destruct Hin|].
    destruct Hin as [<-|[]]. simpl. rewrite E. auto.
  - destruct row as [[s op] st]. simpl. intros (-> & Hne & ->).
    exists op. split.
    + apply list_elem_of_In, unique_operations_elem. right.
      apply latencies_of_nonempty, Hne.
    + destruct (latencies_of op records); [congruence | left; reflexivity].
Qed.

Lemma report_rows_elem m row :
  row ∈ report_rows m <->
  exists records,
    latency_records_ m !! fst (fst row) = Some records /\
    latencies_of (snd (fst row)) records <> [] /\
    snd row = stats_of (latencies_of (snd (fst row)) records).
Proof.
  unfold report_rows. rewrite list_elem_of_In, in_flat_map. split.
  - intros ([s records] & Hin & Hrow). simpl in Hrow.
    apply list_elem_of_In in Hin, Hrow.
    rewrite merge_sort_Permutation in Hin. apply elem_of_map_to_list in Hin.
    apply report_rows_of_elem in Hrow. destruct Hrow as (<- & H1 & H2).
    eauto.
  - intros (records & Hl & H1 & H2).
    exists (fst (fst row), records). split.
    + apply list_elem_of_In. rewrite merge_sort_Permutation.
      apply elem_of_map_to_list, Hl.
    + apply list_elem_of_In, report_rows_of_elem. auto.
Qed.

End Report.

(** X13. The latency table of [printReport] agrees with [getLatencyStats]:
    for every state of the monitor it has a line for a symbol and an
    operation exactly when [getLatencyStats] finds at least one sample for
    them, and the line then shows the statistics [getLatencyStats]
    returns. *)
Theorem printReport_agrees_with_getLatencyStats (m : PerformanceMonitor.t)
  (sym op : string) (stats : PerformanceMonitor.LatencyStats) :
  (sym, op, stats) ∈ PerformanceMonitor.report_rows m <->
  1 <= PerformanceMonitor.sample_count
         (PerformanceMonitor.getLatencyStats sym op m) /\
  stats = PerformanceMonitor.getLatencyStats sym op m.
Proof.
  rewrite report_rows_elem. simpl.
  unfold PerformanceMonitor.getLatencyStats. split.
  - intros (records & -> & Hne & ->). rewrite stats_of_count.
    split; [|reflexivity].
    destruct (PerformanceMonitor.latencies_of op records);
      [congruence | simpl; lia].
  - destruct (PerformanceMonitor.latency_records_ m !! sym) as [records|];
      [|simpl; lia].
    rewrite stats_of_count. intros [Hc ->]. exists records.
    split; [reflexivity|]. split; [|reflexivity].
    intros E. rewrite E in Hc. simpl in Hc. lia.
Qed.

Example report_of_latency_calls :
  PerformanceMonitor.report_rows
    (PerformanceMonitor.apply_calls latency_calls (PerformanceMonitor.init 0))
  = [("X", "SMA", PerformanceMonitor.mkLatencyStats 1500 4000 2750 2);
     ("X", "Volatility", PerformanceMonitor.mkLatencyStats 250 250 250 1)].
Proof. vm_compute. reflexivity. Qed.

(** ** The producer, again *)




Lemma is_nan_true x : is_nan x = true <-> Prim2SF x = S754_nan.
Proof.
  split.
  - intros H. destruct (Prim2SF x) eqn:E; trivial;
      assert (is_nan x = false) by (apply is_nan_false; congruence);
      congruence.
  - intros H. destruct (is_nan x) eqn:E; [reflexivity|].
    apply is_nan_false in E. contradiction.
Qed.

Lemma add_nan x y :
  is_nan x = true \/ is_nan y = true -> is_nan (x + y) = true.
Proof.
  rewrite !is_nan_true, add_spec. unfold SF64add, SFadd.
  intros [->| ->]; [reflexivity|]. destruct (Prim2SF x); reflexivity.
Qed.

Lemma clamp_nan p : is_nan p = true -> clamp p = p.
Proof.
  rewrite is_nan_true. intros H. unfold clamp.
  rewrite ltb_spec, H. reflexivity.
Qed.

Lemma price_after_nan (init_draw : nat -> float)
  (noise : nat -> nat -> float) (k i : nat) :
  is_nan (price_after init_draw noise k i) = true \/
  is_nan (noise k i) = true ->
  forall j, k < j ->
    is_nan (price_after init_draw noise j i) = true /\
    (1 <=? price_after init_draw noise j i)%float = false.
Proof.
  intros H j Hj.
  assert (Hnan : is_nan (price_after init_draw noise j i) = true).
  { induction j as [|j IH]; [lia|]. simpl.
    assert (Hsum : is_nan (price_after init_draw noise j i + noise j i)
                   = true).
    { apply add_nan. destruct (decide (j = k)) as [->|Hne]; [exact H|].
      left. apply IH. lia. }
    rewrite (clamp_nan _ Hsum). exact Hsum. }
  split; [exact Hnan|].
  apply is_nan_true in Hnan. rewrite leb_spec, Hnan. reflexivity.
Qed.

(** X15. The floor does not repair a value that is not a number.  If the
    noise drawn for a symbol in iteration [k] of the producer's loop is not
    a number (or its initial price is not, with [k = 0]), then in iteration
    [k] and in every later one the producer pushes for that symbol an
    observation whose price is not a number, hence not at least 1.0, and
    the price it holds for the symbol when the loop ends is not a number
    either. *)
Theorem producer_keeps_nan (symbols : list string)
  (init_draw : nat -> float) (noise : nat -> nat -> float)
  (clock : nat -> nat -> Z) (rounds : nat) (b : SharedBuffer.t)
  (k i : nat) (sym : string) :
  symbols !! i = Some sym ->
  is_nan (noise k i) = true \/ (k = 0 /\ is_nan (init_draw i) = true) ->
  exists g' b' calls,
    PriceGenerator.run noise clock rounds
      (PriceGenerator.make symbols init_draw) b = Some (g', b', calls) /\
    (forall j, k <= j < rounds ->
       exists p,
         PriceGenerator.CallPush
           (PriceData_make sym p (noise j i) (clock j i)) ∈ calls /\
         is_nan p = true /\ (1 <=? p)%float = false) /\
    (k < rounds ->
       exists p, PriceGenerator.current_prices_ g' !! i = Some p /\
         is_nan p = true).
Proof.
  intros Hsym Hnan.
  assert (Hlater : forall j, k < j ->
            is_nan (price_after init_draw noise j i) = true /\
            (1 <=? price_after init_draw noise j i)%float = false).
  { apply price_after_nan. destruct Hnan as [H|[-> H]]; [right | left]; exact H. }
  destruct (run_loop_spec symbols init_draw noise clock rounds 0
              (PriceGenerator.make symbols init_draw) b [])
    as (g' & b' & H1 & [_ H2] & _); [apply make_prices_at|].
  exists g', b', (flat_map push_then_record
                    (generated symbols init_draw noise clock rounds)).
  split; [exact H1|]. split.
  - intros j Hj. exists (price_after init_draw noise (S j) i).
    destruct (Hlater (S j)) as [Hn Hl]; [lia|].
    split; [|split; assumption].
    apply list_elem_of_In, in_flat_map.
    exists (PriceData_make sym (price_after init_draw noise (S j) i)
              (noise j i) (clock j i)).
    split; [|left; reflexivity].
    apply in_flat_map. exists j. split; [apply in_seq; lia|].
    apply list_elem_of_In, list_elem_of_lookup. exists i.
    apply round_data_lookup, Hsym.
  - intros Hk. exists (price_after init_draw noise rounds i).
    split; [|apply Hlater, Hk].
    rewrite (H2 i) by (apply lookup_lt_is_Some; eauto).
    rewrite decide_False by lia. reflexivity.
Qed.

Lemma producer_keeps_nan_witness :
  exists g' b' calls,
    PriceGenerator.run
      (fun k _ => match k with 1 => nan | _ => 1%float end)
      (fun k _ => Z.of_nat k) 3
      (PriceGenerator.make ["X"] (fun _ => 100%float)) fresh_buffer
      = Some (g', b', calls) /\
    (forall j, 1 <= j < 3 ->
       exists p,
         PriceGenerator.CallPush
           (PriceData_make "X" p
              (match j with 1 => nan | _ => 1%float end) (Z.of_nat j))
           ∈ calls /\
         is_nan p = true /\ (1 <=? p)%float = false) /\
    (1 < 3 ->
       exists p, PriceGenerator.current_prices_ g' !! 0 = Some p /\
         is_nan p = true).
Proof.
  apply (producer_keeps_nan ["X"] (fun _ => 100%float)
           (fun k _ => match k with 1 => nan | _ => 1%float end)
           (fun k _ => Z.of_nat k) 3 fresh_buffer 1 0 "X").
  - reflexivity.
  - left. reflexivity.
Defined.

(** A draw that is not a number in the second of three iterations: the
    prices pushed are 101, not a number, not a number. *)
Example nan_draw_pushed :
  match PriceGenerator.run
          (fun k _ => match k with 1 => nan | _ => 1%float end)
          (fun k _ => Z.of_nat k) 3
          (PriceGenerator.make ["X"] (fun _ => 100%float)) fresh_buffer
  with
  | Some (_, b', _) =>
      option_map
        (fun r => map (fun data =>
                         (is_nan (price data), (1 <=? price data)%float))
                    (fst r))
        (getHistory "X" 3 b')
  | None => None
  end
  = Some [(false, true); (true, false); (true, false)].
Proof. vm_compute. reflexivity. Qed.

(** ** [start()] and [stop()] *)

Lemma worker_run_app calls1 calls2 w :
  Worker.run (calls1 ++ calls2) w = Worker.run calls1 w ≫= Worker.run calls2.
Proof.
  revert w. induction calls1 as [|c calls1 IH]; intros w; simpl; [reflexivity|].
  destruct (Worker.exec c w); simpl; [apply IH | reflexivity].
Qed.

(** From a state in which the flag is set exactly when [thread_] is
    joinable, any calls succeed and lead to such a state. *)
Lemma worker_run_spec calls w :
  (Worker.running_ w = true <-> is_Some (Worker.thread_ w)) ->
  exists w', Worker.run calls w = Some w' /\
    (Worker.running_ w' = true <-> is_Some (Worker.thread_ w')) /\
    Worker.spawned w' = Worker.spawned w + spawns calls (Worker.running_ w) /\
    Worker.running_ w' =
      match last calls with
      | Some Worker.Start => true
      | Some Worker.Stop => false
      | None => Worker.running_ w
      end.
Proof.
  revert w. induction calls as [|c calls IH]; intros w Hw; simpl.
  - exists w. rewrite Nat.add_0_r. auto.
  - assert (Hstep : exists w1, Worker.exec c w = Some w1 /\
      (Worker.running_ w1 = true <-> is_Some (Worker.thread_ w1)) /\
      Worker.running_ w1 = match c with Worker.Start => true | _ => false end /\
      Worker.spawned w1 = Worker.spawned w +
        match c with
        | Worker.Start => if Worker.running_ w then 0 else 1
        | Worker.Stop => 0
        end).
    { destruct c; simpl; unfold Worker.start, Worker.stop.
      - destruct (Worker.running_ w) eqn:Hr.
        + exists w. rewrite Hr. repeat split; try tauto; lia.
        + destruct (Worker.thread_ w) eqn:Ht.
          * destruct Hw as [_ Hw]. discriminate Hw. eauto.
          * eexists. split; [reflexivity|]. simpl.
            repeat split; eauto; lia.
      - destruct (Worker.running_ w) eqn:Hr.
        + destruct (Worker.thread_ w); eexists; (split; [reflexivity|]);
            simpl; repeat split; try discriminate; try lia;
            intros [? [=]].
        + exists w. rewrite Hr. repeat split; try tauto; lia. }
    destruct Hstep as (w1 & He & Hinv & Hrun & Hsp).
    rewrite He. simpl. destruct (IH w1 Hinv) as (w' & H1 & H2 & H3 & H4).
    exists w'. split; [exact H1|]. split; [exact H2|]. split.
    + rewrite H3, Hsp, Hrun. destruct c; simpl; lia.
    + rewrite H4. destruct calls as [|c' calls].
      * simpl. rewrite Hrun. destruct c; reflexivity.
      * change (last (c :: c' :: calls)) with (last (c' :: calls)).
        destruct (last (c' :: calls)) eqn:E; [reflexivity|].
        apply last_None in E. discriminate.
Qed.

Lemma worker_start_start w w1 :
  Worker.start w = Some w1 -> Worker.start w1 = Some w1.
Proof.
  unfold Worker.start. destruct (Worker.running_ w) eqn:Hr.
  - intros [= <-]. rewrite Hr. reflexivity.
  - destruct (Worker.thread_ w); [discriminate|]. intros [= <-]. reflexivity.
Qed.

Lemma worker_stop_stop w : Worker.stop (Worker.stop w) = Worker.stop w.
Proof.
  unfold Worker.stop. destruct (Worker.running_ w) eqn:Hr.
  - destruct (Worker.thread_ w); reflexivity.
  - rewrite Hr. reflexivity.
Qed.

(** X16. [start()] and [stop()], called one after the other in any order on
    a new worker, never assign to a joinable thread (no [std::terminate]);
    the flag is set exactly while a thread is joinable, and it is set exactly
    when the last call was [start()]; a [start()] creates a thread only when
    none runs, so a second [start()] or a second [stop()] in a row changes
    nothing, [stop()] on a worker never started changes nothing, and after a
    [stop()] (the destructor calls it) no joinable thread is left. *)
Theorem start_and_stop_are_idempotent (calls : list Worker.call) :
  exists w, Worker.run calls Worker.init = Some w /\
    (Worker.running_ w = true <-> is_Some (Worker.thread_ w)) /\
    (Worker.running_ w = true <-> last calls = Some Worker.Start) /\
    Worker.spawned w = spawns calls false /\
    Worker.run (calls ++ [Worker.Start; Worker.Start]) Worker.init =
      Worker.run (calls ++ [Worker.Start]) Worker.init /\
    Worker.run (calls ++ [Worker.Stop; Worker.Stop]) Worker.init =
      Worker.run (calls ++ [Worker.Stop]) Worker.init /\
    (exists w', Worker.run (calls ++ [Worker.Stop]) Worker.init = Some w' /\
       Worker.thread_ w' = None /\ Worker.running_ w' = false) /\
    Worker.stop Worker.init = Worker.init.
Proof.
  assert (Hinit : Worker.running_ Worker.init = true <->
                  is_Some (Worker.thread_ Worker.init)).
  { simpl. split; [discriminate | intros [? [=]]]. }
  destruct (worker_run_spec calls Worker.init Hinit)
    as (w & H1 & H2 & H3 & H4).
  exists w. split; [exact H1|]. split; [exact H2|]. split; [|split].
  - rewrite H4. simpl.
    destruct (last calls) as [[]|]; split; congruence.
  - exact H3.
  - rewrite !worker_run_app, H1. cbn [mbind option_bind Worker.run Worker.exec].
    split; [|split; [|split]].
    + destruct (Worker.start w) as [w1|] eqn:Hs; [|reflexivity].
      cbn [mbind option_bind]. rewrite (worker_start_start _ _ Hs).
      reflexivity.
    + rewrite worker_stop_stop. reflexivity.
    + exists (Worker.stop w). split; [reflexivity|].
      unfold Worker.stop. destruct (Worker.running_ w) eqn:Hr.
      * destruct (Worker.thread_ w); auto.
      * split; [|exact Hr]. destruct (Worker.thread_ w); [|reflexivity].
        destruct H2 as [_ H2]. discriminate H2. eauto.
    + reflexivity.
Qed.

(** Started twice, stopped, started again and destroyed: two threads. *)
Example worker_restarted :
  option_map (fun w => (Worker.running_ w, Worker.thread_ w, Worker.spawned w))
    (Worker.run [Worker.Start; Worker.Start; Worker.Stop; Worker.Start;
                 Worker.Stop] Worker.init)
  = Some (false, None, 2).
Proof. reflexivity. Qed.

(** ** The loops of the consumers *)

Lemma report_of_cases op min_len count sym now b :
  report_of op min_len count sym now b = [] \/
  min_len <= count /\
  exists back,
    report_of op min_len count sym now b =
      [RecordProcessing sym op (timestamp back) now].
Proof.
  unfold report_of.
  destruct (last (lastn count (default [] (price_history_ b !! sym))))
    as [back|]; [|auto].
  case_decide as Hlen; [auto|]. right.
  rewrite lastn_length in Hlen. split; [lia | eauto].
Qed.

Lemma report_of_ext op min_len count sym now b b' :
  price_history_ b' = price_history_ b ->
  report_of op min_len count sym now b' = report_of op min_len count sym now b.
Proof. unfold report_of. intros ->. reflexivity. Qed.

Lemma exec_getHistory sym count b :
  exec (OGetHistory sym count) b =
  Some (mk (price_history_ b) (max_history_size_ b) (shutdown_ b)
          (total_writes_ b)
          (if bool_decide (is_Some (price_history_ b !! sym))
           then size_incr (total_reads_ b) else total_reads_ b)).
Proof.
  cbn [exec]. rewrite getHistory_eq.
  destruct (price_history_ b !! sym) as [h|] eqn:E; cbn.
  - rewrite ?bool_decide_eq_true_2 by eauto. reflexivity.
  - rewrite ?bool_decide_eq_false_2 by (intros [? [=]]).
    destruct b; reflexivity.
Qed.

Section ConsumerRound.

Context {A : Type}.
Variable process :
  string -> Z -> SharedBuffer.t ->
  option (option A * SharedBuffer.t * list monitor_call).
Variable for_symbols :
  (nat -> list Op) -> (nat -> Z) -> nat -> list string ->
  SharedBuffer.t * list monitor_call ->
  option (SharedBuffer.t * list monitor_call).
Variables (op : string) (min_len count : nat).

Hypothesis for_symbols_nil : forall others clock i st,
  for_symbols others clock i [] st = Some st.
Hypothesis for_symbols_cons : forall others clock i sym symbols st,
  for_symbols others clock i (sym :: symbols) st =
    b ← SharedBuffer.run (others i) (fst st);
    r ← process sym (clock i) b;
    for_symbols others clock (S i) symbols (snd (fst r), snd st ++ snd r).
Hypothesis process_spec : forall sym now b,
  exists ind b1,
    process sym now b = Some (ind, b1, report_of op min_len count sym now b) /\
    exec (OGetHistory sym count) b = Some b1.

Lemma consumer_for_symbols others clock i symbols b acc :
  exists b' reports syms,
    for_symbols others clock i symbols (b, acc) = Some (b', acc ++ reports) /\
    run (consumer_ops count others i symbols) b = Some b' /\
    Forall2 (is_report op) reports syms /\
    syms `sublist_of` symbols /\
    (count < min_len -> reports = []).
Proof.
  revert i b acc. induction symbols as [|sym symbols IH]; intros i b acc.
  - exists b, [], []. rewrite for_symbols_nil, app_nil_r.
    repeat split; auto.
  - rewrite for_symbols_cons. cbn [fst snd consumer_ops].
    destruct (run_total (others i) b) as [b1 Hb1].
    destruct (process_spec sym (clock i) b1) as (ind & b2 & Hp & Hb2).
    destruct (IH (S i) b2 (acc ++ report_of op min_len count sym (clock i) b1))
      as (b' & reports & syms & Hf & Hrun & Hall & Hsub & Hshort).
    rewrite Hb1. cbn [mbind option_bind]. rewrite Hp.
    cbn [mbind option_bind fst snd]. rewrite Hf, <- app_assoc.
    rewrite run_app, Hb1. cbn [mbind option_bind run]. rewrite Hb2.
    cbn [mbind option_bind].
    destruct (report_of_cases op min_len count sym (clock i) b1)
      as [Hr | [Hlen [back Hr]]]; rewrite Hr.
    + exists b', reports, syms. repeat split; auto.
      apply sublist_cons, Hsub.
    + exists b',
        (RecordProcessing sym op (timestamp back) (clock i) :: reports),
        (sym :: syms).
      repeat split; auto.
      * constructor; [|exact Hall]. do 2 eexists. reflexivity.
      * apply sublist_skip, Hsub.
      * lia.
Qed.

Lemma consumer_for_symbols_quiet clock i symbols b acc :
  exists b',
    for_symbols (fun _ => []) clock i symbols (b, acc) =
      Some (b', acc ++ concat (imap (fun j sym =>
                  report_of op min_len count sym (clock (i + j)) b) symbols)) /\
    price_history_ b' = price_history_ b /\
    max_history_size_ b' = max_history_size_ b /\
    shutdown_ b' = shutdown_ b /\
    total_writes_ b' = total_writes_ b /\
    ((forall sym, sym ∈ symbols -> is_Some (price_history_ b !! sym)) ->
     total_reads_ b' = Nat.iter (length symbols) size_incr (total_reads_ b)).
Proof.
  revert i b acc. induction symbols as [|sym symbols IH]; intros i b acc.
  - exists b. rewrite for_symbols_nil. cbn. rewrite app_nil_r. auto 6.
  - rewrite for_symbols_cons. cbn [fst snd run mbind option_bind].
    destruct (process_spec sym (clock i) b) as (ind & b1 & Hp & Hb1).
    rewrite Hp. cbn [mbind option_bind fst snd].
    rewrite exec_getHistory in Hb1. injection Hb1 as Hb1.
    destruct (IH (S i) b1 (acc ++ report_of op min_len count sym (clock i) b))
      as (b' & Hf & Hh & Hm & Hs & Hw & Hr).
    assert (Hh1 : price_history_ b1 = price_history_ b)
      by (subst b1; reflexivity).
    exists b'. split; [|split; [|split; [|split; [|split]]]].
    + assert (Himap :
        imap (fun j s => report_of op min_len count s (clock (S i + j)) b1)
          symbols =
        imap ((fun j s => report_of op min_len count s (clock (i + j)) b) ∘ S)
          symbols).
      { apply imap_ext. intros j x _. cbn.
        rewrite (report_of_ext _ _ _ _ _ b b1 Hh1).
        replace (i + S j) with (S (i + j)) by lia. reflexivity. }
      rewrite Hf, <- app_assoc, Himap. cbn [imap concat].
      rewrite Nat.add_0_r. reflexivity.
    + congruence.
    + rewrite Hm. subst b1. reflexivity.
    + rewrite Hs. subst b1. reflexivity.
    + rewrite Hw. subst b1. reflexivity.
    + intros Hkeys. rewrite Hr.
      * cbn [length]. rewrite Nat.iter_succ_r. f_equal. subst b1. cbn.
        rewrite bool_decide_eq_true_2; [reflexivity|].
        apply Hkeys. left.
      * intros s Hs'. rewrite Hh1. apply Hkeys. right. exact Hs'.
Qed.

End ConsumerRound.

Lemma sma_process_symbol_spec window_size_ sym now b :
  exists ind b1,
    SMACalculator.process_symbol window_size_ sym now b =
      Some (ind, b1, report_of "SMA" 2 window_size_ sym now b) /\
    exec (OGetHistory sym window_size_) b = Some b1.
Proof.
  unfold SMACalculator.process_symbol, report_of. cbn [exec].
  rewrite getHistory_eq. cbn [mbind option_bind].
  destruct (price_history_ b !! sym) as [h|]; cbn [fst snd from_option id].
  - unfold SMACalculator.calculate. case_decide as Hlen.
    + cbn [mbind option_bind]. rewrite ?decide_True by exact Hlen.
      destruct (last (lastn window_size_ h)); eauto.
    + destruct (last_is_Some (lastn window_size_ h)) as [back Hback]; [lia|].
      rewrite Hback, ?decide_False by exact Hlen. cbn. eauto.
  - cbn. eauto.
Qed.

Lemma volatility_process_symbol_spec window_size_ sym now b :
  exists ind b1,
    VolatilityCalculator.process_symbol window_size_ sym now b =
      Some (ind, b1, report_of "Volatility" 3 window_size_ sym now b) /\
    exec (OGetHistory sym window_size_) b = Some b1.
Proof.
  unfold VolatilityCalculator.process_symbol, report_of. cbn [exec].
  rewrite getHistory_eq. cbn [mbind option_bind].
  destruct (price_history_ b !! sym) as [h|]; cbn [fst snd from_option id].
  - unfold VolatilityCalculator.calculate. case_decide as Hlen.
    + cbn [mbind option_bind]. rewrite ?decide_True by exact Hlen.
      destruct (last (lastn window_size_ h)); eauto.
    + rewrite returns_loop_eq by lia.
      destruct (last_is_Some (lastn window_size_ h)) as [back Hback]; [lia|].
      rewrite Hback, ?decide_False by exact Hlen. cbn. eauto.
  - cbn. eauto.
Qed.

(** X17. One pass of the loop of [SMACalculator::run] never reads past the
    window ([history.back()] is only reached with two observations or more),
    whatever the other threads do between its reads.  On the buffer the pass
    amounts to its [getHistory] calls, one per symbol, among the calls of the
    others; it reports to the monitor at most one "SMA" calculation per
    symbol, in the order of [getSymbols], and none at all with a window size
    below 2. *)
Theorem sma_round_interleaved (window_size_ : nat)
  (others : nat -> list Op) (clock : nat -> Z) (b : SharedBuffer.t) :
  exists b' calls syms,
    SMACalculatorRun.round window_size_ others clock b = Some (b', calls) /\
    run (consumer_ops window_size_ others 0 (fst (getSymbols b))) b
      = Some b' /\
    Forall2 (is_report "SMA") calls syms /\
    syms `sublist_of` fst (getSymbols b) /\
    (window_size_ < 2 -> calls = []).
Proof.
  destruct (consumer_for_symbols
              (SMACalculator.process_symbol window_size_)
              (SMACalculatorRun.for_symbols window_size_) "SMA" 2 window_size_
              (fun _ _ _ _ => eq_refl) (fun _ _ _ _ _ _ => eq_refl)
              (sma_process_symbol_spec window_size_)
              others clock 0 (fst (getSymbols b)) b [])
    as (b' & calls & syms & Hf & Hrun & Hall & Hsub & Hshort).
  exists b', calls, syms. split; [|auto].
  unfold SMACalculatorRun.round. cbn [getSymbols fst] in *.
  destruct (merge_sort symbol_le (map_to_list (price_history_ b)).*1);
    exact Hf.
Qed.

(** X18. While no other thread touches the buffer, one pass of the loop of
    [SMACalculator::run] reports, for each symbol of [getSymbols] in order
    whose window holds two observations or more, one "SMA" calculation
    stamped with the time of the newest observation, and nothing for the
    other symbols.  It leaves the histories, the capacity, the flag and the
    write counter as they are and counts one read per symbol. *)
Theorem sma_round_undisturbed (window_size_ : nat) (clock : nat -> Z)
  (b : SharedBuffer.t) :
  exists b',
    SMACalculatorRun.round window_size_ (fun _ => []) clock b =
      Some (b', concat (imap (fun j sym =>
                  report_of "SMA" 2 window_size_ sym (clock j) b)
                (fst (getSymbols b)))) /\
    price_history_ b' = price_history_ b /\
    max_history_size_ b' = max_history_size_ b /\
    shutdown_ b' = shutdown_ b /\
    total_writes_ b' = total_writes_ b /\
    total_reads_ b' =
      Nat.iter (length (fst (getSymbols b))) size_incr (total_reads_ b).
Proof.
  destruct (consumer_for_symbols_quiet
              (SMACalculator.process_symbol window_size_)
              (SMACalculatorRun.for_symbols window_size_) "SMA" 2 window_size_
              (fun _ _ _ _ => eq_refl) (fun _ _ _ _ _ _ => eq_refl)
              (sma_process_symbol_spec window_size_)
              clock 0 (fst (getSymbols b)) b [])
    as (b' & Hf & Hh & Hm & Hs & Hw & Hr).
  specialize (Hr (fun sym H => proj1 (getSymbols_elem sym b) H)).
  exists b'. split; [|auto].
  unfold SMACalculatorRun.round. cbn [getSymbols fst] in *.
  destruct (merge_sort symbol_le (map_to_list (price_history_ b)).*1);
    exact Hf.
Qed.

(** X19. One pass of the loop of [VolatilityCalculator::run] never reads
    past the window (the returns are taken at indices inside it and
    [history.back()] is only reached with three observations or more),
    whatever the other threads do between its reads.  On the buffer the pass
    amounts to its [getHistory] calls among the calls of the others; it
    reports at most one "Volatility" calculation per symbol, in the order of
    [getSymbols], and none at all with a window size below 3. *)
Theorem volatility_round_interleaved (window_size_ : nat)
  (others : nat -> list Op) (clock : nat -> Z) (b : SharedBuffer.t) :
  exists b' calls syms,
    VolatilityCalculatorRun.round window_size_ others clock b
      = Some (b', calls) /\
    run (consumer_ops window_size_ others 0 (fst (getSymbols b))) b
      = Some b' /\
    Forall2 (is_report "Volatility") calls syms /\
    syms `sublist_of` fst (getSymbols b) /\
    (window_size_ < 3 -> calls = []).
Proof.
  destruct (consumer_for_symbols
              (VolatilityCalculator.process_symbol window_size_)
              (VolatilityCalculatorRun.for_symbols window_size_)
              "Volatility" 3 window_size_
              (fun _ _ _ _ => eq_refl) (fun _ _ _ _ _ _ => eq_refl)
              (volatility_process_symbol_spec window_size_)
              others clock 0 (fst (getSymbols b)) b [])
    as (b' & calls & syms & Hf & Hrun & Hall & Hsub & Hshort).
  exists b', calls, syms. split; [|auto].
  unfold VolatilityCalculatorRun.round. cbn [getSymbols fst] in *.
  destruct (merge_sort symbol_le (map_to_list (price_history_ b)).*1);
    exact Hf.
Qed.

(** X20. While no other thread touches the buffer, one pass of the loop of
    [VolatilityCalculator::run] reports, for each symbol of [getSymbols] in
    order whose window holds three observations or more, one "Volatility"
    calculation stamped with the time of the newest observation, and nothing
    for the other symbols; the buffer changes in the read counter only, by
    one read per symbol. *)
Theorem volatility_round_undisturbed (window_size_ : nat) (clock : nat -> Z)
  (b : SharedBuffer.t) :
  exists b',
    VolatilityCalculatorRun.round window_size_ (fun _ => []) clock b =
      Some (b', concat (imap (fun j sym =>
                  report_of "Volatility" 3 window_size_ sym (clock j) b)
                (fst (getSymbols b)))) /\
    price_history_ b' = price_history_ b /\
    max_history_size_ b' = max_history_size_ b /\
    shutdown_ b' = shutdown_ b /\
    total_writes_ b' = total_writes_ b /\
    total_reads_ b' =
      Nat.iter (length (fst (getSymbols b))) size_incr (total_reads_ b).
Proof.
  destruct (consumer_for_symbols_quiet
              (VolatilityCalculator.process_symbol window_size_)
              (VolatilityCalculatorRun.for_symbols window_size_)
              "Volatility" 3 window_size_
              (fun _ _ _ _ => eq_refl) (fun _ _ _ _ _ _ => eq_refl)
              (volatility_process_symbol_spec window_size_)
              clock 0 (fst (getSymbols b)) b [])
    as (b' & Hf & Hh & Hm & Hs & Hw & Hr).
  specialize (Hr (fun sym H => proj1 (getSymbols_elem sym b) H)).
  exists b'. split; [|auto].
  unfold VolatilityCalculatorRun.round. cbn [getSymbols fst] in *.
  destruct (merge_sort symbol_le (map_to_list (price_history_ b)).*1);
    exact Hf.
Qed.

(** Left alone, both calculators report "A" only; when the producer pushes a
    second observation of "B" between the two reads, the moving average
    reports "B" as well. *)
Example consumers_on_two_symbols :
  (b ← run two_symbols (init 100);
   st ← SMACalculatorRun.round 5 (fun _ => []) (fun j => 10 + Z.of_nat j)%Z b;
   Some (snd st)) = Some [RecordProcessing "A" "SMA" 4 10] /\
  (b ← run two_symbols (init 100);
   st ← VolatilityCalculatorRun.round 10 (fun _ => [])
          (fun j => 10 + Z.of_nat j)%Z b;
   Some (snd st)) = Some [RecordProcessing "A" "Volatility" 4 10] /\
  (b ← run two_symbols (init 100);
   st ← SMACalculatorRun.round 5
          (fun i => match i with 1 => [OPush (obs "B" 21 5)] | _ => [] end)
          (fun j => 10 + Z.of_nat j)%Z b;
   Some (snd st))
  = Some [RecordProcessing "A" "SMA" 4 10; RecordProcessing "B" "SMA" 5 11].
Proof. repeat split; vm_compute; reflexivity. Qed.

(** ** The loop of the display *)

Lemma appended_nonempty cap history data :
  1 <= cap -> appended cap history data <> [].
Proof.
  intros Hcap. unfold appended. case_decide as Hlen.
  - rewrite length_app in Hlen. cbn in Hlen.
    destruct history as [|x [|y history]]; cbn in *; [lia| |]; discriminate.
  - destruct history; discriminate.
Qed.

(** With a capacity of 1 or more, no call empties a history. *)
Lemma run_keeps_nonempty ops b b' :
  run ops b = Some b' ->
  1 <= max_history_size_ b ->
  (forall key h, price_history_ b !! key = Some h -> h <> []) ->
  forall key h, price_history_ b' !! key = Some h -> h <> [].
Proof.
  revert b. induction ops as [|o ops IH]; intros b; cbn [run].
  - intros [= <-]. auto.
  - destruct (exec o b) as [b1|] eqn:E; [|discriminate].
    cbn [mbind option_bind]. intros Hrun Hcap Hne.
    destruct (exec_fields _ _ _ E) as [Hcap1 Hk].
    apply (IH b1 Hrun); [lia|]. intros key h. rewrite Hk.
    destruct (pushed key [o]) as [|data l].
    + apply Hne.
    + intros [= <-]. apply appended_nonempty, Hcap.
Qed.

Lemma show_spec sym b acc :
  exists b1,
    DisplayThread.show sym (b, acc) = Some (b1, acc ++ shown sym b) /\
    exec (OGetLatest sym PriceData_default) b = Some b1 /\
    price_history_ b1 = price_history_ b /\
    max_history_size_ b1 = max_history_size_ b.
Proof.
  unfold DisplayThread.show, shown. cbn [exec fst snd].
  rewrite getLatest_eq.
  destruct (price_history_ b !! sym ≫= last) as [data|];
    cbn [mbind option_bind snd].
  - eexists. repeat split.
  - exists b. rewrite app_nil_r. repeat split.
Qed.

Lemma shown_cases sym b :
  match price_history_ b !! sym ≫= last with
  | Some _ =>
      exists e, shown sym b = [e] /\ DisplayThread.entry_symbol e = sym /\
        (DisplayThread.entry_indicator e = DisplayThread.UP <->
         (0 <=? DisplayThread.entry_change e)%float = true)
  | None => shown sym b = []
  end.
Proof.
  unfold shown. destruct (price_history_ b !! sym ≫= last) as [data|];
    [|reflexivity].
  eexists. split; [reflexivity|]. split; [reflexivity|]. cbn.
  destruct (0 <=? change data)%float; split; congruence.
Qed.

Lemma display_for_symbols others i symbols b acc :
  exists b' entries,
    DisplayThread.for_symbols others i symbols (b, acc)
      = Some (b', acc ++ entries) /\
    run (display_ops others i symbols) b = Some b' /\
    (DisplayThread.entry_symbol <$> entries) `sublist_of` symbols /\
    Forall (fun e =>
      DisplayThread.entry_indicator e = DisplayThread.UP <->
      (0 <=? DisplayThread.entry_change e)%float = true) entries /\
    (1 <= max_history_size_ b ->
     (forall key h, price_history_ b !! key = Some h -> h <> []) ->
     (forall sym, sym ∈ symbols -> is_Some (price_history_ b !! sym)) ->
     DisplayThread.entry_symbol <$> entries = symbols).
Proof.
  revert i b acc. induction symbols as [|sym symbols IH]; intros i b acc.
  - exists b, []. cbn. rewrite app_nil_r. repeat split; auto.
  - cbn [DisplayThread.for_symbols display_ops fst snd].
    destruct (run_total (others i) b) as [b1 Hb1].
    destruct (show_spec sym b1 acc) as (b2 & Hshow & Hb2 & Hh2 & Hc2).
    destruct (IH (S i) b2 (acc ++ shown sym b1))
      as (b' & entries & Hf & Hrun & Hsub & Hall & Hfull).
    rewrite Hb1. cbn [mbind option_bind]. rewrite Hshow.
    cbn [mbind option_bind]. rewrite Hf, <- app_assoc.
    rewrite run_app, Hb1. cbn [mbind option_bind run]. rewrite Hb2.
    cbn [mbind option_bind].
    exists b', (shown sym b1 ++ entries).
    split; [reflexivity|]. split; [exact Hrun|].
    pose proof (shown_cases sym b1) as Hcases.
    assert (Hcap1 : max_history_size_ b1 = max_history_size_ b)
      by apply (run_fields _ _ _ sym Hb1).
    split; [|split].
    + destruct (price_history_ b1 !! sym ≫= last).
      * destruct Hcases as (e & -> & <- & _). cbn.
        apply sublist_skip, Hsub.
      * rewrite Hcases. cbn. apply sublist_cons, Hsub.
    + destruct (price_history_ b1 !! sym ≫= last).
      * destruct Hcases as (e & -> & _ & He). constructor; assumption.
      * rewrite Hcases. exact Hall.
    + intros Hcap Hne Hkeys.
      assert (Hne1 : forall key h,
                price_history_ b1 !! key = Some h -> h <> [])
        by exact (run_keeps_nonempty _ _ _ Hb1 Hcap Hne).
      assert (Hkeys1 : forall s, s ∈ sym :: symbols ->
                is_Some (price_history_ b1 !! s)).
      { intros s Hs. apply (run_fields _ _ _ s Hb1), Hkeys, Hs. }
      destruct (Hkeys1 sym) as [h Hh]; [left|].
      rewrite Hh in Hcases. cbn in Hcases.
      destruct (last_is_Some h) as [data Hdata].
      { specialize (Hne1 sym h Hh). destruct h; [congruence | cbn; lia]. }
      rewrite Hdata in Hcases. destruct Hcases as (e & -> & <- & _).
      cbn. f_equal. apply Hfull.
      * lia.
      * intros key h'. rewrite Hh2. apply Hne1.
      * intros s Hs. rewrite Hh2. apply Hkeys1. right. exact Hs.
Qed.

(** X21. One pass of the loop of [DisplayThread::run] never reads the back
    of an empty history, whatever the other threads do between its reads.
    On the buffer the pass amounts to its [getLatest] calls, one per symbol,
    among the calls of the others.  It shows at most one entry per symbol, in
    the order of [getSymbols]; an entry is marked UP exactly when its
    change is at least 0, so a change that is not a number is marked DN.
    When the capacity is 1 or more and no history is empty at the start,
    every symbol of [getSymbols] is shown. *)
Theorem display_round_interleaved (others : nat -> list Op)
  (b : SharedBuffer.t) :
  exists b' entries,
    DisplayThread.round others b = Some (b', entries) /\
    run (display_ops others 0 (fst (getSymbols b))) b = Some b' /\
    (DisplayThread.entry_symbol <$> entries)
      `sublist_of` fst (getSymbols b) /\
    Forall (fun e =>
      DisplayThread.entry_indicator e = DisplayThread.UP <->
      (0 <=? DisplayThread.entry_change e)%float = true) entries /\
    (1 <= max_history_size_ b ->
     (forall key h, price_history_ b !! key = Some h -> h <> []) ->
     DisplayThread.entry_symbol <$> entries = fst (getSymbols b)).
Proof.
  destruct (display_for_symbols others 0 (fst (getSymbols b)) b [])
    as (b' & entries & Hf & Hrun & Hsub & Hall & Hfull).
  exists b', entries. split; [|split; [|split; [|split]]]; auto.
  - unfold DisplayThread.round. cbn [getSymbols fst] in *.
    destruct (merge_sort symbol_le (map_to_list (price_history_ b)).*1);
      exact Hf.
  - intros Hcap Hne. apply Hfull; auto.
    intros sym. apply getSymbols_elem.
Qed.

(** The display shows the newest observation of each symbol. *)
Example display_of_two_symbols :
  (b ← run two_symbols (init 100);
   st ← DisplayThread.round (fun _ => []) b;
   Some (snd st))
  = Some [DisplayThread.mkEntry "A" 12 DisplayThread.UP 0;
          DisplayThread.mkEntry "B" 20 DisplayThread.UP 0].
Proof. vm_compute. reflexivity. Qed.

(** ** The run time given on the command line *)

Lemma append_EmptyString s : String.append EmptyString s = s.
Proof. reflexivity. Qed.

Lemma append_String c s t :
  String.append (String c s) t = String c (String.append s t).
Proof. reflexivity. Qed.

Lemma read_digits_numeral d suffix a :
  match suffix with
  | String c _ => Main.digit c = None
  | EmptyString => True
  end ->
  Main.read_digits
    (String.append (DecimalString.NilEmpty.string_of_uint d) suffix)
    (Z.of_nat a)
  = Z.of_nat (Nat.of_uint_acc d a).
Proof.
  intros Hsuffix. revert a.
  induction d as [|d IH|d IH|d IH|d IH|d IH|d IH|d IH|d IH|d IH|d IH];
    intros a; cbn [DecimalString.NilEmpty.string_of_uint];
    rewrite ?append_String;
    [rewrite append_EmptyString; destruct suffix as [|c s];
     cbn [Main.read_digits Nat.of_uint_acc];
     [reflexivity | rewrite Hsuffix; reflexivity] | ..];
    cbn [Main.read_digits Nat.of_uint_acc];
    match goal with
    | |- context [Main.digit ?c] =>
        let v := eval vm_compute in (Main.digit c) in
        change (Main.digit c) with v
    end;
    cbv iota beta; rewrite <- IH; f_equal;
    rewrite Nat.tail_mul_spec; lia.
Qed.

Lemma numeral_starts_with_digit n :
  exists c s,
    DecimalString.NilEmpty.string_of_uint (Nat.to_uint n) = String c s /\
    is_Some (Main.digit c) /\ Main.isspace c = false /\
    Ascii.eqb c Main.minus_sign = false /\
    Ascii.eqb c Main.plus_sign = false.
Proof.
  destruct (Nat.to_uint n) as [|d|d|d|d|d|d|d|d|d|d] eqn:E;
    [|cbn [DecimalString.NilEmpty.string_of_uint];
      do 2 eexists; (split; [reflexivity|]); vm_compute; eauto..].
  pose proof (DecimalNat.Unsigned.of_to n) as H. rewrite E in H.
  cbn in H. subst n. discriminate E.
Qed.

(** X22. Whatever the arguments, the simulation runs for a time between 5
    and 300 seconds; without an argument it runs 45 seconds, and so it does
    when the argument is not a number or does not fit [int] (the message
    says 30 there, but [runtime_seconds] keeps its initial value). *)
Theorem runtime_is_between_5_and_300 (argv : list string) :
  (5 <= Main.runtime_seconds argv <= 300)%Z /\
  (length argv <= 1 -> Main.runtime_seconds argv = 45%Z) /\
  (forall prog arg rest, argv = prog :: arg :: rest ->
     (forall n, Main.stoi arg <> Main.Value n) ->
     Main.runtime_seconds argv = 45%Z).
Proof.
  split; [|split].
  - unfold Main.runtime_seconds.
    destruct argv as [|prog [|arg rest]]; try lia.
    destruct (Main.stoi arg) as [n| |]; try lia.
    destruct (n <? 5)%Z eqn:E1; cbn [orb]; [lia|].
    destruct (300 <? n)%Z eqn:E2; lia.
  - destruct argv as [|prog [|arg rest]]; cbn; try reflexivity; lia.
  - intros prog arg rest -> Hno. cbn.
    destruct (Main.stoi arg) as [n| |]; [|reflexivity..].
    destruct (Hno n). reflexivity.
Qed.

(** X23. Given a decimal numeral, with or without a minus sign, followed
    by anything that does not start with a digit, the simulation runs for
    the number of seconds the numeral stands for when that lies between 5
    and 300, for 30 seconds when it is another value of [int], and for 45
    seconds when it does not fit [int]. *)
Theorem runtime_of_a_numeral (prog : string) (rest : list string)
  (negative : bool) (n : nat) (suffix : string) :
  match suffix with
  | String c _ => Main.digit c = None
  | EmptyString => True
  end ->
  let numeral :=
    String.append (DecimalString.NilEmpty.string_of_uint (Nat.to_uint n))
      suffix in
  let z := if negative then (- Z.of_nat n)%Z else Z.of_nat n in
  Main.runtime_seconds
    (prog :: (if negative then String Main.minus_sign numeral else numeral)
          :: rest)
  = if (5 <=? z)%Z && (z <=? 300)%Z then z
    else if (Main.INT_MIN <=? z)%Z && (z <=? Main.INT_MAX)%Z then 30%Z
    else 45%Z.
Proof.
  intros Hsuffix numeral z.
  assert (Hread : Main.read_digits numeral 0 = Z.of_nat n).
  { unfold numeral. rewrite (read_digits_numeral _ suffix 0 Hsuffix).
    f_equal. apply DecimalNat.Unsigned.of_to. }
  destruct (numeral_starts_with_digit n)
    as (c & s & Hc & [v Hd] & Hsp & Hm & Hp).
  assert (Hnum : numeral = String c (String.append s suffix)).
  { unfold numeral. rewrite Hc. apply append_String. }
  assert (Hstoi :
    Main.stoi (if negative then String Main.minus_sign numeral else numeral)
    = if (Main.INT_MIN <=? z)%Z && (z <=? Main.INT_MAX)%Z
      then Main.Value z else Main.out_of_range).
  { unfold Main.stoi. destruct negative.
    - cbn [Main.skip_spaces].
      replace (Main.isspace Main.minus_sign) with false by reflexivity.
      replace (Ascii.eqb Main.minus_sign Main.minus_sign) with true
        by reflexivity.
      cbv zeta. rewrite Hread, Hnum. cbv iota beta. rewrite Hd. reflexivity.
    - assert (Hskip : Main.skip_spaces numeral = numeral).
      { rewrite Hnum. cbn [Main.skip_spaces]. rewrite Hsp. reflexivity. }
      rewrite Hskip, Hnum. cbv beta iota zeta. rewrite Hm, Hp.
      cbv beta iota zeta. rewrite Hd. cbv beta iota.
      rewrite <- Hnum, Hread. reflexivity. }
  unfold Main.runtime_seconds. rewrite Hstoi.
  unfold Main.INT_MIN, Main.INT_MAX.
  destruct (5 <=? z)%Z eqn:E1, (z <=? 300)%Z eqn:E2; cbn [andb];
    destruct (- 2 ^ 31 <=? z)%Z eqn:E3, (z <=? 2 ^ 31 - 1)%Z eqn:E4;
    cbn [andb]; try reflexivity; try lia;
    destruct (z <? 5)%Z eqn:E5, (300 <? z)%Z eqn:E6; cbn [orb];
    try reflexivity; lia.
Qed.

Lemma runtime_of_a_numeral_witness :
  Main.runtime_seconds
    ["sim";
     String.append (DecimalString.NilEmpty.string_of_uint (Nat.to_uint 60))
       "s"]
  = if (5 <=? Z.of_nat 60)%Z && (Z.of_nat 60 <=? 300)%Z then Z.of_nat 60
    else if (Main.INT_MIN <=? Z.of_nat 60)%Z
            && (Z.of_nat 60 <=? Main.INT_MAX)%Z then 30%Z
    else 45%Z.
Proof.
  apply (runtime_of_a_numeral "sim" [] false 60 "s"). reflexivity.
Defined.

(** No argument, a minute, a number that is too small, one that is too
    large, one that does not fit [int], and no number. *)
Example runtimes :
  Main.runtime_seconds <$>
    [["sim"]; ["sim"; " 60"]; ["sim"; "+7x"]; ["sim"; "-3"]; ["sim"; "1000"];
     ["sim"; "99999999999"]; ["sim"; "fast"]; ["sim"; ""]]
  = [45; 60; 7; 30; 30; 45; 45; 45]%Z.
Proof. reflexivity. Qed.
